(** * Verification of the markdown-replace remark plugin

    A shallow embedding of [plugins/markdown-replace] (the document
    transformation engine of the site) and the proofs of the properties its
    specification states.

    Conventions of the embedding.
    - A JavaScript string is the list of its UTF-16 code units
      ([jsstring]).  String literals of the source are written [lit "..."],
      which decodes the UTF-8 text of this file into code units.
    - A property that may be absent ([value], [url], [alt], [children]) is an
      [option]; [None] is JavaScript's [undefined].
    - A function that can throw returns a [res]; the functions that read or
      write the counters and the footnote store run in the state and error
      monad [M].
    - A regular expression literal is a term of [re], run by a backtracking
      matcher written in the continuation style of the ECMAScript
      specification. *)

From Stdlib Require Import String Ascii List Bool Arith NArith ZArith QArith Lia.
From Stdlib Require Import DecimalString DecimalN DecimalPos.
Import ListNotations.

Set Warnings "-register-all".

Local Close Scope Q_scope.
Local Open Scope nat_scope.
Local Open Scope list_scope.

(* ================================================================== *)
(** * JavaScript strings *)
(* ================================================================== *)

(** A UTF-16 code unit. *)
Definition char16 := N.

Definition jsstring := list char16.

Module Utf8.

Definition bytes (s : string) : list N :=
  map N_of_ascii (list_ascii_of_string s).

(** The six payload bits of a continuation byte. *)
Definition cont (b : N) : N := N.land b 63.

(** A code point as one code unit, or as a surrogate pair above the BMP. *)
Definition units (cp : N) : list char16 :=
  if (cp <? 65536)%N then [cp]
  else let v := (cp - 65536)%N in
       [(55296 + N.shiftr v 10)%N; (56320 + N.land v 1023)%N].

Fixpoint decode (bs : list N) : list char16 :=
  match bs with
  | [] => []
  | b0 :: r0 =>
    if (b0 <? 128)%N then b0 :: decode r0
    else if (b0 <? 224)%N then
      match r0 with
      | b1 :: r1 => (N.shiftl (N.land b0 31) 6 + cont b1)%N :: decode r1
      | _ => []
      end
    else if (b0 <? 240)%N then
      match r0 with
      | b1 :: b2 :: r2 =>
        (N.shiftl (N.land b0 15) 12 + N.shiftl (cont b1) 6 + cont b2)%N
          :: decode r2
      | _ => []
      end
    else
      match r0 with
      | b1 :: b2 :: b3 :: r3 =>
        units (N.shiftl (N.land b0 7) 18 + N.shiftl (cont b1) 12
               + N.shiftl (cont b2) 6 + cont b3)%N ++ decode r3
      | _ => []
      end
  end.

End Utf8.

(** The JavaScript string denoted by a literal of the source. *)
Definition lit (s : string) : jsstring := Utf8.decode (Utf8.bytes s).

Definition chr (s : string) : char16 := hd 0%N (lit s).

Fixpoint str_eqb (a b : jsstring) : bool :=
  match a, b with
  | [], [] => true
  | x :: a', y :: b' => (x =? y)%N && str_eqb a' b'
  | _, _ => false
  end.

(** [s.startsWith(p)] *)
Fixpoint startsWith (p s : jsstring) : bool :=
  match p, s with
  | [], _ => true
  | x :: p', y :: s' => (x =? y)%N && startsWith p' s'
  | _ :: _, [] => false
  end.

(** [s.endsWith(p)] *)
Definition endsWith (p s : jsstring) : bool :=
  (length p <=? length s) &&
  str_eqb (skipn (length s - length p) s) p.

(** [s.indexOf(p)]: the index of the first occurrence, [None] for -1. *)
Fixpoint indexOf_from (i : nat) (p s : jsstring) : option nat :=
  if startsWith p s then Some i
  else match s with
       | [] => None
       | _ :: s' => indexOf_from (S i) p s'
       end.

Definition indexOf (p s : jsstring) : option nat := indexOf_from 0 p s.

(** [s.substring(i)] for [0 <= i]. *)
Definition substring (i : nat) (s : jsstring) : jsstring := skipn i s.

(** [s.slice(0, -k)] *)
Definition slice_drop_last (k : nat) (s : jsstring) : jsstring :=
  firstn (length s - k) s.

(** [s.slice(k)] for [0 <= k]. *)
Definition slice_from (k : nat) (s : jsstring) : jsstring := skipn k s.

(** The decimal rendering of a counter, as [`${n}`] gives it. *)
Definition dec (n : N) : jsstring :=
  map N_of_ascii (list_ascii_of_string (NilZero.string_of_uint (N.to_uint n))).

(** A value that is a string or [undefined]. *)
Definition jsopt := option jsstring.

(** Truthiness of a string-or-undefined value. *)
Definition truthy (v : jsopt) : bool :=
  match v with
  | Some (_ :: _) => true
  | _ => false
  end.

(** [v || ''] *)
Definition or_empty (v : jsopt) : jsstring :=
  match v with
  | Some s => s
  | None => []
  end.

(** The text a template literal [`${v}`] inserts. *)
Definition interp (v : jsopt) : jsstring :=
  match v with
  | Some s => s
  | None => lit "undefined"
  end.

(* ================================================================== *)
(** * Results and exceptions *)
(* ================================================================== *)

Inductive exn : Type :=
| RangeExn      (* [new Error(`Please input an integer between 1-99: ...`)] *)
| TypeError     (* a property read or a method call on [undefined] *)
| OutOfFuel.    (* the traversal bound of the model was too small *)

Inductive res (A : Type) : Type :=
| Ok (a : A)
| Throw (e : exn).

Arguments Ok {A} a.
Arguments Throw {A} e.

Definition rbind {A B} (r : res A) (f : A -> res B) : res B :=
  match r with
  | Ok a => f a
  | Throw e => Throw e
  end.

(* ================================================================== *)
(** * The Ordinal Formatter: [numberToChinese] *)
(* ================================================================== *)

(** A JavaScript number: a finite value, kept as a rational, or one of the
    three values that are not finite. *)
Inductive number : Type :=
| Finite (q : Q)
| NaN
| Infinity (negative : bool).

Definition of_N (n : N) : number := Finite (inject_Z (Z.of_N n)).
Definition of_Z (z : Z) : number := Finite (inject_Z z).

(** [Number.isInteger(num)] *)
Definition isInteger (num : number) : bool :=
  match num with
  | Finite q => (Qnum q mod Zpos (Qden q) =? 0)%Z
  | _ => false
  end.

(** [num < k] and [num > k] for an integer constant [k]. *)
Definition num_lt (num : number) (k : Z) : bool :=
  match num with
  | Finite q => negb (Qle_bool (inject_Z k) q)
  | NaN => false
  | Infinity negative => negative
  end.

Definition num_gt (num : number) (k : Z) : bool :=
  match num with
  | Finite q => negb (Qle_bool q (inject_Z k))
  | NaN => false
  | Infinity negative => negb negative
  end.

(** The value of a number already known to be an integer. *)
Definition int_value (num : number) : Z :=
  match num with
  | Finite q => (Qnum q / Zpos (Qden q))%Z
  | _ => 0%Z
  end.

Definition digits : list jsstring :=
  [lit "零"; lit "一"; lit "二"; lit "三"; lit "四";
   lit "五"; lit "六"; lit "七"; lit "八"; lit "九"].

(** [digits[i]], with the text that [undefined] concatenates as. *)
Definition digit (i : Z) : jsstring :=
  nth (Z.to_nat i) digits (lit "undefined").

Definition numberToChinese (num : number) : res jsstring :=
  if negb (isInteger num) || num_lt num 1 || num_gt num 99 then Throw RangeExn
  else
    let n := int_value num in
    if (n <? 10)%Z then Ok (digit n)
    else
      let tens := (n / 10)%Z in
      let ones := (n mod 10)%Z in
      let result := if (tens =? 1)%Z then lit "十" else digit tens ++ lit "十" in
      let result := if negb (ones =? 0)%Z then result ++ digit ones else result in
      Ok result.


(* ================================================================== *)
(** * Regular expressions *)
(* ================================================================== *)

(** Character sets: what one [.] or one [[...]] or one escape matches. *)
Inductive cset : Type :=
| CDot                         (* [.]: any unit but a line terminator *)
| CSpace                       (* [\s] *)
| COne (c : char16)            (* one literal unit *)
| CRange (lo hi : char16)      (* [lo-hi] *)
| CUnion (a b : cset)
| CNot (a : cset).             (* [[^...]] *)

Definition is_line_terminator (c : char16) : bool :=
  ((c =? 10) || (c =? 13) || (c =? 8232) || (c =? 8233))%N.

(** White space and line terminators of ECMAScript. *)
Definition is_space (c : char16) : bool :=
  ((c =? 9) || (c =? 10) || (c =? 11) || (c =? 12) || (c =? 13) || (c =? 32)
   || (c =? 160) || (c =? 5760) || ((8192 <=? c) && (c <=? 8202))
   || (c =? 8232) || (c =? 8233) || (c =? 8239) || (c =? 8287)
   || (c =? 12288) || (c =? 65279))%N.

Fixpoint cset_mem (k : cset) (c : char16) : bool :=
  match k with
  | CDot => negb (is_line_terminator c)
  | CSpace => is_space c
  | COne d => (c =? d)%N
  | CRange lo hi => ((lo <=? c) && (c <=? hi))%N
  | CUnion a b => cset_mem a c || cset_mem b c
  | CNot a => negb (cset_mem a c)
  end.

(** The patterns the plugin uses.  Quantifiers occur only on character
    sets; [RGroup i r] is the [i]-th pair of capturing parentheses. *)
Inductive re : Type :=
| REmpty
| RChar (c : char16)
| RSet (k : cset)
| RSeq (r1 r2 : re)
| RAlt (r1 r2 : re)
| RStar (greedy : bool) (k : cset)   (* [k*] and [k*?] *)
| RGroup (i : nat) (r : re)
| RNotAhead (r : re)                 (* [(?!r)] *)
| RBol.                              (* [^] without the [m] flag *)

(** [k+] *)
Definition RPlus (k : cset) : re := RSeq (RSet k) (RStar true k).

(** A literal run of characters. *)
Fixpoint RLit (s : jsstring) : re :=
  match s with
  | [] => REmpty
  | [c] => RChar c
  | c :: s' => RSeq (RChar c) (RLit s')
  end.

(** [r1 r2 ... rn] *)
Fixpoint RCat (rs : list re) : re :=
  match rs with
  | [] => REmpty
  | [r] => r
  | r :: rs' => RSeq r (RCat rs')
  end.

(** The number of capture groups of a pattern. *)
Fixpoint ngroups (r : re) : nat :=
  match r with
  | RSeq r1 r2 | RAlt r1 r2 => Nat.max (ngroups r1) (ngroups r2)
  | RGroup i r1 => Nat.max i (ngroups r1)
  | RNotAhead r1 => ngroups r1
  | _ => 0
  end.

(** The state of a match: the index reached, the input from there on, and
    the captures made so far (latest first). *)
Record mstate : Type := MState {
  pos : nat;
  rest : jsstring;
  caps : list (nat * jsstring)
}.

Definition capture (i : nat) (x : mstate) : jsopt :=
  match find (fun c => Nat.eqb (fst c) i) (caps x) with
  | Some c => Some (snd c)
  | None => None
  end.

(** Zero or more units of [k], longest first when greedy and shortest first
    when lazy, each choice continued by [cont]. *)
Fixpoint star (greedy : bool) (k : cset) (cs : list (nat * jsstring))
    (cont : mstate -> option mstate) (p : nat) (s : jsstring)
    : option mstate :=
  let stop := cont (MState p s cs) in
  match s with
  | c :: s' =>
    if cset_mem k c then
      if greedy then
        match star greedy k cs cont (S p) s' with
        | Some z => Some z
        | None => stop
        end
      else
        match stop with
        | Some z => Some z
        | None => star greedy k cs cont (S p) s'
        end
    else stop
  | [] => stop
  end.

(** The matcher of a pattern: from state [x], the first way (in the order
    backtracking tries them) to match [r] and then satisfy [cont]. *)
Fixpoint matcher (r : re) (x : mstate) (cont : mstate -> option mstate)
    : option mstate :=
  match r with
  | REmpty => cont x
  | RChar c =>
    match rest x with
    | d :: s' => if (d =? c)%N then cont (MState (S (pos x)) s' (caps x)) else None
    | [] => None
    end
  | RSet k =>
    match rest x with
    | d :: s' => if cset_mem k d then cont (MState (S (pos x)) s' (caps x)) else None
    | [] => None
    end
  | RSeq r1 r2 => matcher r1 x (fun y => matcher r2 y cont)
  | RAlt r1 r2 =>
    match matcher r1 x cont with
    | Some z => Some z
    | None => matcher r2 x cont
    end
  | RStar greedy k => star greedy k (caps x) cont (pos x) (rest x)
  | RGroup i r1 =>
    matcher r1 x (fun y =>
      cont (MState (pos y) (rest y)
                   ((i, firstn (pos y - pos x) (rest x)) :: caps y)))
  | RNotAhead r1 =>
    match matcher r1 x (fun y => Some y) with
    | Some _ => None
    | None => cont x
    end
  | RBol => if Nat.eqb (pos x) 0 then cont x else None
  end.

(** One attempt to match [r] at index [p], where the input continues with
    [s]. *)
Definition match_at (r : re) (p : nat) (s : jsstring) : option mstate :=
  matcher r (MState p s []) (fun y => Some y).

(** The replacement text of one match ([GetSubstitution]): [$$], [$&] and
    [$n] for a single digit [n] that names a group of the pattern.  No
    template of the plugin uses another form. *)
Fixpoint expand (m : nat) (matched : jsstring) (y : mstate) (tpl : jsstring)
    : jsstring :=
  match tpl with
  | [] => []
  | c :: t =>
    if (c =? 36)%N then
      match t with
      | d :: t' =>
        if (d =? 36)%N then 36%N :: expand m matched y t'
        else if (d =? 38)%N then matched ++ expand m matched y t'
        else if ((49 <=? d) && (d <=? 57))%N
                && (N.to_nat (d - 48) <=? m) then
          or_empty (capture (N.to_nat (d - 48)) y) ++ expand m matched y t'
        else c :: expand m matched y t
      | [] => [c]
      end
    else c :: expand m matched y t
  end.

(** [s.replace(r, tpl)] for a pattern with the [g] flag.  [p] is the index
    of the input [s] still to scan; [skip] counts the units of the last
    match not yet passed.  After an empty match the scan moves on by one
    unit. *)
Fixpoint replace_from (r : re) (tpl : jsstring) (p : nat) (skip : nat)
    (s : jsstring) : jsstring :=
  match skip with
  | S n =>
    match s with
    | [] => []
    | _ :: s' => replace_from r tpl (S p) n s'
    end
  | O =>
    match match_at r p s with
    | Some y =>
      let len := pos y - p in
      expand (ngroups r) (firstn len s) y tpl ++
      match s with
      | [] => []
      | c :: s' =>
        if Nat.eqb len 0 then c :: replace_from r tpl (S p) 0 s'
        else replace_from r tpl (S p) (len - 1) s'
      end
    | None =>
      match s with
      | [] => []
      | c :: s' => c :: replace_from r tpl (S p) 0 s'
      end
    end
  end.

Definition replace (r : re) (tpl : jsstring) (s : jsstring) : jsstring :=
  replace_from r tpl 0 0 s.

(** The captures of a match as [split] lists them: one entry per group. *)
Definition captures (m : nat) (y : mstate) : list jsopt :=
  map (fun i => capture i y) (seq 1 m).

(** The loop of [s.split(r)] on a nonempty input.  [q] is the index of
    [s]; [seg] is the text since the end of the last match.  A match is
    tried at every index before the end; an empty match at the very start
    of a segment is passed over. *)
Fixpoint split_from (r : re) (q : nat) (skip : nat) (seg : jsstring)
    (s : jsstring) : list jsopt :=
  match skip with
  | S n =>
    match s with
    | [] => [Some seg]
    | _ :: s' => split_from r (S q) n seg s'
    end
  | O =>
    match s with
    | [] => [Some seg]
    | c :: s' =>
      match match_at r q s with
      | None => split_from r (S q) 0 (seg ++ [c]) s'
      | Some y =>
        let len := pos y - q in
        if Nat.eqb len 0 then
          match seg with
          | [] => split_from r (S q) 0 [c] s'
          | _ => Some seg :: captures (ngroups r) y
                   ++ split_from r (S q) 0 [c] s'
          end
        else Some seg :: captures (ngroups r) y
               ++ split_from r (S q) (len - 1) [] s'
      end
    end
  end.

(** [s.split(r)] *)
Definition split (r : re) (s : jsstring) : list jsopt :=
  match s with
  | [] => match match_at r 0 [] with
          | Some _ => []
          | None => [Some []]
          end
  | _ => split_from r 0 0 [] s
  end.

(* ================================================================== *)
(** * Document trees *)
(* ================================================================== *)

(** A node of the markdown tree: its [type] tag and the properties the
    plugin reads or writes.  [url] is the address of an [image] or [link];
    a container owns its [children]. *)
Inductive node : Type := Node {
  type : string;
  value : jsopt;
  url : jsopt;
  alt : jsopt;
  children : option (list node)
}.

Definition is_type (t : string) (n : node) : bool := String.eqb (type n) t.

(** [{ type: 'text', value: v }] and [{ type: 'html', value: v }] *)
Definition text (v : jsstring) : node := Node "text" (Some v) None None None.
Definition html (v : jsstring) : node := Node "html" (Some v) None None None.

(** [n.value = v] and [n.children = cs] *)
Definition set_value (n : node) (v : jsopt) : node :=
  Node (type n) v (url n) (alt n) (children n).

Definition set_children (n : node) (cs : option (list node)) : node :=
  Node (type n) (value n) (url n) (alt n) cs.

(** The list of children a [for ... of node.children] loop runs over. *)
Definition iter_children (n : node) : res (list node) :=
  match children n with
  | Some cs => Ok cs
  | None => Throw TypeError
  end.

(** A literal of the source in which the double quote is written as a
    backquote (no literal of the plugin contains a backquote). *)
Definition litq (s : string) : jsstring :=
  map (fun c => if (c =? 96)%N then 34%N else c) (lit s).

(** The line feed of a multi-line template literal. *)
Definition nl : jsstring := [10%N].

(* ================================================================== *)
(** * The Pattern Rewriter: [regex] *)
(* ================================================================== *)

Fixpoint regex_children (rx : re) (template : jsstring) (cs : list node)
    : res (list node) :=
  match cs with
  | [] => Ok []
  | child :: cs' =>
    if negb (is_type "text" child) && negb (is_type "html" child)
       && negb (is_type "blockquote" child)
    then rbind (regex_children rx template cs') (fun out => Ok (child :: out))
    else
      match value child with
      | None => Throw TypeError
      | Some v =>
        let replaced := replace rx template v in
        let new_child :=
          if str_eqb replaced v then
            if is_type "html" child then child else text v
          else html replaced in
        rbind (regex_children rx template cs')
              (fun out => Ok (new_child :: out))
      end
  end.

Definition regex (n : node) (rx : re) (template : jsstring)
    : res (list node) :=
  rbind (iter_children n) (regex_children rx template).

(* ================================================================== *)
(** * Traversal state *)
(* ================================================================== *)

(** [{ num, content }] *)
Record footnote : Type := Footnote {
  num : N;
  content : jsopt
}.

(** The counters kept on the pass functions and the module-level footnote
    store. *)
Record state : Type := State {
  imgNum : N;
  tblNum : N;
  footNoteNum : N;
  collectedFootnotes : list footnote
}.

Definition initial_state : state := State 0 0 0 [].

(** Computations that read and write the state and may throw. *)
Definition M (A : Type) : Type := state -> res (A * state).

Definition ret {A} (a : A) : M A := fun st => Ok (a, st).

Definition bind {A B} (c : M A) (f : A -> M B) : M B :=
  fun st =>
    match c st with
    | Ok (a, st') => f a st'
    | Throw e => Throw e
    end.

Definition lift {A} (r : res A) : M A :=
  fun st =>
    match r with
    | Ok a => Ok (a, st)
    | Throw e => Throw e
    end.

Declare Scope monad_scope.
Delimit Scope monad_scope with monad.
Notation "x <- c ;; k" := (bind c (fun x => k))
  (at level 61, c at next level, right associativity) : monad_scope.
Local Open Scope monad_scope.

Fixpoint mapM {A B} (f : A -> M B) (l : list A) : M (list B) :=
  match l with
  | [] => ret []
  | a :: l' => b <- f a ;; bs <- mapM f l' ;; ret (b :: bs)
  end.

(* ================================================================== *)
(** * Figure Numbering: [imgRegex] *)
(* ================================================================== *)

(** [imgRegex.imgNum++] *)
Definition incr_imgNum : M N :=
  fun st =>
    let n := (imgNum st + 1)%N in
    Ok (n, State n (tblNum st) (footNoteNum st) (collectedFootnotes st)).

Definition floatClass (imgNum : N) : jsstring :=
  if negb (imgNum mod 2 =? 0)%N then lit "float-right" else lit "float-left".

(** The alt text with every double quote written [&quot;], or the empty
    string when [child.alt] is falsy. *)
Definition altText (child : node) : jsstring :=
  if truthy (alt child)
  then replace (RChar 34%N) (lit "&quot;") (or_empty (alt child))
  else [].

(** The address of the image, moved under [/attachments/] when it has an
    [attachments/] segment. *)
Definition imageUrl (u : jsstring) : jsstring :=
  match indexOf (lit "attachments/") u with
  | Some attachmentsIndex =>
    lit "/attachments/"
      ++ substring (attachmentsIndex + length (lit "attachments/")) u
  | None => u
  end.

Definition figureHtml (floatClass imageUrl altText chineseNum : jsstring)
    (alt : jsopt) : jsstring :=
  nl ++ litq "<figure class=`image-wrap " ++ floatClass ++ litq "`>" ++ nl
  ++ litq "  <img src=`" ++ imageUrl ++ litq "` alt=`" ++ altText
  ++ litq "`>" ++ nl
  ++ lit "  <figcaption>" ++ nl
  ++ litq "    <a href=`#img_forward_link_图" ++ chineseNum
  ++ litq "` id=`img_backward_link_图" ++ chineseNum ++ litq "`>图"
  ++ chineseNum ++ lit "</a>：" ++ interp alt ++ nl
  ++ lit "  </figcaption>" ++ nl
  ++ lit "</figure>".

Fixpoint imgRegex_children (cs : list node) : M (list node) :=
  match cs with
  | [] => ret []
  | child :: cs' =>
    if negb (is_type "image" child) then
      out <- imgRegex_children cs' ;; ret (child :: out)
    else
      imgNum <- incr_imgNum ;;
      chineseNum <- lift (numberToChinese (of_N imgNum)) ;;
      u <- lift (match url child with
                 | Some u => Ok u
                 | None => Throw TypeError
                 end) ;;
      let figure :=
        html (figureHtml (floatClass imgNum) (imageUrl u) (altText child)
                         chineseNum (alt child)) in
      out <- imgRegex_children cs' ;; ret (figure :: out)
  end.

Definition imgRegex (n : node) : M (list node) :=
  cs <- lift (iter_children n) ;; imgRegex_children cs.

(* ================================================================== *)
(** * Table Numbering: [tblRegex] *)
(* ================================================================== *)

(** [tblRegex.tblNum = tblRegex.tblNum + 1] *)
Definition incr_tblNum : M N :=
  fun st =>
    let n := (tblNum st + 1)%N in
    Ok (n, State (imgNum st) n (footNoteNum st) (collectedFootnotes st)).

Definition tblCaptionHtml (chineseNum currentTblTitle : jsstring) : jsstring :=
  litq "<p class=`tbl_title`><a href=`#tbl_forward_link_表" ++ chineseNum
  ++ litq "` id=`tbl_backward_link_表" ++ chineseNum ++ litq "`>表"
  ++ chineseNum ++ lit "</a>：" ++ currentTblTitle ++ lit "</p>".

(** The caption pushed when a table ends. *)
Definition tblCaption (currentTblTitle : jsstring) : M node :=
  tblNum <- incr_tblNum ;;
  chineseNum <- lift (numberToChinese (of_N tblNum)) ;;
  ret (html (tblCaptionHtml chineseNum currentTblTitle)).

(** The first row of a table read for its title: the title found, if the
    first cell has a first child, and the row with that child's value set
    to the empty string. *)
Definition take_title (row : node) : option (option jsstring * node) :=
  match children row with
  | Some (firstCell :: cells) =>
    match children firstCell with
    | Some (c0 :: cs0) =>
      let firstCell' :=
        set_children firstCell (Some (set_value c0 (Some []) :: cs0)) in
      Some (Some (or_empty (value c0)),
            set_children row (Some (firstCell' :: cells)))
    | _ => Some (None, row)
    end
  | _ => None
  end.

Fixpoint tblRegex_children (isInTbl isFirstRow : bool)
    (currentTblTitle : jsstring) (cs : list node) : M (list node) :=
  match cs with
  | [] =>
    if isInTbl then cap <- tblCaption currentTblTitle ;; ret [cap]
    else ret []
  | child :: cs' =>
    if negb (is_type "tableRow" child) then
      if isInTbl then
        cap <- tblCaption currentTblTitle ;;
        out <- tblRegex_children false isFirstRow currentTblTitle cs' ;;
        ret (cap :: child :: out)
      else
        out <- tblRegex_children isInTbl isFirstRow currentTblTitle cs' ;;
        ret (child :: out)
    else
      match (if isFirstRow then take_title child else None) with
      | Some (title, child') =>
        let currentTblTitle' :=
          match title with
          | Some t => t
          | None => currentTblTitle
          end in
        out <- tblRegex_children true false currentTblTitle' cs' ;;
        ret (child' :: out)
      | None =>
        out <- tblRegex_children true isFirstRow currentTblTitle cs' ;;
        ret (child :: out)
      end
  end.

Definition tblRegex (n : node) : M (list node) :=
  cs <- lift (iter_children n) ;; tblRegex_children false true [] cs.

(* ================================================================== *)
(** * The Footnote Collector: [footnoteRegex] *)
(* ================================================================== *)

(** [/(\[\^(?!表|图)([^\]]*?)\])/g] *)
Definition footnoteCaptureRegex : re :=
  RGroup 1 (RCat [RLit (lit "[^");
                  RNotAhead (RAlt (RChar (chr "表")) (RChar (chr "图")));
                  RGroup 2 (RStar false (CNot (COne (chr "]"))));
                  RChar (chr "]")]).

(** [footnoteRegex.footNoteNum++] followed by
    [collectedFootnotes.push({ num, content })]. *)
Definition collect_footnote (footnoteContent : jsopt) : M N :=
  fun st =>
    let n := (footNoteNum st + 1)%N in
    Ok (n, State (imgNum st) (tblNum st) n
                 (collectedFootnotes st ++ [Footnote n footnoteContent])).

Definition footnoteReference (footnoteNum : N) : jsstring :=
  litq "<a class=`comment_forward_link` href=`#comment_backward_link_"
  ++ dec footnoteNum ++ litq "` id=`comment_forward_link_" ++ dec footnoteNum
  ++ litq "`>[" ++ dec footnoteNum ++ lit "]</a>".

(** The loop over [parts], from index [i] on. *)
Fixpoint footnote_parts (i : nat) (parts : list jsopt) : M (list node) :=
  match parts with
  | [] => ret []
  | part :: parts' =>
    if negb (truthy part) then footnote_parts (S i) parts'
    else if Nat.eqb (i mod 3) 0 then
      out <- footnote_parts (S i) parts' ;;
      ret (text (or_empty part) :: out)
    else if Nat.eqb (i mod 3) 1 then
      match parts' with
      | footnoteContent :: parts'' =>
        footnoteNum <- collect_footnote footnoteContent ;;
        out <- footnote_parts (S (S i)) parts'' ;;
        ret (html (footnoteReference footnoteNum) :: out)
      | [] =>
        footnoteNum <- collect_footnote None ;;
        ret [html (footnoteReference footnoteNum)]
      end
    else footnote_parts (S i) parts'
  end.

Fixpoint footnoteRegex_children (cs : list node) : M (list node) :=
  match cs with
  | [] => ret []
  | child :: cs' =>
    if negb (is_type "text" child) && negb (is_type "html" child) then
      out <- footnoteRegex_children cs' ;; ret (child :: out)
    else
      let parts := split footnoteCaptureRegex (or_empty (value child)) in
      if Nat.eqb (length parts) 1 then
        out <- footnoteRegex_children cs' ;; ret (child :: out)
      else
        new <- footnote_parts 0 parts ;;
        out <- footnoteRegex_children cs' ;;
        ret (new ++ out)
  end.

Definition footnoteRegex (n : node) : M (list node) :=
  cs <- lift (iter_children n) ;; footnoteRegex_children cs.

(* ================================================================== *)
(** * The Inline Pattern Splicer: [transformCustomFootnotes] *)
(* ================================================================== *)

(** [s.endsWith('^[')] and [s.startsWith(']')] on a [value] that may be
    missing. *)
Definition value_endsWith (p : jsstring) (n : node) : res bool :=
  match value n with
  | Some v => Ok (endsWith p v)
  | None => Throw TypeError
  end.

Definition value_startsWith (p : jsstring) (n : node) : res bool :=
  match value n with
  | Some v => Ok (startsWith p v)
  | None => Throw TypeError
  end.

(** The three-node test of the loop.  On success: the text of the link's
    first child and the values of the two text nodes. *)
Definition custom_footnote (cs : list node)
    : res (option (jsstring * jsstring * jsstring)) :=
  match cs with
  | [] => Ok None
  | child1 :: rest1 =>
    if negb (is_type "text" child1) then Ok None
    else
      rbind (value_endsWith (lit "^[") child1) (fun e1 =>
      if negb e1 then Ok None
      else
        match rest1 with
        | child2 :: child3 :: _ =>
          if negb (is_type "link" child2) then Ok None
          else
            match children child2 with
            | Some (l0 :: _) =>
              if negb (is_type "text" child3) then Ok None
              else
                rbind (value_startsWith (lit "]") child3) (fun s3 =>
                if negb s3 then Ok None
                else Ok (Some (or_empty (value l0),
                               or_empty (value child1),
                               or_empty (value child3))))
            | _ => Ok None
            end
        | _ => Ok None
        end)
  end.

(** The [while (children.length > 0)] loop; every turn shortens the work
    list, so its length bounds the number of turns. *)
Fixpoint splice_loop (fuel : nat) (cs : list node) : res (list node) :=
  match cs with
  | [] => Ok []
  | child1 :: rest1 =>
    match fuel with
    | O => Throw OutOfFuel
    | S fuel' =>
      rbind (custom_footnote cs) (fun found =>
      match found with
      | Some (linkText, v1, v3) =>
        let spliced :=
          text (slice_drop_last 2 v1 ++ lit "[^" ++ linkText ++ lit "]") in
        let remainingText := slice_from 1 v3 in
        let remainingChildren := skipn 3 cs in
        let cs' := match remainingText with
                   | [] => remainingChildren
                   | _ => text remainingText :: remainingChildren
                   end in
        rbind (splice_loop fuel' cs') (fun out => Ok (spliced :: out))
      | None =>
        rbind (splice_loop fuel' rest1) (fun out => Ok (child1 :: out))
      end)
    end
  end.

(** [lastNode.value += currentNode.value].  Both operands are strings
    here: the loop above has called [endsWith] on the value of every text
    node it kept (lemma [splice_loop_text_values]). *)
Definition plus_assign (a b : jsopt) : jsopt := Some (interp a ++ interp b).

(** Merging of adjacent text nodes; [lastNode] is the last node of
    [mergedChildren]. *)
Fixpoint merge_from (lastNode : node) (newChildren : list node) : list node :=
  match newChildren with
  | [] => [lastNode]
  | currentNode :: newChildren' =>
    if is_type "text" lastNode && is_type "text" currentNode then
      merge_from (set_value lastNode
                            (plus_assign (value lastNode) (value currentNode)))
                 newChildren'
    else lastNode :: merge_from currentNode newChildren'
  end.

Definition merge_text (newChildren : list node) : list node :=
  match newChildren with
  | first :: (_ :: _) as others => merge_from first others
  | _ => newChildren
  end.

Definition transformCustomFootnotes_children (cs : list node)
    : res (list node) :=
  rbind (splice_loop (length cs) cs) (fun newChildren =>
  Ok (merge_text newChildren)).

Definition transformCustomFootnotes (n : node) : res (list node) :=
  rbind (iter_children n) transformCustomFootnotes_children.

(* ================================================================== *)
(** * The Pipeline Orchestrator: [markdownReplace] *)
(* ================================================================== *)

Definition cjk : cset := CRange (chr "一") (chr "龥").   (* [\u4e00-\u9fa5] *)

Definition alnum : cset :=                         (* [a-zA-Z0-9] *)
  CUnion (CRange (chr "a") (chr "z"))
         (CUnion (CRange (chr "A") (chr "Z")) (CRange (chr "0") (chr "9"))).

(** The patterns of the visitor, in the order it applies them. *)
Module Rx.

(** [/%20/g] *)
Definition space20 : re := RLit (lit "%20").

(** [/\[\[(#.*?)\|(.*?)\]\]/g] *)
Definition anchor_desc : re :=
  RCat [RLit (lit "[[");
        RGroup 1 (RSeq (RChar (chr "#")) (RStar false CDot));
        RChar (chr "|"); RGroup 2 (RStar false CDot); RLit (lit "]]")].

(** [/\[\[(#.*?)\]\]/g] *)
Definition anchor : re :=
  RCat [RLit (lit "[[");
        RGroup 1 (RSeq (RChar (chr "#")) (RStar false CDot));
        RLit (lit "]]")].

(** [/\[\[(?!#)(.*?)\|(.*?)\]\]/g] *)
Definition post_desc : re :=
  RCat [RLit (lit "[["); RNotAhead (RChar (chr "#"));
        RGroup 1 (RStar false CDot);
        RChar (chr "|"); RGroup 2 (RStar false CDot); RLit (lit "]]")].

(** [/\[\[(?!#)(.*?)\]\]/g] *)
Definition post : re :=
  RCat [RLit (lit "[["); RNotAhead (RChar (chr "#"));
        RGroup 1 (RStar false CDot); RLit (lit "]]")].

(** [/\[\^(图.*?)\]/g] *)
Definition img_ref : re :=
  RCat [RLit (lit "[^");
        RGroup 1 (RSeq (RChar (chr "图")) (RStar false CDot));
        RChar (chr "]")].

(** [/\[\^(表.*?)\]/g] *)
Definition tbl_ref : re :=
  RCat [RLit (lit "[^");
        RGroup 1 (RSeq (RChar (chr "表")) (RStar false CDot));
        RChar (chr "]")].

(** [/「([^」]*?)」/g] *)
Definition corner : re :=
  RCat [RChar (chr "「");
        RGroup 1 (RStar false (CNot (COne (chr "」"))));
        RChar (chr "」")].

(** [/([\u4e00-\u9fa5])([a-zA-Z0-9])/g] *)
Definition cjk_latin : re :=
  RSeq (RGroup 1 (RSet cjk)) (RGroup 2 (RSet alnum)).

(** [/([a-zA-Z0-9])([\u4e00-\u9fa5])/g] *)
Definition latin_cjk : re :=
  RSeq (RGroup 1 (RSet alnum)) (RGroup 2 (RSet cjk)).

(** [/(\u4e00-\u9fa5)\s+([\u4e00-\u9fa5])/g]: the first group is the
    three literal characters U+4E00, hyphen, U+9FA5. *)
Definition punct : re :=
  RCat [RGroup 1 (RLit (lit "一-龥"));
        RPlus CSpace; RGroup 2 (RSet cjk)].

(** [/(『\s*|\s*』)/g] *)
Definition hidden_quote : re :=
  RGroup 1 (RAlt (RSeq (RChar (chr "『")) (RStar true CSpace))
                 (RSeq (RStar true CSpace) (RChar (chr "』")))).

(** The pattern [—(——X)] with the [g] flag, where [X] is a greedy [.*]. *)
Definition attribution : re :=
  RSeq (RChar (chr "—"))
       (RGroup 1 (RSeq (RLit (lit "——")) (RStar true CDot))).

(** The pattern [^\.Name{(X)}] with the [g] flag, where [X] is a greedy
    [.*], for [Name] among [Right], [Center], [Left], [right], [center],
    [left]. *)
Definition directive (name : string) : re :=
  RCat [RBol; RLit (lit "."); RLit (lit name); RChar (chr "{");
        RGroup 1 (RStar true CDot); RChar (chr "}")].

End Rx.

(** The first loop of the visitor: [%20] read as a space in the text and
    raw-markup children that have a value. *)
Definition decode_spaces (child : node) : node :=
  if (is_type "text" child || is_type "html" child) && truthy (value child)
  then set_value child
         (Some (replace Rx.space20 (lit " ") (or_empty (value child))))
  else child.

(** [node.children = regex(node, rx, template)] on the list of children. *)
Definition rx_pass (rx : re) (template : jsstring) (cs : list node)
    : M (list node) :=
  lift (regex_children rx template cs).

(** The passes of the visitor on the children of one visited node. *)
Definition visitor_children (cs : list node) : M (list node) :=
  let cs := map decode_spaces cs in
  cs <- lift (transformCustomFootnotes_children cs) ;;
  cs <- rx_pass Rx.anchor_desc (litq "<a href=`$1`>$2</a>") cs ;;
  cs <- rx_pass Rx.anchor (litq "<a href=`$1`>$1</a>") cs ;;
  cs <- rx_pass Rx.post_desc (litq "<a href=`/post/$1`>$2</a>") cs ;;
  cs <- rx_pass Rx.post (litq "<a href=`/post/$1`>$1</a>") cs ;;
  cs <- footnoteRegex_children cs ;;
  cs <- imgRegex_children cs ;;
  cs <- rx_pass Rx.img_ref
          (litq "<a href=`#img_backward_link_$1` id=`img_forward_link_$1`>$1</a>")
          cs ;;
  cs <- tblRegex_children false true [] cs ;;
  cs <- rx_pass Rx.tbl_ref
          (litq "<a href=`#tbl_backward_link_$1` id=`tbl_forward_link_$1`>$1</a>")
          cs ;;
  cs <- rx_pass Rx.corner (lit "「<em>$1</em>」") cs ;;
  cs <- rx_pass Rx.cjk_latin (lit "$1 $2") cs ;;
  cs <- rx_pass Rx.latin_cjk (lit "$1 $2") cs ;;
  cs <- rx_pass Rx.punct (lit "$1$2") cs ;;
  cs <- rx_pass Rx.punct (lit "$1$2") cs ;;
  cs <- rx_pass Rx.punct (lit "$1$2") cs ;;
  cs <- rx_pass Rx.hidden_quote (litq "<span style=`display: none;`>$1</span>") cs ;;
  cs <- rx_pass Rx.attribution
          (litq "<p style=`text-align: right; text-indent: 0; padding: 0 2px 0 0;`>$1</p>")
          cs ;;
  cs <- rx_pass (Rx.directive "Right")
          (litq " <p style=`text-align: right;  text-indent: 0;`>$1</p>") cs ;;
  cs <- rx_pass (Rx.directive "Center")
          (litq "<p style=`text-align: center; text-indent: 0;`>$1</p>") cs ;;
  cs <- rx_pass (Rx.directive "Left")
          (litq "  <p style=`text-align: left;   text-indent: 0;`>$1</p>") cs ;;
  cs <- rx_pass (Rx.directive "right")
          (litq " <p style=`font-style: italic; text-align: right;  text-indent: 0;`>$1</p>")
          cs ;;
  cs <- rx_pass (Rx.directive "center")
          (litq "<p style=`font-style: italic; text-align: center; text-indent: 0;`>$1</p>")
          cs ;;
  rx_pass (Rx.directive "left")
          (litq "  <p style=`font-style: italic; text-align: left;   text-indent: 0;`>$1</p>")
          cs.

(** The function given to [visit]. *)
Definition visitor (n : node) : M node :=
  match children n with
  | None => ret n
  | Some cs =>
    cs' <- visitor_children cs ;; ret (set_children n (Some cs'))
  end.

(** [visit(tree, ['paragraph', 'table', 'tableCell'], visitor)] of
    unist-util-visit: a preorder walk that calls the visitor on every node
    whose type is listed and then descends into the children the node has
    after the call.  [fuel] bounds the depth of the walk. *)
Definition is_visited (n : node) : bool :=
  is_type "paragraph" n || is_type "table" n || is_type "tableCell" n.

Fixpoint visit (fuel : nat) (n : node) : M node :=
  match fuel with
  | O => lift (Throw OutOfFuel)
  | S fuel' =>
    n1 <- (if is_visited n then visitor n else ret n) ;;
    match children n1 with
    | None => ret n1
    | Some cs =>
      cs' <- mapM (visit fuel') cs ;; ret (set_children n1 (Some cs'))
    end
  end.

(** The number of levels of a tree. *)
Fixpoint height (n : node) : nat :=
  match n with
  | Node _ _ _ _ None => 1
  | Node _ _ _ _ (Some cs) => S (fold_right Nat.max 0 (map height cs))
  end.

(** [xs[i] = f(xs[i])] *)
Fixpoint update_nth {A} (i : nat) (f : A -> A) (xs : list A) : list A :=
  match xs, i with
  | [], _ => []
  | x :: xs', O => f x :: xs'
  | x :: xs', S i' => x :: update_nth i' f xs'
  end.

(** The search [for (let i = k - 1; i >= 0; i--)] for the last paragraph
    that has children. *)
Definition has_content (n : node) : bool :=
  is_type "paragraph" n &&
  match children n with
  | Some (_ :: _) => true
  | _ => false
  end.

Fixpoint lastParagraph (k : nat) (cs : list node) : option nat :=
  match k with
  | O => None
  | S i =>
    match nth_error cs i with
    | Some n => if has_content n then Some i else lastParagraph i cs
    | None => None
    end
  end.

(** [lastNodeInParagraph.value += '¶'] when that node is a text or
    raw-markup node with a string value. *)
Definition add_pilcrow (lastNodeInParagraph : node) : node :=
  if is_type "text" lastNodeInParagraph || is_type "html" lastNodeInParagraph
  then match value lastNodeInParagraph with
       | Some v => set_value lastNodeInParagraph (Some (v ++ lit "¶"))
       | None => lastNodeInParagraph
       end
  else lastNodeInParagraph.

Definition mark_paragraph (lastParagraph : node) : node :=
  match children lastParagraph with
  | Some cs =>
    set_children lastParagraph
                 (Some (update_nth (length cs - 1) add_pilcrow cs))
  | None => lastParagraph
  end.

(** The trailing-mark step on the children of the root. *)
Definition trailing_mark (cs : list node) : list node :=
  match lastParagraph (length cs) cs with
  | Some i => update_nth i mark_paragraph cs
  | None => cs
  end.

Definition footnoteSeparator : node :=
  html (lit "<hr style='margin: 1.5em 0 1.5em 0;' class='footnote-separator'>").

Definition footnoteBlock (f : footnote) : node :=
  html (litq "<table class=`comment`><tr class=`comment`><td class=`comment`><a href=`#comment_forward_link_"
        ++ dec (num f) ++ litq "` id=`comment_backward_link_" ++ dec (num f)
        ++ litq "`>[" ++ dec (num f)
        ++ litq "]</a></td><td class=`comment`>" ++ interp (content f)
        ++ lit "</td></tr></table>").

(** The nodes pushed on the root after the walk. *)
Definition footnoteSection (fs : list footnote) : list node :=
  match fs with
  | [] => []
  | _ => footnoteSeparator :: map footnoteBlock fs
  end.

(** The two finishing steps, on the tree the walk produced and the
    footnotes it collected. *)
Definition finalize (tree : node) (fs : list footnote) : res node :=
  match children tree with
  | None => Throw TypeError
  | Some cs =>
    Ok (set_children tree (Some (trailing_mark cs ++ footnoteSection fs)))
  end.

(** The transformer: the result tree together with the final state of the
    counters and the footnote store. *)
Definition markdownReplace_run (tree : node) : res (node * state) :=
  match visit (height tree) tree initial_state with
  | Ok (tree', st) =>
    rbind (finalize tree' (collectedFootnotes st)) (fun t => Ok (t, st))
  | Throw e => Throw e
  end.

Definition markdownReplace (tree : node) : res node :=
  rbind (markdownReplace_run tree) (fun r => Ok (fst r)).

(* ================================================================== *)
(** * Specification-side definitions *)
(* ================================================================== *)

(** [num] is the integer [n]. *)
Definition denotes (num : number) (n : Z) : Prop :=
  match num with
  | Finite q => Qeq q (inject_Z n)
  | _ => False
  end.

(** The nine basic numerals. *)
Definition basic_numeral (d : Z) : jsstring :=
  match d with
  | 1 => lit "一" | 2 => lit "二" | 3 => lit "三"
  | 4 => lit "四" | 5 => lit "五" | 6 => lit "六"
  | 7 => lit "七" | 8 => lit "八" | 9 => lit "九"
  | _ => []
  end%Z.

(** The numeral of [n] as the specification words it: the tens digit (bare
    ten for 1, digit and ten from 2 on, nothing below ten) and then the
    ones digit unless it is zero. *)
Definition ordinal_spec (n : Z) : jsstring :=
  let tens := (n / 10)%Z in
  let ones := (n mod 10)%Z in
  (if (tens =? 0)%Z then []
   else if (tens =? 1)%Z then lit "十"
   else basic_numeral tens ++ lit "十")
  ++ (if (ones =? 0)%Z then [] else basic_numeral ones).

(** The integers from 1 to 99, and the check that the formatter agrees
    with [ordinal_spec] on one of them. *)
Definition domain : list Z := map Z.of_nat (seq 1 99).

Definition agrees (n : Z) : bool :=
  match numberToChinese (of_Z n) with
  | Ok s => str_eqb s (ordinal_spec n) && negb (str_eqb s [])
  | Throw _ => false
  end.

(** The number of image nodes of a sibling list. *)
Definition count_images (cs : list node) : N :=
  N.of_nat (length (filter (is_type "image") cs)).

(** The state with the image counter set. *)
Definition with_imgNum (st : state) (n : N) : state :=
  State n (tblNum st) (footNoteNum st) (collectedFootnotes st).



(** Builders for the nodes of the example documents. *)
Definition container (t : string) (cs : list node) : node :=
  Node t None None None (Some cs).
Definition root := container "root".
Definition paragraph := container "paragraph".
Definition table := container "table".
Definition tableRow := container "tableRow".
Definition tableCell := container "tableCell".
Definition blockquote := container "blockquote".
Definition link (u : jsstring) (cs : list node) : node :=
  Node "link" None (Some u) None (Some cs).
Definition image (u : jsstring) (a : jsopt) : node :=
  Node "image" None (Some u) a None.


(** A top-level paragraph followed by a quote-block that holds a paragraph
    of its own. *)
Definition nested_paragraph : node :=
  root [paragraph [text (lit "a")];
        blockquote [paragraph [text (lit "b")]]].

(** The splicing loop run with the bound it needs. *)
Definition splice (cs : list node) : res (list node) :=
  splice_loop (length cs) cs.

(** No two neighbours of the list are both text nodes. *)
Fixpoint no_adjacent_text (l : list node) : Prop :=
  match l with
  | a :: (b :: _) as l' =>
    (is_type "text" a && is_type "text" b = false) /\ no_adjacent_text l'
  | _ => True
  end.

(** The text before the first [c] and the text after it. *)
Fixpoint take_until (c : char16) (s : jsstring) : option (jsstring * jsstring) :=
  match s with
  | [] => None
  | d :: s' =>
    if (d =? c)%N then Some ([], s')
    else match take_until c s' with
         | Some (pre, post) => Some (d :: pre, post)
         | None => None
         end
  end.

(** The content begins with one of the two characters reserved for figure
    and table references. *)
Definition reserved (s : jsstring) : bool :=
  startsWith (lit "表") s || startsWith (lit "图") s.

(** A footnote marker at the start of [s]: an open bracket and a caret, a
    content that is not reserved and runs to the first close bracket.  The
    result is the content and the text after the marker. *)
Definition marker_at (s : jsstring) : option (jsstring * jsstring) :=
  match s with
  | a :: b :: s2 =>
    if (a =? chr "[")%N && (b =? chr "^")%N && negb (reserved s2)
    then take_until (chr "]") s2
    else None
  | _ => None
  end.

(** The contents of the markers of a text, from left to right; [skip]
    counts the units of the last marker still to pass. *)
Fixpoint markers_from (skip : nat) (s : jsstring) : list jsstring :=
  match skip with
  | S n =>
    match s with
    | [] => []
    | _ :: s' => markers_from n s'
    end
  | O =>
    match s with
    | [] => []
    | _ :: s' =>
      match marker_at s with
      | Some (c, _) => c :: markers_from (2 + length c) s'
      | None => markers_from 0 s'
      end
    end
  end.

Definition markers (v : jsstring) : list jsstring := markers_from 0 v.

(** The markers a sibling offers to the Footnote Collector. *)
Definition child_markers (c : node) : list jsstring :=
  if is_type "text" c || is_type "html" c
  then markers (or_empty (value c))
  else [].

(** The entries of the contents [ms], numbered from [n + 1] on. *)
Fixpoint numbered (n : N) (ms : list jsstring) : list footnote :=
  match ms with
  | [] => []
  | m :: ms' => Footnote (n + 1) (Some m) :: numbered (n + 1) ms'
  end.

(** The state after the footnotes [ms] have been collected. *)
Definition add_footnotes (st : state) (ms : list jsstring) : state :=
  State (imgNum st) (tblNum st)
        (footNoteNum st + N.of_nat (length ms))
        (collectedFootnotes st ++ numbered (footNoteNum st) ms).

(** The footnote store and counter of [st'] are those of [st] with some
    markers added at the end. *)
Definition extends (st st' : state) : Prop :=
  exists ms,
    footNoteNum st' = (footNoteNum st + N.of_nat (length ms))%N /\
    collectedFootnotes st' = collectedFootnotes st ++ numbered (footNoteNum st) ms.

(** The node is not an image. *)
Definition not_image (n : node) : Prop := is_type "image" n = false.

(** No node of the tree that the walk visits has an image among its
    children. *)
Fixpoint image_free (n : node) : Prop :=
  match n with
  | Node t _ _ _ (Some cs) =>
    (is_visited n = true -> Forall not_image cs) /\
    (fix all (l : list node) : Prop :=
       match l with
       | [] => True
       | c :: l' => image_free c /\ all l'
       end) cs
  | Node _ _ _ _ None => True
  end.


(** A paragraph with two markers, and a document whose markers are spread
    over a paragraph, a table cell and a second paragraph. *)
Definition two_markers : node :=
  root [paragraph [text (lit "x[^a] then [^b].")]].

Definition spread_markers : node :=
  root [paragraph [text (lit "p[^one]")];
        table [tableRow [tableCell [text (lit "T")];
                         tableCell [text (lit "c[^two][^图1]")]]];
        paragraph [text (lit "[^three]")]].

(** What the Pattern Rewriter makes of one text or raw-markup node with
    the string value [v]. *)
Definition rewritten (rx : re) (template : jsstring) (c : node)
    (v : jsstring) : node :=
  if str_eqb (replace rx template v) v
  then (if is_type "html" c then c else text v)
  else html (replace rx template v).

(** The state with the table counter set. *)
Definition with_tblNum (st : state) (n : N) : state :=
  State (imgNum st) n (footNoteNum st) (collectedFootnotes st).

(** Two runs in a row, each from fresh counters and an empty footnote
    store: the tree and the final state of the first run, and those of the
    second run on the tree of the first. *)
Definition rerun (tree : node) : res ((node * state) * (node * state)) :=
  match markdownReplace_run tree with
  | Ok (t1, st1) =>
    match markdownReplace_run t1 with
    | Ok r2 => Ok ((t1, st1), r2)
    | Throw e => Throw e
    end
  | Throw e => Throw e
  end.

(** The number of nodes of a tree that satisfy [p]. *)
Fixpoint count_nodes (p : node -> bool) (n : node) : nat :=
  (if p n then 1 else 0) +
  match n with
  | Node _ _ _ _ (Some cs) => list_sum (map (count_nodes p) cs)
  | Node _ _ _ _ None => 0
  end.

(** Raw markup that opens like a figure block, a table caption, or a
    footnote reference. *)
Definition opens_with (p : jsstring) (n : node) : bool :=
  is_type "html" n && startsWith p (or_empty (value n)).

Definition is_figure_block : node -> bool :=
  opens_with (nl ++ litq "<figure class=`image-wrap ").
Definition is_table_caption : node -> bool :=
  opens_with (litq "<p class=`tbl_title`>").
Definition is_footnote_reference : node -> bool :=
  opens_with (litq "<a class=`comment_forward_link`").

(** The second run matches nothing anew and leaves the numbers of figure
    blocks, table captions and footnote references of the document as the
    first run made them. *)
Definition rerun_stable (tree : node) : Prop :=
  forall t1 st1 t2 st2,
    rerun tree = Ok ((t1, st1), (t2, st2)) ->
    (imgNum st2 = 0 /\ tblNum st2 = 0 /\ footNoteNum st2 = 0)%N /\
    count_nodes is_figure_block t2 = count_nodes is_figure_block t1 /\
    count_nodes is_table_caption t2 = count_nodes is_table_caption t1 /\
    count_nodes is_footnote_reference t2
    = count_nodes is_footnote_reference t1.

(** A figure whose alt text holds a footnote marker, and a table. *)
Definition rerun_document : node :=
  root [paragraph [image (lit "a.png") (Some (lit "see [^n]"))];
        table [tableRow [tableCell [text (lit "T")]]]].

(** One figure. *)
Definition one_figure : node :=
  root [paragraph [image (lit "a.png") (Some (lit "x"))]].



(* ================================================================== *)
(** * Slugs: [slugify] *)
(* ================================================================== *)

(** [[a-z0-9_]] *)
Definition slug_unit : cset :=
  CUnion (CRange (chr "a") (chr "z"))
         (CUnion (CRange (chr "0") (chr "9")) (COne (chr "_"))).

(** The pattern of one or more units outside [slug_unit], with the [g]
    flag. *)
Definition unslug_run : re := RPlus (CNot slug_unit).

(** Any code unit, line terminators included. *)
Definition any_unit : cset := CUnion CDot (CNot CDot).

(** The pattern of an underscore at the start or an underscore at the end
    of the input, with the [g] flag.  The end of the input is the place
    where no unit follows. *)
Definition edge_underscore : re :=
  RAlt (RSeq RBol (RChar (chr "_")))
       (RSeq (RChar (chr "_")) (RNotAhead (RSet any_unit))).

Section Slugify.

(** [pinyin(text, { toneType: 'none', separator: '_', v: true,
    nonZh: 'consecutive' })] of the library pinyin-pro, and the built-in
    [String.prototype.toLowerCase]. *)
Variable pinyin : jsstring -> jsstring.
Variable toLowerCase : jsstring -> jsstring.

Definition slugify (text : jsstring) : jsstring :=
  match text with
  | [] => []
  | _ =>
    let pinyinResult := pinyin text in
    replace edge_underscore []
            (replace unslug_run (lit "_") (toLowerCase pinyinResult))
  end.

End Slugify.

(** The feed of [pages/rss.xml.ts]: the part of a post module that [GET]
    reads, and the items it hands to the feed library. *)
Module Rss.

Record frontmatter : Type := Frontmatter {
  title : jsopt;
  added : jsopt;
  description : jsopt;
  hidden : bool          (* whether [frontmatter.hidden] is truthy *)
}.

Record item : Type := Item {
  item_title : jsopt;
  pubDate : jsopt;
  item_description : jsopt;
  link : jsstring
}.

(** The [items] of the feed.  A missing title is falsy, as the empty
    string is, so that [slugify] returns the empty string for it. *)
Definition items (pinyin toLowerCase : jsstring -> jsstring)
    (posts : list frontmatter) : list item :=
  let visiblePosts := filter (fun post => negb (hidden post)) posts in
  map (fun post =>
         Item (title post) (added post) (description post)
              (lit "/post/"
               ++ slugify pinyin toLowerCase (or_empty (title post))
               ++ lit "/"))
      visiblePosts.

End Rss.

(** A unit of [a] in group 1 followed by a unit of [b] in group 2: the
    shape of the two spacing patterns of the visitor. *)
Definition unit_pair (a b : cset) : re :=
  RSeq (RGroup 1 (RSet a)) (RGroup 2 (RSet b)).

(** Some unit of [a] is directly followed by a unit of [b]. *)
Fixpoint adjacent (a b : cset) (s : jsstring) : bool :=
  match s with
  | c :: s' =>
    match s' with
    | d :: _ => (cset_mem a c && cset_mem b d) || adjacent a b s'
    | [] => false
    end
  | [] => false
  end.

(** No node of the tree is one the walk visits. *)
Fixpoint unvisited (n : node) : Prop :=
  match n with
  | Node _ _ _ _ cs =>
    is_visited n = false /\
    match cs with
    | Some l =>
      (fix all (l : list node) : Prop :=
         match l with
         | [] => True
         | c :: l' => unvisited c /\ all l'
         end) l
    | None => True
    end
  end.

(** A document whose blocks are a heading and a list, with patterns the
    visitor would rewrite in a paragraph. *)
Definition headings_only : node :=
  root [container "heading" [text (lit "[[page]] and [^note]")];
        container "list"
          [container "listItem" [image (lit "attachments/a.png") None]]].

(** A node the Pattern Rewriter reads the value of. *)
Definition candidate (n : node) : bool :=
  is_type "text" n || is_type "html" n || is_type "blockquote" n.

(** A node the passes can read: a candidate has a value, an image has an
    address. *)
Definition passable (n : node) : Prop :=
  (candidate n = true -> value n <> None) /\
  (is_type "image" n = true -> url n <> None).

(** Every node that the walk visits has only passable children.  A tree a
    markdown parser builds is of this kind: its text and raw-markup nodes
    have a value, its images have an address, and its quote-blocks are not
    children of a paragraph, a table or a table cell. *)
Fixpoint well_formed (n : node) : Prop :=
  match n with
  | Node _ _ _ _ (Some cs) =>
    (is_visited n = true -> Forall passable cs) /\
    (fix all (l : list node) : Prop :=
       match l with
       | [] => True
       | c :: l' => well_formed c /\ all l'
       end) cs
  | Node _ _ _ _ None => True
  end.

(** A paragraph with one image more than the Ordinal Formatter can
    number. *)
Definition hundred_images : node :=
  root [paragraph (repeat (image (lit "a.png") None) 100)].

(** The units of the target of a wiki link that is read to its closing
    brackets: no line terminator and no closing bracket. *)
Definition target_unit (c : char16) : Prop :=
  is_line_terminator c = false /\ c <> chr "]".








(** The shape of the two reference patterns of the visitor: an opening
    bracket and a caret, then in group 1 the character [lead] and a lazy
    run of units, then a closing bracket. *)
Definition reference (lead : char16) : re :=
  RCat [RLit (lit "[^");
        RGroup 1 (RSeq (RChar lead) (RStar false CDot));
        RChar (chr "]")].

(* ================================================================== *)
(** * The Ordinal Formatter *)
(* ================================================================== *)

Section OrdinalFormatter.

Lemma denotes_isInteger num n : denotes num n -> isInteger num = true.
Proof.
  destruct num as [[a b]| |]; simpl; try contradiction.
  unfold Qeq; simpl. intros H.
  rewrite Z.mul_1_r in H. subst a.
  rewrite Z.mod_mul by discriminate. reflexivity.
Qed.

Lemma denotes_int_value num n : denotes num n -> int_value num = n.
Proof.
  destruct num as [[a b]| |]; simpl; try contradiction.
  unfold Qeq; simpl. intros H.
  rewrite Z.mul_1_r in H. subst a.
  apply Z.div_mul. discriminate.
Qed.

Lemma denotes_num_lt num n k :
  denotes num n -> num_lt num k = (n <? k)%Z.
Proof.
  destruct num as [q| |]; simpl; try contradiction.
  intros H.
  destruct (Qle_bool (inject_Z k) q) eqn:E; simpl; symmetry.
  - apply Qle_bool_iff in E. rewrite H in E. rewrite <- Zle_Qle in E.
    apply Z.ltb_ge. exact E.
  - apply Z.ltb_lt. apply Z.lt_nge. intros L.
    rewrite Zle_Qle in L. rewrite <- H in L.
    apply Qle_bool_iff in L. congruence.
Qed.

Lemma denotes_num_gt num n k :
  denotes num n -> num_gt num k = (k <? n)%Z.
Proof.
  destruct num as [q| |]; simpl; try contradiction.
  intros H.
  destruct (Qle_bool q (inject_Z k)) eqn:E; simpl; symmetry.
  - apply Qle_bool_iff in E. rewrite H in E. rewrite <- Zle_Qle in E.
    apply Z.ltb_ge. exact E.
  - apply Z.ltb_lt. apply Z.lt_nge. intros L.
    rewrite Zle_Qle in L. rewrite <- H in L.
    apply Qle_bool_iff in L. congruence.
Qed.

Lemma isInteger_denotes num :
  isInteger num = true -> denotes num (int_value num).
Proof.
  destruct num as [[a b]| |]; simpl; try discriminate.
  intros H. apply Z.eqb_eq in H.
  unfold Qeq; simpl. rewrite Z.mul_1_r.
  rewrite Z.mul_comm. apply Z.div_exact; [discriminate | exact H].
Qed.

Lemma of_Z_denotes n : denotes (of_Z n) n.
Proof. simpl. reflexivity. Qed.

Lemma of_N_denotes n : denotes (of_N n) (Z.of_N n).
Proof. simpl. reflexivity. Qed.

Lemma domain_complete n : (1 <= n <= 99)%Z -> In n domain.
Proof.
  intros H. unfold domain. apply in_map_iff.
  exists (Z.to_nat n). split; [lia |].
  apply in_seq. lia.
Qed.

Lemma str_eqb_eq a b : str_eqb a b = true <-> a = b.
Proof.
  revert b. induction a as [|x a IH]; intros [|y b]; simpl;
    try (split; [discriminate | congruence]).
  - split; reflexivity.
  - rewrite andb_true_iff, N.eqb_eq, IH. split.
    + intros [-> ->]. reflexivity.
    + intros E. inversion E. auto.
Qed.

Lemma agrees_on_domain : forallb agrees domain = true.
Proof. vm_compute. reflexivity. Qed.

Lemma numberToChinese_denotes num n :
  denotes num n -> numberToChinese num = numberToChinese (of_Z n).
Proof.
  intros H. unfold numberToChinese.
  rewrite (denotes_isInteger _ _ H), (denotes_num_lt _ _ 1 H),
    (denotes_num_gt _ _ 99 H), (denotes_int_value _ _ H).
  pose proof (of_Z_denotes n) as H0.
  rewrite (denotes_isInteger _ _ H0), (denotes_num_lt _ _ 1 H0),
    (denotes_num_gt _ _ 99 H0), (denotes_int_value _ _ H0).
  reflexivity.
Qed.

Lemma numberToChinese_in_range num n :
  denotes num n -> (1 <= n <= 99)%Z ->
  numberToChinese num = Ok (ordinal_spec n) /\ ordinal_spec n <> [].
Proof.
  intros H R. rewrite (numberToChinese_denotes _ _ H).
  pose proof agrees_on_domain as A.
  rewrite forallb_forall in A. specialize (A n (domain_complete n R)).
  unfold agrees in A.
  destruct (numberToChinese (of_Z n)) as [s|e]; [| discriminate].
  apply andb_true_iff in A. destruct A as [A1 A2].
  apply str_eqb_eq in A1. subst s. split; [reflexivity |].
  intros E. rewrite E in A2. discriminate.
Qed.

Lemma numberToChinese_throws num :
  (forall n, denotes num n -> (n < 1 \/ 99 < n)%Z) ->
  numberToChinese num = Throw RangeExn.
Proof.
  intros H. unfold numberToChinese.
  destruct (isInteger num) eqn:I; simpl; [| reflexivity].
  pose proof (isInteger_denotes _ I) as D.
  rewrite (denotes_num_lt _ _ 1 D), (denotes_num_gt _ _ 99 D).
  destruct (H _ D) as [L | G].
  - apply Z.ltb_lt in L. rewrite L. reflexivity.
  - apply Z.ltb_lt in G. rewrite G. rewrite orb_true_r. reflexivity.
Qed.

End OrdinalFormatter.

(* ================================================================== *)
(** * The state and error monad *)
(* ================================================================== *)

Section MonadLaws.

Context {A B : Type}.

Lemma bind_ok (c : M A) (f : A -> M B) st a st' :
  c st = Ok (a, st') -> bind c f st = f a st'.
Proof. intros H. unfold bind. rewrite H. reflexivity. Qed.


Lemma bind_inv (c : M A) (f : A -> M B) st r :
  bind c f st = Ok r ->
  exists a st', c st = Ok (a, st') /\ f a st' = Ok r.
Proof.
  unfold bind. destruct (c st) as [[a st']|e]; [| discriminate].
  intros H. exists a, st'. split; [reflexivity | exact H].
Qed.

Lemma lift_inv (r : res A) st a st' :
  lift r st = Ok (a, st') -> r = Ok a /\ st' = st.
Proof.
  unfold lift. destruct r; [| discriminate].
  intros H. inversion H. split; reflexivity.
Qed.

Lemma rbind_inv (r : res A) (f : A -> res B) b :
  rbind r f = Ok b -> exists a, r = Ok a /\ f a = Ok b.
Proof.
  destruct r as [a|e]; simpl; [| discriminate].
  intros H. exists a. split; [reflexivity | exact H].
Qed.

End MonadLaws.

(** Splits a successful run of a monadic sequence into its steps. *)
Ltac run_inv H :=
  repeat match type of H with
  | bind _ _ _ = Ok _ =>
    let a := fresh "a" in let st := fresh "st" in
    let H1 := fresh "Hstep" in
    apply bind_inv in H; destruct H as (a & st & H1 & H)
  | ret _ _ = Ok _ => unfold ret in H; inversion H; subst; clear H
  end.

(* ================================================================== *)
(** * Strings *)
(* ================================================================== *)

Section Strings.

Lemma startsWith_app p s : startsWith p (p ++ s) = true.
Proof.
  induction p as [|x p IH]; simpl; [reflexivity |].
  rewrite N.eqb_refl. exact IH.
Qed.

Lemma startsWith_spec p s :
  startsWith p s = true <-> exists t, s = p ++ t.
Proof.
  revert s. induction p as [|x p IH]; intros s; simpl.
  - split; [intros _; exists s; reflexivity | reflexivity].
  - destruct s as [|y s].
    + split; [discriminate | intros [t E]; discriminate].
    + rewrite andb_true_iff, N.eqb_eq, IH. split.
      * intros [-> [t ->]]. exists t. reflexivity.
      * intros [t E]. inversion E. split; [reflexivity | exists t; reflexivity].
Qed.






End Strings.

(** C2. For every integer n with 1 <= n <= 99 the Ordinal Formatter returns
    a nonempty numeral: below ten the single basic numeral; from ten on, the
    bare ten for tens digit 1 and digit-then-ten for tens digit 2 and more,
    followed by the ones digit unless it is zero (1 gives 一, 10 gives 十,
    20 gives 二十, 99 gives 九十九).  For every input that is not an
    integer of that range (0, 100, a fraction, NaN, an infinity) it throws;
    the function is pure, so nothing else happens. *)
Theorem numberToChinese_contract :
  (forall num n, denotes num n -> (1 <= n <= 99)%Z ->
     numberToChinese num = Ok (ordinal_spec n) /\ ordinal_spec n <> []) /\
  (forall num, (forall n, denotes num n -> (n < 1 \/ 99 < n)%Z) ->
     numberToChinese num = Throw RangeExn) /\
  numberToChinese (of_Z 1) = Ok (lit "一") /\
  numberToChinese (of_Z 10) = Ok (lit "十") /\
  numberToChinese (of_Z 20) = Ok (lit "二十") /\
  numberToChinese (of_Z 99) = Ok (lit "九十九") /\
  numberToChinese (of_Z 0) = Throw RangeExn /\
  numberToChinese (of_Z 100) = Throw RangeExn /\
  numberToChinese (Finite (3 # 2)) = Throw RangeExn /\
  numberToChinese NaN = Throw RangeExn /\
  numberToChinese (Infinity false) = Throw RangeExn.
Proof.
  split; [exact numberToChinese_in_range |].
  split; [exact numberToChinese_throws |].
  repeat split; reflexivity.
Qed.

Lemma numberToChinese_contract_witness :
  numberToChinese (of_Z 42) = Ok (ordinal_spec 42%Z) /\ ordinal_spec 42%Z <> [].
Proof.
  apply (proj1 numberToChinese_contract (of_Z 42) 42%Z).
  - reflexivity.
  - lia.
Defined.

(* ================================================================== *)
(** * Figure Numbering *)
(* ================================================================== *)

Section FigureNumbering.


Lemma count_images_cons c cs :
  count_images (c :: cs) =
  ((if is_type "image" c then 1 else 0) + count_images cs)%N.
Proof.
  unfold count_images. simpl.
  destruct (is_type "image" c); simpl length; lia.
Qed.

Lemma numberToChinese_of_N n :
  (1 <= n <= 99)%N ->
  numberToChinese (of_N n) = Ok (ordinal_spec (Z.of_N n)).
Proof.
  intros H.
  apply (numberToChinese_in_range (of_N n) (Z.of_N n) (of_N_denotes n)). lia.
Qed.



Lemma imgRegex_children_other c cs st :
  is_type "image" c = false ->
  imgRegex_children (c :: cs) st =
  bind (imgRegex_children cs) (fun out => ret (c :: out)) st.
Proof. intros T. simpl. rewrite T. reflexivity. Qed.




End FigureNumbering.

Section FigureNumberingOverflow.


End FigureNumberingOverflow.



(** C8. An image without alt text: the alt attribute of the figure is the
    empty string, but the caption carries the text [undefined], because the
    caption interpolates [child.alt] itself and not the guarded [altText].
    A table row whose first cell is empty does give the empty title. *)
Theorem missing_alt_caption :
  imgRegex_children [Node "image" None (Some (lit "x.png")) None None]
                    initial_state
    = Ok ([html (nl ++ litq "<figure class=`image-wrap float-right`>" ++ nl
                 ++ litq "  <img src=`x.png` alt=``>" ++ nl
                 ++ lit "  <figcaption>" ++ nl
                 ++ litq "    <a href=`#img_forward_link_图一` id=`img_backward_link_图一`>图一</a>：undefined"
                 ++ nl
                 ++ lit "  </figcaption>" ++ nl
                 ++ lit "</figure>")],
          State 1 0 0 []) /\
  tblRegex_children false true [] [tableRow [tableCell []]] initial_state
    = Ok ([tableRow [tableCell []];
           html (litq "<p class=`tbl_title`><a href=`#tbl_forward_link_表一` id=`tbl_backward_link_表一`>表一</a>：</p>")],
          State 0 1 0 []).
Proof. split; vm_compute; reflexivity. Qed.

(** C3. Two tables in one sibling list: the caption of the first is built
    from its first cell, which is blanked; the first-row flag is not set
    again when the first table ends, so the second table keeps its first
    cell and its caption repeats the title of the first table. *)
Theorem tblRegex_second_table_title :
  tblRegex_children false true []
    [tableRow [tableCell [text (lit "A")]];
     html (lit "x");
     tableRow [tableCell [text (lit "B")]]]
    initial_state
  = Ok ([tableRow [tableCell [text []]];
         html (tblCaptionHtml (lit "一") (lit "A"));
         html (lit "x");
         tableRow [tableCell [text (lit "B")]];
         html (tblCaptionHtml (lit "二") (lit "A"))],
        State 0 2 0 []).
Proof. vm_compute. reflexivity. Qed.

(** C4. A quote-block among the siblings: a real one has no [value], and
    the rewriter throws on reading it; one that carries a string value is
    replaced by a fresh text node (its type and its children are lost) when
    the pattern changes nothing, and by a raw-markup node when it does. *)
Theorem regex_blockquote :
  regex_children (RChar (chr "x")) (lit "y")
                 [blockquote [paragraph [text (lit "q")]]]
    = Throw TypeError /\
  regex_children (RChar (chr "x")) (lit "y")
                 [Node "blockquote" (Some (lit "q")) None None
                       (Some [paragraph [text (lit "q")]])]
    = Ok [text (lit "q")] /\
  regex_children (RChar (chr "x")) (lit "y")
                 [Node "blockquote" (Some (lit "x")) None None
                       (Some [paragraph [text (lit "q")]])]
    = Ok [html (lit "y")].
Proof. repeat split; vm_compute; reflexivity. Qed.

(* ================================================================== *)
(** * The trailing mark *)
(* ================================================================== *)

Section TrailingMark.

Lemma update_nth_app {A} (f : A -> A) pre x post :
  update_nth (length pre) f (pre ++ x :: post) = pre ++ f x :: post.
Proof.
  induction pre as [|y pre IH]; simpl; [reflexivity |].
  rewrite IH. reflexivity.
Qed.

Lemma update_nth_last {A} (f : A -> A) kids x :
  update_nth (length (kids ++ [x]) - 1) f (kids ++ [x]) = kids ++ [f x].
Proof.
  rewrite length_app. simpl.
  replace (length kids + 1 - 1) with (length kids) by lia.
  apply update_nth_app.
Qed.

(** The backward search stops at the last node that is a paragraph with
    children. *)
Lemma lastParagraph_found cs i p :
  nth_error cs i = Some p -> has_content p = true ->
  forall k, i < k -> k <= length cs ->
    (forall j q, i < j -> j < k -> nth_error cs j = Some q ->
                 has_content q = false) ->
    lastParagraph k cs = Some i.
Proof.
  intros Hi Hp k. induction k as [|k IH]; intros Hlt Hlen Hafter; [lia |].
  simpl.
  destruct (nth_error cs k) as [n|] eqn:E.
  - destruct (Nat.eq_dec i k) as [-> | Hne].
    + rewrite Hi in E. inversion E; subst n. rewrite Hp. reflexivity.
    + rewrite (Hafter k n) by (try lia; exact E).
      apply IH; [lia | lia |].
      intros j q H1 H2. apply Hafter; lia.
  - apply nth_error_None in E. lia.
Qed.

Lemma lastParagraph_none cs k :
  (forall q, In q cs -> has_content q = false) ->
  lastParagraph k cs = None.
Proof.
  intros H. induction k as [|k IH]; simpl; [reflexivity |].
  destruct (nth_error cs k) as [n|] eqn:E; [| reflexivity].
  rewrite (H n (nth_error_In _ _ E)). exact IH.
Qed.

Lemma trailing_mark_none cs :
  (forall q, In q cs -> has_content q = false) -> trailing_mark cs = cs.
Proof.
  intros H. unfold trailing_mark.
  rewrite (lastParagraph_none cs (length cs) H). reflexivity.
Qed.

Lemma trailing_mark_last pre p post :
  has_content p = true ->
  (forall q, In q post -> has_content q = false) ->
  trailing_mark (pre ++ p :: post) = pre ++ mark_paragraph p :: post.
Proof.
  intros Hp Hpost. unfold trailing_mark.
  rewrite (lastParagraph_found (pre ++ p :: post) (length pre) p).
  - apply update_nth_app.
  - rewrite nth_error_app2 by lia. rewrite Nat.sub_diag. reflexivity.
  - exact Hp.
  - rewrite length_app. simpl. lia.
  - lia.
  - intros j q H1 H2 E.
    rewrite nth_error_app2 in E by lia.
    destruct (j - length pre) as [|d] eqn:D; [lia |].
    simpl in E. apply Hpost. exact (nth_error_In _ _ E).
Qed.

Lemma has_content_children p :
  has_content p = true ->
  is_type "paragraph" p = true /\
  exists kids lastc, children p = Some (kids ++ [lastc]).
Proof.
  unfold has_content. intros H. apply andb_true_iff in H.
  destruct H as [T H]. split; [exact T |].
  destruct (children p) as [[|c cs]|]; try discriminate.
  destruct (exists_last (l := c :: cs)) as (kids & lastc & E);
    [discriminate |].
  exists kids, lastc. rewrite E. reflexivity.
Qed.

Lemma mark_paragraph_last p kids lastc :
  children p = Some (kids ++ [lastc]) ->
  mark_paragraph p = set_children p (Some (kids ++ [add_pilcrow lastc])).
Proof.
  intros E. unfold mark_paragraph. rewrite E.
  rewrite update_nth_last. reflexivity.
Qed.

Lemma add_pilcrow_marked n v :
  is_type "text" n = true \/ is_type "html" n = true ->
  value n = Some v ->
  add_pilcrow n = set_value n (Some (v ++ lit "¶")).
Proof.
  intros T V. unfold add_pilcrow. rewrite V.
  destruct T as [T | T]; rewrite T; [| rewrite orb_true_r]; reflexivity.
Qed.

Lemma add_pilcrow_kept n :
  (is_type "text" n = false /\ is_type "html" n = false) \/ value n = None ->
  add_pilcrow n = n.
Proof.
  intros [[T1 T2] | V]; unfold add_pilcrow.
  - rewrite T1, T2. reflexivity.
  - rewrite V. destruct (is_type "text" n || is_type "html" n); reflexivity.
Qed.

End TrailingMark.

(** C10. The trailing-mark step looks only at the children of the root.
    When none of them is a paragraph with children it changes nothing.
    Otherwise it rewrites only the last child of the last such paragraph:
    that child gets the pilcrow appended to its value when it is a text or
    raw-markup node with a string value, and is kept as it is otherwise.
    All the other children of the root, the other children of that
    paragraph, and every other property are the ones of the input; a
    paragraph nested in another container is never touched. *)
Theorem trailing_mark_frame :
  (forall tree fs cs, children tree = Some cs ->
     finalize tree fs
       = Ok (set_children tree (Some (trailing_mark cs ++ footnoteSection fs)))) /\
  (forall cs, (forall q, In q cs -> has_content q = false) ->
     trailing_mark cs = cs) /\
  (forall pre p post,
     has_content p = true ->
     (forall q, In q post -> has_content q = false) ->
     exists kids lastc,
       is_type "paragraph" p = true /\
       children p = Some (kids ++ [lastc]) /\
       trailing_mark (pre ++ p :: post)
         = pre ++ set_children p (Some (kids ++ [add_pilcrow lastc])) :: post) /\
  (forall n v,
     is_type "text" n = true \/ is_type "html" n = true ->
     value n = Some v ->
     add_pilcrow n = set_value n (Some (v ++ lit "¶"))) /\
  (forall n,
     (is_type "text" n = false /\ is_type "html" n = false) \/ value n = None ->
     add_pilcrow n = n) /\
  markdownReplace nested_paragraph
    = Ok (root [paragraph [text (lit "a¶")];
                blockquote [paragraph [text (lit "b")]]]).
Proof.
  split.
  { intros tree fs cs E. unfold finalize. rewrite E. reflexivity. }
  split; [exact trailing_mark_none |].
  split.
  { intros pre p post Hp Hpost.
    destruct (has_content_children p Hp) as (T & kids & lastc & E).
    exists kids, lastc. split; [exact T |]. split; [exact E |].
    rewrite (trailing_mark_last pre p post Hp Hpost).
    rewrite (mark_paragraph_last p kids lastc E). reflexivity. }
  split; [exact add_pilcrow_marked |].
  split; [exact add_pilcrow_kept |].
  vm_compute. reflexivity.
Qed.

Lemma trailing_mark_frame_witness :
  exists kids lastc,
    is_type "paragraph" (paragraph [text (lit "a"); text (lit "b")]) = true /\
    children (paragraph [text (lit "a"); text (lit "b")])
      = Some (kids ++ [lastc]) /\
    trailing_mark ([html (lit "h")]
                   ++ paragraph [text (lit "a"); text (lit "b")]
                   :: [paragraph []])
      = [html (lit "h")]
        ++ set_children (paragraph [text (lit "a"); text (lit "b")])
                        (Some (kids ++ [add_pilcrow lastc]))
        :: [paragraph []].
Proof.
  apply (proj1 (proj2 (proj2 trailing_mark_frame))).
  - reflexivity.
  - intros q [<- | []]. reflexivity.
Defined.

(* ================================================================== *)
(** * The Inline Pattern Splicer *)
(* ================================================================== *)

Section Splicer.

Lemma custom_footnote_length cs r :
  custom_footnote cs = Ok (Some r) -> 3 <= length cs.
Proof.
  destruct cs as [|c1 [|c2 [|c3 rest]]]; simpl.
  - discriminate.
  - destruct (negb (is_type "text" c1)); [discriminate |].
    destruct (value_endsWith (lit "^[") c1) as [[|]|]; simpl; discriminate.
  - destruct (negb (is_type "text" c1)); [discriminate |].
    destruct (value_endsWith (lit "^[") c1) as [[|]|]; simpl; discriminate.
  - intros _. lia.
Qed.

(** Any bound from the length of the work list on gives the same run. *)
Lemma splice_loop_fuel n : forall cs f1 f2,
  length cs <= n -> n <= f1 -> n <= f2 ->
  splice_loop f1 cs = splice_loop f2 cs.
Proof.
  induction n as [|n IH]; intros cs f1 f2 Hlen H1 H2.
  - destruct cs; [| simpl in Hlen; lia].
    destruct f1, f2; reflexivity.
  - destruct cs as [|c1 rest1]; [destruct f1, f2; reflexivity |].
    destruct f1 as [|f1]; [lia |]. destruct f2 as [|f2]; [lia |].
    simpl in Hlen.
    cbn [splice_loop].
    destruct (custom_footnote (c1 :: rest1)) as [[[[linkText v1] v3]|]|e] eqn:E;
      cbn [rbind]; [| | reflexivity].
    + pose proof (custom_footnote_length _ _ E) as L3.
      assert (Hs : length (skipn 3 (c1 :: rest1)) + 2 = length rest1).
      { rewrite length_skipn. cbn [length] in *. lia. }
      destruct (slice_from 1 v3) as [|x xs].
      * rewrite (IH (skipn 3 (c1 :: rest1)) f1 f2) by lia. reflexivity.
      * rewrite (IH (_ :: skipn 3 (c1 :: rest1)) f1 f2) by (cbn [length]; lia).
        reflexivity.
    + rewrite (IH rest1 f1 f2) by lia. reflexivity.
Qed.

Lemma splice_loop_splice fuel cs :
  length cs <= fuel -> splice_loop fuel cs = splice cs.
Proof.
  intros H. unfold splice.
  apply (splice_loop_fuel (length cs)); lia.
Qed.

(** The loop never exhausts its bound. *)
Lemma splice_loop_no_fuel_error n : forall cs fuel,
  length cs <= n -> n <= fuel -> splice_loop fuel cs <> Throw OutOfFuel.
Proof.
  induction n as [|n IH]; intros cs fuel Hlen Hf.
  - destruct cs; [| simpl in Hlen; lia]. destruct fuel; discriminate.
  - destruct cs as [|c1 rest1]; [destruct fuel; discriminate |].
    destruct fuel as [|fuel]; [lia |].
    simpl in Hlen. cbn [splice_loop].
    destruct (custom_footnote (c1 :: rest1)) as [[[[linkText v1] v3]|]|e] eqn:E;
      cbn [rbind].
    + pose proof (custom_footnote_length _ _ E) as L3.
      assert (Hs : length (skipn 3 (c1 :: rest1)) + 2 = length rest1).
      { rewrite length_skipn. cbn [length] in *. lia. }
      destruct (slice_from 1 v3) as [|x xs].
      * specialize (IH (skipn 3 (c1 :: rest1)) fuel).
        destruct (splice_loop fuel (skipn 3 (c1 :: rest1))) as [out|e'];
          cbn [rbind]; [discriminate |].
        apply IH; lia.
      * specialize (IH (text (x :: xs) :: skipn 3 (c1 :: rest1)) fuel).
        destruct (splice_loop fuel (text (x :: xs) :: skipn 3 (c1 :: rest1)))
          as [out|e']; cbn [rbind]; [discriminate |].
        apply IH; cbn [length]; lia.
    + specialize (IH rest1 fuel).
      destruct (splice_loop fuel rest1) as [out|e']; cbn [rbind];
        [discriminate |].
      apply IH; lia.
    + unfold custom_footnote in E.
      destruct (negb (is_type "text" c1)); [discriminate |].
      unfold value_endsWith, value_startsWith in E.
      destruct (value c1); cbn [rbind] in E; [| inversion E; discriminate].
      destruct (negb (endsWith (lit "^[") j)); [discriminate |].
      destruct rest1 as [|c2 [|c3 rest3]]; try discriminate.
      destruct (negb (is_type "link" c2)); [discriminate |].
      destruct (children c2) as [[|l0 ls]|]; try discriminate.
      destruct (negb (is_type "text" c3)); [discriminate |].
      destruct (value c3); cbn [rbind] in E; [| inversion E; discriminate].
      destruct (negb (startsWith (lit "]") j0)); discriminate.
Qed.

End Splicer.

Section SplicerSteps.

Lemma str_eqb_refl a : str_eqb a a = true.
Proof. apply str_eqb_eq. reflexivity. Qed.

Lemma endsWith_app a p : endsWith p (a ++ p) = true.
Proof.
  unfold endsWith. rewrite length_app.
  replace (length a + length p - length p) with (length a) by lia.
  rewrite skipn_app, skipn_all, Nat.sub_diag. simpl.
  rewrite str_eqb_refl.
  rewrite andb_true_r. apply Nat.leb_le. lia.
Qed.

Lemma slice_drop_last_app a p : slice_drop_last (length p) (a ++ p) = a.
Proof.
  unfold slice_drop_last. rewrite length_app.
  replace (length a + length p - length p) with (length a) by lia.
  rewrite firstn_app, firstn_all, Nat.sub_diag. simpl. apply List.app_nil_r.
Qed.

Lemma splice_loop_S fuel c rest1 :
  splice_loop (S fuel) (c :: rest1)
  = rbind (custom_footnote (c :: rest1)) (fun found =>
    match found with
    | Some (linkText, v1, v3) =>
      rbind (splice_loop fuel
               (match slice_from 1 v3 with
                | [] => skipn 3 (c :: rest1)
                | _ => text (slice_from 1 v3) :: skipn 3 (c :: rest1)
                end))
            (fun out =>
               Ok (text (slice_drop_last 2 v1 ++ lit "[^" ++ linkText ++ lit "]")
                     :: out))
    | None => rbind (splice_loop fuel rest1) (fun out => Ok (c :: out))
    end).
Proof. reflexivity. Qed.

Variables (t1 l t3 l0 : node) (ls rest : list node) (a b : jsstring).

Hypothesis t1_text : is_type "text" t1 = true.
Hypothesis t1_value : value t1 = Some (a ++ lit "^[").
Hypothesis l_link : is_type "link" l = true.
Hypothesis l_children : children l = Some (l0 :: ls).
Hypothesis t3_text : is_type "text" t3 = true.
Hypothesis t3_value : value t3 = Some (lit "]" ++ b).

Lemma custom_footnote_match :
  custom_footnote (t1 :: l :: t3 :: rest)
  = Ok (Some (or_empty (value l0), a ++ lit "^[", lit "]" ++ b)).
Proof.
  unfold custom_footnote, value_endsWith, value_startsWith.
  rewrite t1_text, t1_value. cbn [negb rbind].
  rewrite endsWith_app. cbn [negb].
  rewrite l_link, l_children. cbn [negb].
  rewrite t3_text, t3_value. cbn [negb rbind].
  rewrite startsWith_app. reflexivity.
Qed.

(** One splice: the three nodes give one text node, and the loop goes on
    with what the third node had after its bracket, if anything, put back
    before the nodes not yet seen. *)
Lemma splice_match :
  splice (t1 :: l :: t3 :: rest)
  = rbind (splice (match b with
                   | [] => rest
                   | _ => text b :: rest
                   end))
          (fun out =>
             Ok (text (a ++ lit "[^" ++ or_empty (value l0) ++ lit "]") :: out)).
Proof.
  unfold splice at 1.
  change (length (t1 :: l :: t3 :: rest)) with (S (S (S (length rest)))).
  rewrite splice_loop_S, custom_footnote_match. cbn [rbind].
  replace (slice_drop_last 2 (a ++ lit "^[")) with a
    by (symmetry; apply (slice_drop_last_app a (lit "^["))).
  change (slice_from 1 (lit "]" ++ b)) with b.
  change (skipn 3 (t1 :: l :: t3 :: rest)) with rest.
  destruct b as [|x xs].
  - rewrite splice_loop_splice by lia. reflexivity.
  - rewrite splice_loop_splice by (cbn [length]; lia). reflexivity.
Qed.

End SplicerSteps.

Section SplicerMerge.

Lemma splice_no_match c rest :
  custom_footnote (c :: rest) = Ok None ->
  splice (c :: rest) = rbind (splice rest) (fun out => Ok (c :: out)).
Proof.
  intros E. unfold splice at 1.
  change (length (c :: rest)) with (S (length rest)).
  rewrite splice_loop_S, E. reflexivity.
Qed.

Lemma splice_empty_text rest :
  splice (text [] :: rest)
  = rbind (splice rest) (fun out => Ok (text [] :: out)).
Proof. apply splice_no_match. reflexivity. Qed.

Lemma merge_text_cons n out : merge_text (n :: out) = merge_from n out.
Proof. destruct out; reflexivity. Qed.

(** Two text neighbours become one node with the two values in a row. *)
Lemma merge_text_adjacent x y out :
  merge_text (text x :: text y :: out) = merge_text (text (x ++ y) :: out).
Proof. rewrite !merge_text_cons. reflexivity. Qed.

Lemma merge_from_head last l :
  exists n rest, merge_from last l = n :: rest /\ type n = type last.
Proof.
  revert last. induction l as [|cur l IH]; intros last; simpl.
  - exists last, []. split; reflexivity.
  - destruct (is_type "text" last && is_type "text" cur).
    + destruct (IH (set_value last (plus_assign (value last) (value cur))))
        as (n & rest & E & T).
      exists n, rest. split; [exact E | exact T].
    + exists last, (merge_from cur l). split; reflexivity.
Qed.

Lemma merge_from_no_adjacent l : forall last,
  no_adjacent_text (merge_from last l).
Proof.
  induction l as [|cur l IH]; intros last; simpl.
  - exact I.
  - destruct (is_type "text" last && is_type "text" cur) eqn:E.
    + apply IH.
    + destruct (merge_from_head cur l) as (n & rest & En & T).
      pose proof (IH cur) as H. rewrite En in *.
      split; [| exact H].
      unfold is_type in *. rewrite T. exact E.
Qed.

Lemma merge_text_no_adjacent l : no_adjacent_text (merge_text l).
Proof.
  destruct l as [|n l]; [exact I |].
  rewrite merge_text_cons. apply merge_from_no_adjacent.
Qed.

Lemma merge_from_barrier pre : forall last n post,
  is_type "text" n = false ->
  merge_from last (pre ++ n :: post) = merge_from last pre ++ n :: merge_text post.
Proof.
  induction pre as [|c pre IH]; intros last n post T; simpl.
  - rewrite T, andb_false_r. rewrite <- merge_text_cons.
    destruct post as [|c post]; [reflexivity |].
    rewrite !merge_text_cons. simpl. rewrite T. reflexivity.
  - destruct (is_type "text" last && is_type "text" c).
    + apply IH. exact T.
    + simpl. f_equal. apply IH. exact T.
Qed.

(** A node that is not text separates what is merged before it from what
    is merged after it. *)
Lemma merge_text_barrier pre n post :
  is_type "text" n = false ->
  merge_text (pre ++ n :: post) = merge_text pre ++ n :: merge_text post.
Proof.
  intros T. destruct pre as [|c pre].
  - simpl app. rewrite merge_text_cons.
    destruct post as [|d post]; [reflexivity |].
    rewrite merge_text_cons. simpl. rewrite T. reflexivity.
  - change ((c :: pre) ++ n :: post) with (c :: (pre ++ n :: post)).
    rewrite !merge_text_cons. apply merge_from_barrier. exact T.
Qed.

Lemma custom_footnote_text_value c rest r :
  custom_footnote (c :: rest) = Ok r ->
  is_type "text" c = true -> value c <> None.
Proof.
  unfold custom_footnote, value_endsWith. intros H T. rewrite T in H.
  cbn [negb] in H. destruct (value c); [discriminate | discriminate H].
Qed.

(** Every text node the loop returns has a string value. *)
Lemma splice_loop_text_values fuel : forall cs out,
  splice_loop fuel cs = Ok out ->
  Forall (fun n => is_type "text" n = true -> value n <> None) out.
Proof.
  induction fuel as [|fuel IH]; intros cs out H.
  - destruct cs; [inversion H; constructor | discriminate].
  - destruct cs as [|c1 rest1]; [inversion H; constructor |].
    rewrite splice_loop_S in H.
    apply rbind_inv in H. destruct H as (found & Hf & H).
    destruct found as [[[linkText v1] v3]|].
    + apply rbind_inv in H. destruct H as (out' & H1 & H2).
      inversion H2; subst. constructor; [discriminate | exact (IH _ _ H1)].
    + apply rbind_inv in H. destruct H as (out' & H1 & H2).
      inversion H2; subst. constructor; [| exact (IH _ _ H1)].
      exact (custom_footnote_text_value _ _ _ Hf).
Qed.

End SplicerMerge.

Section SplicerResult.

Variables (t1 l t3 l0 : node) (ls rest : list node) (a b : jsstring).

Hypothesis t1_text : is_type "text" t1 = true.
Hypothesis t1_value : value t1 = Some (a ++ lit "^[").
Hypothesis l_link : is_type "link" l = true.
Hypothesis l_children : children l = Some (l0 :: ls).
Hypothesis t3_text : is_type "text" t3 = true.
Hypothesis t3_value : value t3 = Some (lit "]" ++ b).

(** Seen from the result of the whole function, the rest of the third
    node is always put back as a text node: an empty one would be passed
    over by the loop and then merged away. *)
Lemma transformCustomFootnotes_match :
  transformCustomFootnotes_children (t1 :: l :: t3 :: rest)
  = rbind (splice (text b :: rest))
          (fun out =>
             Ok (merge_text
                   (text (a ++ lit "[^" ++ or_empty (value l0) ++ lit "]")
                      :: out))).
Proof.
  unfold transformCustomFootnotes_children. fold (splice (t1 :: l :: t3 :: rest)).
  rewrite (splice_match t1 l t3 l0 ls rest a b
             t1_text t1_value l_link l_children t3_text t3_value).
  destruct b as [|x xs].
  - rewrite splice_empty_text.
    destruct (splice rest) as [out|e]; cbn [rbind]; [| reflexivity].
    rewrite (merge_text_cons _ (text [] :: out)). cbn [merge_from].
    change (is_type "text" (text _)) with true at 1 2. cbn [andb].
    unfold plus_assign, set_value, text. cbn [value type url alt children interp].
    rewrite List.app_nil_r. rewrite merge_text_cons. reflexivity.
  - destruct (splice (text (x :: xs) :: rest)); reflexivity.
Qed.

End SplicerResult.

(** C5. When the work list of the Inline Pattern Splicer starts with a text
    node ending in the open marker, a link node with a first child, and a
    text node starting with the close bracket, the loop emits one text node:
    the first value without its marker, followed by the canonical marker
    around the text of the link's first child.  It consumes exactly these
    three nodes and goes on with the rest of the third value put back as a
    text node before the unseen nodes, so that patterns in a row are all
    spliced.  Any other leading node is passed on and the loop moves by
    one.  The final merge joins text neighbours by concatenating their
    values, leaves no two text nodes side by side, and never merges across
    a node that is not text. *)
Theorem custom_footnote_splicing :
  (forall t1 l t3 l0 ls rest a b,
     is_type "text" t1 = true -> value t1 = Some (a ++ lit "^[") ->
     is_type "link" l = true -> children l = Some (l0 :: ls) ->
     is_type "text" t3 = true -> value t3 = Some (lit "]" ++ b) ->
     splice (t1 :: l :: t3 :: rest)
       = rbind (splice (match b with
                        | [] => rest
                        | _ => text b :: rest
                        end))
               (fun out =>
                  Ok (text (a ++ lit "[^" ++ or_empty (value l0) ++ lit "]")
                        :: out)) /\
     transformCustomFootnotes_children (t1 :: l :: t3 :: rest)
       = rbind (splice (text b :: rest))
               (fun out =>
                  Ok (merge_text
                        (text (a ++ lit "[^" ++ or_empty (value l0) ++ lit "]")
                           :: out)))) /\
  (forall c rest, custom_footnote (c :: rest) = Ok None ->
     splice (c :: rest) = rbind (splice rest) (fun out => Ok (c :: out))) /\
  (forall cs, transformCustomFootnotes_children cs
              = rbind (splice cs) (fun out => Ok (merge_text out))) /\
  (forall cs, splice cs <> Throw OutOfFuel) /\
  (forall x y out,
     merge_text (text x :: text y :: out) = merge_text (text (x ++ y) :: out)) /\
  (forall pre n post, is_type "text" n = false ->
     merge_text (pre ++ n :: post) = merge_text pre ++ n :: merge_text post) /\
  (forall cs, no_adjacent_text (merge_text cs)) /\
  transformCustomFootnotes_children
    [text (lit "see ^["); link (lit "u") [text (lit "desc")];
     text (lit "] tail")]
    = Ok [text (lit "see [^desc] tail")] /\
  transformCustomFootnotes_children
    [text (lit "a^["); link (lit "u") [text (lit "x")]; text (lit "]^[");
     link (lit "v") [text (lit "y")]; text (lit "]")]
    = Ok [text (lit "a[^x][^y]")] /\
  transformCustomFootnotes_children
    [text (lit "a"); text (lit "b"); html (lit "h"); text (lit "c");
     text (lit "d")]
    = Ok [text (lit "ab"); html (lit "h"); text (lit "cd")].
Proof.
  split.
  { intros t1 l t3 l0 ls rest a b H1 H2 H3 H4 H5 H6. split.
    - exact (splice_match t1 l t3 l0 ls rest a b H1 H2 H3 H4 H5 H6).
    - exact (transformCustomFootnotes_match t1 l t3 l0 ls rest a b
               H1 H2 H3 H4 H5 H6). }
  split; [exact splice_no_match |].
  split; [reflexivity |].
  split.
  { intros cs. unfold splice.
    apply (splice_loop_no_fuel_error (length cs)); lia. }
  split; [exact merge_text_adjacent |].
  split; [exact merge_text_barrier |].
  split; [exact merge_text_no_adjacent |].
  repeat split; vm_compute; reflexivity.
Qed.

Lemma custom_footnote_splicing_witness :
  splice (text (lit "see " ++ lit "^[") :: link (lit "u") [text (lit "desc")]
            :: text (lit "]" ++ lit " tail") :: [html (lit "h")])
    = rbind (splice (text (lit " tail") :: [html (lit "h")]))
            (fun out =>
               Ok (text (lit "see " ++ lit "[^"
                         ++ or_empty (value (text (lit "desc"))) ++ lit "]")
                     :: out)) /\
  transformCustomFootnotes_children
    (text (lit "see " ++ lit "^[") :: link (lit "u") [text (lit "desc")]
       :: text (lit "]" ++ lit " tail") :: [html (lit "h")])
    = rbind (splice (text (lit " tail") :: [html (lit "h")]))
            (fun out =>
               Ok (merge_text
                     (text (lit "see " ++ lit "[^"
                            ++ or_empty (value (text (lit "desc"))) ++ lit "]")
                        :: out))).
Proof.
  apply (proj1 custom_footnote_splicing
           (text (lit "see " ++ lit "^[")) (link (lit "u") [text (lit "desc")])
           (text (lit "]" ++ lit " tail")) (text (lit "desc")) []
           [html (lit "h")] (lit "see ") (lit " tail"));
    reflexivity.
Defined.

(* ================================================================== *)
(** * The footnote pattern *)
(* ================================================================== *)

Section FootnotePattern.

Lemma firstn_exact {A} (a b : list A) : firstn (length a) (a ++ b) = a.
Proof.
  rewrite firstn_app, firstn_all, Nat.sub_diag. simpl.
  apply List.app_nil_r.
Qed.

Lemma take_until_spec c s pre post :
  take_until c s = Some (pre, post) ->
  s = pre ++ c :: post /\ ~ In c pre.
Proof.
  revert pre post. induction s as [|d s IH]; intros pre post; simpl;
    [discriminate |].
  destruct (N.eqb_spec d c) as [-> | Hne].
  - intros H. inversion H. split; [reflexivity | intros []].
  - destruct (take_until c s) as [[pre' post']|]; [| discriminate].
    intros H. inversion H; subst.
    destruct (IH pre' post eq_refl) as [-> Hnot].
    split; [reflexivity |].
    intros [E | Hin]; [congruence | exact (Hnot Hin)].
Qed.

(** A lazy run of units other than [c], continued by a test for [c],
    stops at the first [c]. *)
Lemma star_lazy_until c cs (K : mstate -> jsstring -> option mstate) cont :
  (forall y, cont y = match rest y with
                      | [] => None
                      | d :: s' => if (d =? c)%N then K y s' else None
                      end) ->
  forall s p,
    star false (CNot (COne c)) cs cont p s
    = match take_until c s with
      | Some (pre, post) => K (MState (p + length pre) (c :: post) cs) post
      | None => None
      end.
Proof.
  intros Hcont. induction s as [|d s IH]; intros p.
  - simpl. rewrite Hcont. reflexivity.
  - cbn [star take_until cset_mem].
    rewrite Hcont. cbn [rest].
    destruct (N.eqb_spec d c) as [-> | Hne]; cbn [negb].
    + cbn [length]. rewrite Nat.add_0_r. reflexivity.
    + rewrite IH.
      destruct (take_until c s) as [[pre post]|]; [| reflexivity].
      cbn [length]. rewrite Nat.add_succ_r. reflexivity.
Qed.

Lemma footnoteCaptureRegex_eq :
  footnoteCaptureRegex =
  RGroup 1 (RSeq (RSeq (RChar (chr "[")) (RChar (chr "^")))
           (RSeq (RNotAhead (RAlt (RChar (chr "表")) (RChar (chr "图"))))
           (RSeq (RGroup 2 (RStar false (CNot (COne (chr "]")))))
                 (RChar (chr "]"))))).
Proof. reflexivity. Qed.

Lemma reserved_head s :
  reserved s = match s with
               | [] => false
               | d :: _ => (d =? chr "表")%N || (d =? chr "图")%N
               end.
Proof.
  unfold reserved. destruct s as [|d s]; [reflexivity |].
  change (lit "表") with [chr "表"]. change (lit "图") with [chr "图"].
  cbn [startsWith]. rewrite !andb_true_r.
  rewrite (N.eqb_sym (chr "表")), (N.eqb_sym (chr "图")). reflexivity.
Qed.

(** What one attempt of the footnote pattern finds. *)
Lemma match_at_footnote q s :
  match_at footnoteCaptureRegex q s
  = match marker_at s with
    | Some (c, post) =>
      Some (MState (q + 3 + length c) post
                   [(1, lit "[^" ++ c ++ lit "]"); (2, c)])
    | None => None
    end.
Proof.
  unfold match_at. rewrite footnoteCaptureRegex_eq.
  cbn [matcher pos rest caps].
  destruct s as [|a [|b s2]]; cbn [marker_at]; [reflexivity | |].
  - destruct (a =? chr "[")%N; reflexivity.
  - destruct (a =? chr "[")%N eqn:Ea; cbn [andb]; [| reflexivity].
    destruct (b =? chr "^")%N eqn:Eb; cbn [andb]; [| reflexivity].
    apply N.eqb_eq in Ea, Eb. subst a b.
    rewrite reserved_head.
    destruct s2 as [|d s3].
    + reflexivity.
    + destruct (d =? chr "表")%N eqn:E1; cbn [orb negb]; [reflexivity |].
      destruct (d =? chr "图")%N eqn:E2; cbn [orb negb]; [reflexivity |].
      rewrite (star_lazy_until (chr "]") []
                 (fun y s' =>
                    Some (MState (S (pos y)) s'
                            ((1, firstn (S (pos y) - q)
                                        (chr "[" :: chr "^" :: d :: s3))
                               :: (2, firstn (pos y - S (S q)) (d :: s3))
                               :: caps y))))
        by (intros y; reflexivity).
      destruct (take_until (chr "]") (d :: s3)) as [[c post]|] eqn:T;
        [| reflexivity].
      apply take_until_spec in T. destruct T as [T _].
      cbn [pos caps]. rewrite T. f_equal. f_equal; [lia |].
      f_equal.
      * f_equal.
        assert (E : chr "[" :: chr "^" :: c ++ chr "]" :: post
                    = (lit "[^" ++ c ++ lit "]") ++ post).
        { change (lit "[^") with [chr "["; chr "^"].
          change (lit "]") with [chr "]"].
          cbn [app]. rewrite <- app_assoc. reflexivity. }
        rewrite E.
        replace (S (S (S q) + length c) - q)
          with (length (lit "[^" ++ c ++ lit "]"))
          by (rewrite !length_app; change (length (lit "[^")) with 2;
              change (length (lit "]")) with 1; lia).
        apply firstn_exact.
      * f_equal. f_equal.
        replace (S (S q) + length c - S (S q)) with (length c) by lia.
        apply firstn_exact.
Qed.

(** The content of a marker is not reserved and has no close bracket. *)
Lemma marker_at_content s c post :
  marker_at s = Some (c, post) ->
  s = lit "[^" ++ c ++ lit "]" ++ post /\
  reserved c = false /\ ~ In (chr "]") c.
Proof.
  destruct s as [|a [|b s2]]; cbn [marker_at]; try discriminate.
  destruct (N.eqb_spec a (chr "[")); cbn [andb]; [| discriminate].
  destruct (N.eqb_spec b (chr "^")); cbn [andb]; [| discriminate].
  destruct (reserved s2) eqn:R; cbn [negb]; [discriminate |].
  intros T. apply take_until_spec in T. destruct T as [-> Hnot].
  subst a b. split; [reflexivity |]. split; [| exact Hnot].
  rewrite reserved_head in *.
  destruct c as [|d c]; [reflexivity | exact R].
Qed.

End FootnotePattern.

(* ================================================================== *)
(** * The Footnote Collector *)
(* ================================================================== *)

Section FootnoteCollector.

Lemma add_footnotes_nil st : add_footnotes st [] = st.
Proof.
  unfold add_footnotes. simpl. rewrite N.add_0_r, List.app_nil_r.
  destruct st; reflexivity.
Qed.

Lemma numbered_app ms1 : forall n ms2,
  numbered n (ms1 ++ ms2)
  = numbered n ms1 ++ numbered (n + N.of_nat (length ms1)) ms2.
Proof.
  induction ms1 as [|m ms1 IH]; intros n ms2.
  - simpl. rewrite N.add_0_r. reflexivity.
  - cbn [app numbered length]. rewrite IH. do 3 f_equal. lia.
Qed.

Lemma add_footnotes_app st ms1 ms2 :
  add_footnotes (add_footnotes st ms1) ms2 = add_footnotes st (ms1 ++ ms2).
Proof.
  unfold add_footnotes. cbn [imgNum tblNum footNoteNum collectedFootnotes].
  rewrite numbered_app, length_app, <- app_assoc. f_equal. lia.
Qed.

Lemma collect_footnote_run (c : jsstring) st :
  collect_footnote (Some c) st = Ok ((footNoteNum st + 1)%N, add_footnotes st [c]).
Proof. reflexivity. Qed.

Lemma mod3_succ i : i mod 3 = 0 -> S i mod 3 = 1.
Proof.
  intros H. symmetry. apply (Nat.mod_unique (S i) 3 (i / 3) 1); [lia |].
  pose proof (Nat.div_mod_eq i 3). lia.
Qed.

Lemma mod3_succ3 i : i mod 3 = 0 -> S (S (S i)) mod 3 = 0.
Proof.
  intros H. symmetry. apply (Nat.mod_unique (S (S (S i))) 3 (S (i / 3)) 0); [lia |].
  pose proof (Nat.div_mod_eq i 3). lia.
Qed.

Lemma footnote_parts_cons i part parts' :
  footnote_parts i (part :: parts')
  = if negb (truthy part) then footnote_parts (S i) parts'
    else if Nat.eqb (i mod 3) 0 then
      bind (footnote_parts (S i) parts')
           (fun out => ret (text (or_empty part) :: out))
    else if Nat.eqb (i mod 3) 1 then
      match parts' with
      | footnoteContent :: parts'' =>
        bind (collect_footnote footnoteContent) (fun footnoteNum =>
        bind (footnote_parts (S (S i)) parts'') (fun out =>
        ret (html (footnoteReference footnoteNum) :: out)))
      | [] =>
        bind (collect_footnote None) (fun footnoteNum =>
        ret [html (footnoteReference footnoteNum)])
      end
    else footnote_parts (S i) parts'.
Proof. reflexivity. Qed.

(** The loop over a text segment alone. *)
Lemma footnote_parts_last i (seg : jsstring) st :
  i mod 3 = 0 ->
  footnote_parts i [Some seg] st
  = Ok (match seg with
        | [] => []
        | _ => [text seg]
        end, st).
Proof.
  intros H. cbn [footnote_parts]. destruct seg as [|x xs]; cbn [truthy negb].
  - reflexivity.
  - rewrite H. reflexivity.
Qed.

(** The loop over a segment, a marker with its content, and the parts
    that follow. *)
Lemma footnote_parts_marker i (seg c : jsstring) (parts : list jsopt) st :
  i mod 3 = 0 ->
  footnote_parts i (Some seg :: Some (lit "[^" ++ c ++ lit "]") :: Some c :: parts) st
  = bind (footnote_parts (S (S (S i))) parts)
         (fun out =>
            ret (match seg with
                 | [] => []
                 | _ => [text seg]
                 end
                 ++ html (footnoteReference (footNoteNum st + 1)) :: out))
         (add_footnotes st [c]).
Proof.
  intros H.
  assert (W : truthy (Some (lit "[^" ++ c ++ lit "]")) = true) by reflexivity.
  destruct seg as [|x xs].
  - rewrite footnote_parts_cons. cbn [truthy negb].
    rewrite footnote_parts_cons, W. cbn [negb].
    rewrite (mod3_succ i H). cbn [Nat.eqb].
    unfold bind at 1. rewrite collect_footnote_run. reflexivity.
  - rewrite footnote_parts_cons. cbn [truthy negb]. rewrite H. cbn [Nat.eqb].
    rewrite footnote_parts_cons, W. cbn [negb].
    rewrite (mod3_succ i H). cbn [Nat.eqb].
    unfold bind. rewrite collect_footnote_run. cbv beta iota.
    destruct (footnote_parts (S (S (S i))) parts (add_footnotes st [c]))
      as [[out st']|e]; reflexivity.
Qed.

End FootnoteCollector.

Section FootnoteCollectorRun.

Lemma ngroups_footnote : ngroups footnoteCaptureRegex = 2.
Proof. reflexivity. Qed.

(** The parts [split] makes of a text are its segments and, for every
    marker, the marker and its content; the loop turns them into the
    entries of the markers, numbered on from the counter, and into one
    reference per entry, in the same order. *)
Lemma footnote_parts_split (s : jsstring) :
  forall q skip (seg : jsstring) i st,
    i mod 3 = 0 ->
    exists out,
      footnote_parts i (split_from footnoteCaptureRegex q skip seg s) st
        = Ok (out, add_footnotes st (markers_from skip s)) /\
      filter (is_type "html") out
        = map (fun f => html (footnoteReference (num f)))
              (numbered (footNoteNum st) (markers_from skip s)).
Proof.
  induction s as [|c s IH]; intros q skip seg i st Hi.
  - assert (E : split_from footnoteCaptureRegex q skip seg [] = [Some seg])
      by (destruct skip; reflexivity).
    assert (M : markers_from skip [] = []) by (destruct skip; reflexivity).
    rewrite E, M, add_footnotes_nil, (footnote_parts_last i seg st Hi).
    eexists. split; [reflexivity |].
    destruct seg; reflexivity.
  - destruct skip as [|n].
    + cbn [split_from markers_from]. rewrite match_at_footnote.
      destruct (marker_at (c :: s)) as [[m post]|] eqn:Em.
      * cbn [pos].
        replace (q + 3 + length m - q) with (S (S (S (length m)))) by lia.
        cbn [Nat.eqb]. rewrite ngroups_footnote.
        change (captures 2 (MState (q + 3 + length m) post
                                   [(1, lit "[^" ++ m ++ lit "]"); (2, m)]))
          with [Some (lit "[^" ++ m ++ lit "]"); Some m].
        cbn [app].
        rewrite (footnote_parts_marker i seg m _ st Hi).
        replace (S (S (S (length m))) - 1) with (2 + length m) by lia.
        destruct (IH (S q) (2 + length m) [] (S (S (S i)))
                     (add_footnotes st [m]) (mod3_succ3 i Hi))
          as (out & Hrun & Hrefs).
        rewrite (bind_ok _ _ _ _ _ Hrun). unfold ret.
        rewrite add_footnotes_app. cbn [app].
        eexists. split; [reflexivity |].
        rewrite filter_app. cbn [filter].
        change (is_type "html" (html _)) with true. cbv beta iota.
        rewrite Hrefs. cbn [numbered map num add_footnotes footNoteNum length].
        replace (filter (is_type "html")
                        match seg with
                        | [] => []
                        | _ :: _ => [text seg]
                        end) with (@nil node) by (destruct seg; reflexivity).
        cbn [app]. reflexivity.
      * apply IH. exact Hi.
    + cbn [split_from markers_from]. apply IH. exact Hi.
Qed.

Lemma split_length_one (v : jsstring) :
  markers v = [] <-> length (split footnoteCaptureRegex v) = 1.
Proof.
  assert (G : forall s q skip seg,
    length (split_from footnoteCaptureRegex q skip seg s)
    = 1 + 3 * length (markers_from skip s)).
  { induction s as [|c s IH]; intros q skip seg.
    - destruct skip; reflexivity.
    - destruct skip as [|n]; cbn [split_from markers_from]; [| apply IH].
      rewrite match_at_footnote.
      destruct (marker_at (c :: s)) as [[m post]|]; [| apply IH].
      cbn [pos].
      replace (q + 3 + length m - q) with (S (S (S (length m)))) by lia.
      cbn [Nat.eqb]. rewrite ngroups_footnote.
      cbn [length]. rewrite length_app, IH.
      replace (S (S (S (length m))) - 1) with (2 + length m) by lia.
      unfold captures. rewrite length_map, length_seq. lia. }
  unfold markers, split.
  destruct v as [|c v].
  - rewrite match_at_footnote. cbn [marker_at]. split; reflexivity.
  - rewrite G. destruct (markers_from 0 (c :: v)); cbn [length].
    + split; reflexivity.
    + split; [discriminate | lia].
Qed.

Lemma split_nonempty (v : jsstring) :
  v <> [] -> split footnoteCaptureRegex v = split_from footnoteCaptureRegex 0 0 [] v.
Proof. destruct v; [congruence | reflexivity]. Qed.

(** The Footnote Collector on a sibling list: it always returns, and the
    state it leaves has the markers of the text and raw-markup siblings
    added, in the order of the list and of each text. *)
Lemma footnoteRegex_children_spec cs : forall st,
  exists out,
    footnoteRegex_children cs st
    = Ok (out, add_footnotes st (flat_map child_markers cs)).
Proof.
  induction cs as [|child cs IH]; intros st.
  - exists []. cbn [footnoteRegex_children flat_map]. unfold ret.
    rewrite add_footnotes_nil. reflexivity.
  - cbn [footnoteRegex_children flat_map]. unfold child_markers at 1.
    destruct (is_type "text" child) eqn:T1; cbn [negb andb orb].
    + destruct (Nat.eqb (length (split footnoteCaptureRegex (or_empty (value child)))) 1)
        eqn:L.
      * apply Nat.eqb_eq, split_length_one in L. rewrite L. cbn [app].
        destruct (IH st) as (out & Hrun).
        rewrite (bind_ok _ _ _ _ _ Hrun). eexists. reflexivity.
      * assert (Hne : or_empty (value child) <> []).
        { intros E. rewrite E in L. discriminate. }
        rewrite (split_nonempty _ Hne).
        destruct (footnote_parts_split (or_empty (value child)) 0 0 [] 0 st eq_refl)
          as (new & Hnew & _).
        rewrite (bind_ok _ _ _ _ _ Hnew).
        destruct (IH (add_footnotes st (markers_from 0 (or_empty (value child)))))
          as (out & Hrun).
        rewrite (bind_ok _ _ _ _ _ Hrun). unfold ret.
        rewrite add_footnotes_app. eexists. reflexivity.
    + destruct (is_type "html" child) eqn:T2; cbn [negb andb orb].
      * destruct (Nat.eqb (length (split footnoteCaptureRegex (or_empty (value child)))) 1)
          eqn:L.
        -- apply Nat.eqb_eq, split_length_one in L. rewrite L. cbn [app].
           destruct (IH st) as (out & Hrun).
           rewrite (bind_ok _ _ _ _ _ Hrun). eexists. reflexivity.
        -- assert (Hne : or_empty (value child) <> []).
           { intros E. rewrite E in L. discriminate. }
           rewrite (split_nonempty _ Hne).
           destruct (footnote_parts_split (or_empty (value child)) 0 0 [] 0 st eq_refl)
             as (new & Hnew & _).
           rewrite (bind_ok _ _ _ _ _ Hnew).
           destruct (IH (add_footnotes st (markers_from 0 (or_empty (value child)))))
             as (out & Hrun).
           rewrite (bind_ok _ _ _ _ _ Hrun). unfold ret.
           rewrite add_footnotes_app. eexists. reflexivity.
      * destruct (IH st) as (out & Hrun).
        rewrite (bind_ok _ _ _ _ _ Hrun). eexists. reflexivity.
Qed.

End FootnoteCollectorRun.

(* ================================================================== *)
(** * What the passes keep *)
(* ================================================================== *)

(** A property of nodes that holds of fresh text and raw-markup nodes and
    survives the two ways a pass changes a node it keeps is carried from
    the input of every pass to its output. *)
Section PassFrame.

Variable P : node -> Prop.

Hypothesis P_text : forall v, P (text v).
Hypothesis P_html : forall v, P (html v).
Hypothesis P_set_value : forall n v, P n -> P (set_value n v).
Hypothesis P_take_title :
  forall row t row', P row -> take_title row = Some (t, row') -> P row'.

Lemma decode_spaces_keeps n : P n -> P (decode_spaces n).
Proof.
  intros H. unfold decode_spaces.
  destruct ((is_type "text" n || is_type "html" n) && truthy (value n));
    [apply P_set_value |]; exact H.
Qed.

Lemma regex_children_keeps rx tpl cs : forall out,
  Forall P cs -> regex_children rx tpl cs = Ok out -> Forall P out.
Proof.
  induction cs as [|child cs IH]; intros out HP H.
  - inversion H. constructor.
  - inversion HP as [|? ? Hc Hcs]; subst.
    cbn [regex_children] in H.
    destruct (negb (is_type "text" child) && negb (is_type "html" child)
              && negb (is_type "blockquote" child)).
    + apply rbind_inv in H. destruct H as (out' & H1 & H2).
      inversion H2; subst. constructor; [exact Hc | exact (IH _ Hcs H1)].
    + destruct (value child) as [v|]; [| discriminate].
      apply rbind_inv in H. destruct H as (out' & H1 & H2).
      inversion H2; subst. constructor; [| exact (IH _ Hcs H1)].
      destruct (str_eqb (replace rx tpl v) v); [| apply P_html].
      destruct (is_type "html" child); [exact Hc | apply P_text].
Qed.

Lemma Forall_skipn {A} (Q : A -> Prop) n (l : list A) :
  Forall Q l -> Forall Q (skipn n l).
Proof.
  revert l. induction n as [|n IH]; intros l H; [exact H |].
  destruct l as [|x l]; [constructor |].
  inversion H; subst. simpl. apply IH. assumption.
Qed.

Lemma splice_loop_keeps fuel : forall cs out,
  Forall P cs -> splice_loop fuel cs = Ok out -> Forall P out.
Proof.
  induction fuel as [|fuel IH]; intros cs out HP H.
  - destruct cs; [inversion H; constructor | discriminate].
  - destruct cs as [|c1 rest1]; [inversion H; constructor |].
    rewrite splice_loop_S in H.
    apply rbind_inv in H. destruct H as (found & _ & H).
    destruct found as [[[linkText v1] v3]|].
    + apply rbind_inv in H. destruct H as (out' & H1 & H2).
      inversion H2; subst. constructor; [apply P_text |].
      apply (fun HP' => IH _ _ HP' H1).
      destruct (slice_from 1 v3).
      * apply Forall_skipn. exact HP.
      * constructor; [apply P_text | apply Forall_skipn; exact HP].
    + apply rbind_inv in H. destruct H as (out' & H1 & H2).
      inversion H2; subst. inversion HP; subst.
      constructor; [assumption |]. apply (fun HP' => IH _ _ HP' H1). assumption.
Qed.

Lemma merge_from_keeps l : forall last,
  P last -> Forall P l -> Forall P (merge_from last l).
Proof.
  induction l as [|cur l IH]; intros last Hl HP; cbn [merge_from].
  - constructor; [exact Hl | constructor].
  - inversion HP; subst.
    destruct (is_type "text" last && is_type "text" cur).
    + apply IH; [apply P_set_value; exact Hl | assumption].
    + constructor; [exact Hl |]. apply IH; assumption.
Qed.

Lemma merge_text_keeps l : Forall P l -> Forall P (merge_text l).
Proof.
  intros HP. destruct l as [|n l]; [constructor |].
  rewrite merge_text_cons. inversion HP; subst.
  apply merge_from_keeps; assumption.
Qed.

Lemma transformCustomFootnotes_children_keeps cs out :
  Forall P cs -> transformCustomFootnotes_children cs = Ok out -> Forall P out.
Proof.
  intros HP H. unfold transformCustomFootnotes_children in H.
  apply rbind_inv in H. destruct H as (new & H1 & H2).
  inversion H2; subst. apply merge_text_keeps.
  exact (splice_loop_keeps _ _ _ HP H1).
Qed.

Lemma footnote_parts_keeps_bounded n : forall parts i st out st',
  length parts <= n ->
  footnote_parts i parts st = Ok (out, st') -> Forall P out.
Proof.
  induction n as [|n IH]; intros parts i st out st' Hn H.
  - destruct parts; [| simpl in Hn; lia]. inversion H. constructor.
  - destruct parts as [|part parts]; [inversion H; constructor |].
    simpl in Hn. rewrite footnote_parts_cons in H.
    destruct (negb (truthy part)).
    + apply (IH parts) in H; [exact H | lia].
    + destruct (Nat.eqb (i mod 3) 0).
      * run_inv H. constructor; [apply P_text |].
        eapply (IH parts); [lia | exact Hstep].
      * destruct (Nat.eqb (i mod 3) 1).
        -- destruct parts as [|c parts].
           ++ run_inv H. constructor; [apply P_html | constructor].
           ++ run_inv H. constructor; [apply P_html |].
              simpl in Hn. eapply (IH parts); [lia | exact Hstep0].
        -- apply (IH parts) in H; [exact H | lia].
Qed.

Lemma footnote_parts_keeps parts i st out st' :
  footnote_parts i parts st = Ok (out, st') -> Forall P out.
Proof. apply (footnote_parts_keeps_bounded (length parts)). lia. Qed.

Lemma footnoteRegex_children_keeps cs : forall st out st',
  Forall P cs -> footnoteRegex_children cs st = Ok (out, st') -> Forall P out.
Proof.
  induction cs as [|child cs IH]; intros st out st' HP H.
  - inversion H. constructor.
  - inversion HP as [|? ? Hc Hcs]; subst.
    cbn [footnoteRegex_children] in H.
    destruct (negb (is_type "text" child) && negb (is_type "html" child)).
    + run_inv H. constructor; [exact Hc | exact (IH _ _ _ Hcs Hstep)].
    + destruct (Nat.eqb
                  (length (split footnoteCaptureRegex (or_empty (value child))))
                  1).
      * run_inv H. constructor; [exact Hc | exact (IH _ _ _ Hcs Hstep)].
      * run_inv H. apply Forall_app. split.
        -- exact (footnote_parts_keeps _ _ _ _ _ Hstep).
        -- exact (IH _ _ _ Hcs Hstep0).
Qed.

Lemma imgRegex_children_keeps cs : forall st out st',
  Forall P cs -> imgRegex_children cs st = Ok (out, st') -> Forall P out.
Proof.
  induction cs as [|child cs IH]; intros st out st' HP H.
  - inversion H. constructor.
  - inversion HP as [|? ? Hc Hcs]; subst.
    cbn [imgRegex_children] in H.
    destruct (negb (is_type "image" child)).
    + run_inv H. constructor; [exact Hc | exact (IH _ _ _ Hcs Hstep)].
    + run_inv H. constructor; [apply P_html | exact (IH _ _ _ Hcs Hstep2)].
Qed.

Lemma tblCaption_keeps t st cap st' :
  tblCaption t st = Ok (cap, st') -> P cap.
Proof. unfold tblCaption. intros H. run_inv H. apply P_html. Qed.

Lemma tblRegex_children_keeps cs : forall isInTbl isFirstRow t st out st',
  Forall P cs ->
  tblRegex_children isInTbl isFirstRow t cs st = Ok (out, st') ->
  Forall P out.
Proof.
  induction cs as [|child cs IH]; intros isInTbl isFirstRow t st out st' HP H.
  - cbn [tblRegex_children] in H. destruct isInTbl.
    + run_inv H. constructor; [| constructor].
      exact (tblCaption_keeps _ _ _ _ Hstep).
    + inversion H. constructor.
  - inversion HP as [|? ? Hc Hcs]; subst.
    cbn [tblRegex_children] in H.
    destruct (negb (is_type "tableRow" child)).
    + destruct isInTbl.
      * run_inv H. constructor; [exact (tblCaption_keeps _ _ _ _ Hstep) |].
        constructor; [exact Hc | exact (IH _ _ _ _ _ _ Hcs Hstep0)].
      * run_inv H. constructor; [exact Hc | exact (IH _ _ _ _ _ _ Hcs Hstep)].
    + destruct (if isFirstRow then take_title child else None)
        as [[title child']|] eqn:E.
      * run_inv H. constructor; [| exact (IH _ _ _ _ _ _ Hcs Hstep)].
        destruct isFirstRow; [| discriminate].
        exact (P_take_title _ _ _ Hc E).
      * run_inv H. constructor; [exact Hc | exact (IH _ _ _ _ _ _ Hcs Hstep)].
Qed.

Lemma rx_pass_keeps rx tpl cs st out st' :
  Forall P cs -> rx_pass rx tpl cs st = Ok (out, st') ->
  Forall P out /\ st' = st.
Proof.
  intros HP H. unfold rx_pass in H. apply lift_inv in H.
  destruct H as [H ->]. split; [| reflexivity].
  exact (regex_children_keeps _ _ _ _ HP H).
Qed.

Lemma visitor_children_keeps cs st out st' :
  Forall P cs -> visitor_children cs st = Ok (out, st') -> Forall P out.
Proof.
  intros HP H. unfold visitor_children in H.
  assert (H0 : Forall P (map decode_spaces cs)).
  { apply Forall_forall. intros n Hin. apply in_map_iff in Hin.
    destruct Hin as (m & <- & Hm). apply decode_spaces_keeps.
    rewrite Forall_forall in HP. exact (HP m Hm). }
  revert H0 H. generalize (map decode_spaces cs). intros cs0 H0 H.
  run_inv H.
  apply lift_inv in Hstep. destruct Hstep as [Hstep ->].
  apply (transformCustomFootnotes_children_keeps _ _ H0) in Hstep.
  repeat match goal with
  | HP' : Forall P ?l, Hs : rx_pass _ _ ?l _ = Ok _ |- _ =>
    apply (rx_pass_keeps _ _ _ _ _ _ HP') in Hs; destruct Hs as [Hs ->]
  | HP' : Forall P ?l, Hs : footnoteRegex_children ?l _ = Ok _ |- _ =>
    apply (footnoteRegex_children_keeps _ _ _ _ HP') in Hs
  | HP' : Forall P ?l, Hs : imgRegex_children ?l _ = Ok _ |- _ =>
    apply (imgRegex_children_keeps _ _ _ _ HP') in Hs
  | HP' : Forall P ?l, Hs : tblRegex_children _ _ _ ?l _ = Ok _ |- _ =>
    apply (tblRegex_children_keeps _ _ _ _ _ _ _ HP') in Hs
  end.
  assumption.
Qed.

End PassFrame.

(* ================================================================== *)
(** * The state along the passes *)
(* ================================================================== *)

Section StateAlongPasses.

Lemma extends_refl st : extends st st.
Proof.
  exists []. simpl. rewrite N.add_0_r, List.app_nil_r. split; reflexivity.
Qed.

Lemma extends_trans st1 st2 st3 :
  extends st1 st2 -> extends st2 st3 -> extends st1 st3.
Proof.
  intros (ms1 & N1 & C1) (ms2 & N2 & C2). exists (ms1 ++ ms2).
  rewrite N2, C2, N1, C1, numbered_app, length_app, <- app_assoc.
  split; [lia | reflexivity].
Qed.

Lemma extends_add_footnotes st ms : extends st (add_footnotes st ms).
Proof. exists ms. split; reflexivity. Qed.

Lemma extends_same st st' :
  footNoteNum st' = footNoteNum st ->
  collectedFootnotes st' = collectedFootnotes st ->
  extends st st'.
Proof.
  intros H1 H2. exists []. simpl.
  rewrite N.add_0_r, List.app_nil_r. split; assumption.
Qed.

Lemma footnoteRegex_children_state cs st out st' :
  footnoteRegex_children cs st = Ok (out, st') ->
  st' = add_footnotes st (flat_map child_markers cs).
Proof.
  intros H. destruct (footnoteRegex_children_spec cs st) as (out0 & H0).
  rewrite H0 in H. inversion H. reflexivity.
Qed.

Lemma imgRegex_children_state cs : forall st out st',
  imgRegex_children cs st = Ok (out, st') ->
  st' = with_imgNum st (imgNum st + count_images cs).
Proof.
  induction cs as [|child cs IH]; intros st out st' H.
  - inversion H. unfold with_imgNum, count_images. simpl.
    rewrite N.add_0_r. destruct st'; reflexivity.
  - rewrite count_images_cons. cbn [imgRegex_children] in H.
    destruct (is_type "image" child); cbn [negb] in H.
    + run_inv H.
      apply lift_inv in Hstep0, Hstep1.
      destruct Hstep0 as [_ ->], Hstep1 as [_ ->].
      unfold incr_imgNum in Hstep. inversion Hstep; subst.
      rewrite (IH _ _ _ Hstep2). unfold with_imgNum.
      cbn [imgNum tblNum footNoteNum collectedFootnotes].
      rewrite N.add_assoc. reflexivity.
    + run_inv H. rewrite (IH _ _ _ Hstep), N.add_0_l. reflexivity.
Qed.

Lemma tblCaption_state t st cap st' :
  tblCaption t st = Ok (cap, st') ->
  imgNum st' = imgNum st /\ footNoteNum st' = footNoteNum st /\
  collectedFootnotes st' = collectedFootnotes st.
Proof.
  unfold tblCaption. intros H. run_inv H.
  apply lift_inv in Hstep0. destruct Hstep0 as [_ ->].
  unfold incr_tblNum in Hstep. inversion Hstep; subst.
  repeat split; reflexivity.
Qed.

Lemma tblRegex_children_state cs : forall isInTbl isFirstRow t st out st',
  tblRegex_children isInTbl isFirstRow t cs st = Ok (out, st') ->
  imgNum st' = imgNum st /\ footNoteNum st' = footNoteNum st /\
  collectedFootnotes st' = collectedFootnotes st.
Proof.
  induction cs as [|child cs IH]; intros isInTbl isFirstRow t st out st' H.
  - cbn [tblRegex_children] in H. destruct isInTbl.
    + run_inv H. exact (tblCaption_state _ _ _ _ Hstep).
    + inversion H. repeat split; reflexivity.
  - cbn [tblRegex_children] in H.
    destruct (negb (is_type "tableRow" child)).
    + destruct isInTbl.
      * run_inv H.
        destruct (tblCaption_state _ _ _ _ Hstep) as (A1 & A2 & A3).
        destruct (IH _ _ _ _ _ _ Hstep0) as (B1 & B2 & B3).
        repeat split; congruence.
      * run_inv H. exact (IH _ _ _ _ _ _ Hstep).
    + destruct (if isFirstRow then take_title child else None)
        as [[title child']|].
      * run_inv H. exact (IH _ _ _ _ _ _ Hstep).
      * run_inv H. exact (IH _ _ _ _ _ _ Hstep).
Qed.

Lemma rx_pass_state rx tpl cs st out st' :
  rx_pass rx tpl cs st = Ok (out, st') -> st' = st.
Proof. unfold rx_pass. intros H. apply lift_inv in H. exact (proj2 H). Qed.

End StateAlongPasses.

Section StateAlongVisit.

Lemma not_image_text v : not_image (text v).
Proof. reflexivity. Qed.

Lemma not_image_html v : not_image (html v).
Proof. reflexivity. Qed.

Lemma not_image_set_value n v : not_image n -> not_image (set_value n v).
Proof. intros H. exact H. Qed.

Lemma take_title_type row t row' :
  take_title row = Some (t, row') -> type row' = type row.
Proof.
  unfold take_title.
  destruct (children row) as [[|firstCell cells]|]; try discriminate.
  destruct (children firstCell) as [[|c0 cs0]|]; intros H; inversion H;
    reflexivity.
Qed.

Lemma not_image_take_title row t row' :
  not_image row -> take_title row = Some (t, row') -> not_image row'.
Proof.
  unfold not_image, is_type. intros H E.
  rewrite (take_title_type _ _ _ E). exact H.
Qed.

Lemma count_images_none cs : Forall not_image cs -> count_images cs = 0%N.
Proof.
  induction 1 as [|c cs Hc _ IH]; [reflexivity |].
  rewrite count_images_cons, Hc, IH. reflexivity.
Qed.

(** Every image of the list is replaced by the pass. *)
Lemma imgRegex_children_no_image cs : forall st out st',
  imgRegex_children cs st = Ok (out, st') -> Forall not_image out.
Proof.
  induction cs as [|child cs IH]; intros st out st' H.
  - inversion H. constructor.
  - cbn [imgRegex_children] in H.
    destruct (is_type "image" child) eqn:T; cbn [negb] in H.
    + run_inv H. constructor; [reflexivity | exact (IH _ _ _ Hstep2)].
    + run_inv H. constructor; [exact T | exact (IH _ _ _ Hstep)].
Qed.

(** Splits a successful run of the visitor into its passes and rewrites
    the states that the stateless passes leave alone. *)
Ltac visitor_inv H :=
  unfold visitor_children in H; run_inv H;
  repeat match goal with
  | Hs : lift _ _ = Ok _ |- _ =>
    apply lift_inv in Hs; destruct Hs as [Hs ->]
  end.

Lemma visitor_children_extends cs st out st' :
  visitor_children cs st = Ok (out, st') -> extends st st'.
Proof.
  intros H. visitor_inv H.
  repeat match goal with
  | Hs : rx_pass _ _ _ _ = Ok _ |- _ => apply rx_pass_state in Hs; subst
  end.
  match goal with
  | Hf : footnoteRegex_children _ _ = Ok _,
    Hi : imgRegex_children _ _ = Ok _,
    Ht : tblRegex_children _ _ _ _ _ = Ok _ |- _ =>
    apply footnoteRegex_children_state in Hf;
    apply imgRegex_children_state in Hi;
    apply tblRegex_children_state in Ht;
    destruct Ht as (_ & T2 & T3); subst
  end.
  eapply extends_trans; [apply extends_add_footnotes |].
  apply extends_same; [rewrite T2 | rewrite T3]; reflexivity.
Qed.

Lemma visitor_children_no_image cs st out st' :
  visitor_children cs st = Ok (out, st') -> Forall not_image out.
Proof.
  intros H. visitor_inv H.
  match goal with
  | Hi : imgRegex_children _ _ = Ok _ |- _ =>
    apply imgRegex_children_no_image in Hi
  end.
  repeat match goal with
  | HP' : Forall not_image ?l, Hs : rx_pass _ _ ?l _ = Ok _ |- _ =>
    apply (rx_pass_keeps not_image not_image_text not_image_html
             _ _ _ _ _ _ HP') in Hs;
    destruct Hs as [Hs ->]
  | HP' : Forall not_image ?l, Hs : tblRegex_children _ _ _ ?l _ = Ok _ |- _ =>
    apply (tblRegex_children_keeps not_image not_image_html
             not_image_take_title _ _ _ _ _ _ _ HP') in Hs
  end.
  assumption.
Qed.

(** On a list without images the image counter stays where it is. *)
Lemma visitor_children_imgNum cs st out st' :
  Forall not_image cs ->
  visitor_children cs st = Ok (out, st') -> imgNum st' = imgNum st.
Proof.
  intros HP H.
  assert (H0 : Forall not_image (map decode_spaces cs)).
  { apply Forall_forall. intros n Hin. apply in_map_iff in Hin.
    destruct Hin as (m & <- & Hm).
    apply (decode_spaces_keeps not_image not_image_set_value).
    rewrite Forall_forall in HP. exact (HP m Hm). }
  clear HP. visitor_inv H.
  apply (transformCustomFootnotes_children_keeps not_image not_image_text
           not_image_set_value _ _ H0) in Hstep.
  repeat match goal with
  | HP' : Forall not_image ?l, Hs : rx_pass _ _ ?l ?s = Ok (_, ?s') |- _ =>
    pose proof (rx_pass_state _ _ _ _ _ _ Hs); subst s';
    apply (rx_pass_keeps not_image not_image_text not_image_html
             _ _ _ _ _ _ HP') in Hs;
    destruct Hs as [Hs _]
  end.
  match goal with
  | HP' : Forall not_image ?l, Hf : footnoteRegex_children ?l _ = Ok _ |- _ =>
    pose proof (footnoteRegex_children_state _ _ _ _ Hf);
    apply (footnoteRegex_children_keeps not_image not_image_text
             not_image_html _ _ _ _ HP') in Hf
  end.
  match goal with
  | HP' : Forall not_image ?l, Hi : imgRegex_children ?l _ = Ok _ |- _ =>
    apply imgRegex_children_state in Hi;
    rewrite (count_images_none _ HP') in Hi
  end.
  repeat match goal with
  | Hs : rx_pass _ _ _ _ = Ok _ |- _ => apply rx_pass_state in Hs
  end.
  match goal with
  | Ht : tblRegex_children _ _ _ _ _ = Ok _ |- _ =>
    apply tblRegex_children_state in Ht; destruct Ht as (T1 & _ & _)
  end.
  subst. rewrite T1. unfold with_imgNum, add_footnotes. cbn [imgNum].
  apply N.add_0_r.
Qed.

Lemma mapM_extends (f : node -> M node) l :
  (forall a st b st', f a st = Ok (b, st') -> extends st st') ->
  forall st bs st', mapM f l st = Ok (bs, st') -> extends st st'.
Proof.
  intros Hf. induction l as [|a l IH]; intros st bs st' H.
  - inversion H. apply extends_refl.
  - cbn [mapM] in H. run_inv H.
    exact (extends_trans _ _ _ (Hf _ _ _ _ Hstep) (IH _ _ _ Hstep0)).
Qed.

Lemma visitor_extends n st n' st' :
  visitor n st = Ok (n', st') -> extends st st'.
Proof.
  unfold visitor. destruct (children n) as [cs|].
  - intros H. run_inv H. exact (visitor_children_extends _ _ _ _ Hstep).
  - intros H. inversion H. apply extends_refl.
Qed.

(** The walk only ever adds footnotes at the end of the store. *)
Lemma visit_extends fuel : forall n st n' st',
  visit fuel n st = Ok (n', st') -> extends st st'.
Proof.
  induction fuel as [|fuel IH]; intros n st n' st' H; [discriminate |].
  cbn [visit] in H. apply bind_inv in H.
  destruct H as (n1 & st1 & H1 & H2).
  assert (E1 : extends st st1).
  { destruct (is_visited n).
    - exact (visitor_extends _ _ _ _ H1).
    - inversion H1. apply extends_refl. }
  apply (extends_trans _ _ _ E1).
  destruct (children n1) as [cs|].
  - run_inv H2. exact (mapM_extends (visit fuel) cs IH _ _ _ Hstep).
  - inversion H2. apply extends_refl.
Qed.

End StateAlongVisit.

(* ================================================================== *)
(** * The bound of the walk *)
(* ================================================================== *)

Section WalkBound.

Lemma bind_throw_inv {A B} (c : M A) (f : A -> M B) st e :
  bind c f st = Throw e ->
  c st = Throw e \/ exists a st', c st = Ok (a, st') /\ f a st' = Throw e.
Proof.
  unfold bind. destruct (c st) as [[a st']|e'].
  - intros H. right. exists a, st'. split; [reflexivity | exact H].
  - intros H. left. inversion H. reflexivity.
Qed.

Lemma regex_children_exn rx tpl cs : forall e,
  regex_children rx tpl cs = Throw e -> e = TypeError.
Proof.
  induction cs as [|child cs IH]; intros e H; [discriminate |].
  cbn [regex_children] in H.
  destruct (negb (is_type "text" child) && negb (is_type "html" child)
            && negb (is_type "blockquote" child)).
  - destruct (regex_children rx tpl cs); [discriminate |].
    inversion H; subst. apply IH. reflexivity.
  - destruct (value child); [| inversion H; reflexivity].
    destruct (regex_children rx tpl cs); [discriminate |].
    inversion H; subst. apply IH. reflexivity.
Qed.

Lemma rx_pass_exn rx tpl cs st e :
  rx_pass rx tpl cs st = Throw e -> e <> OutOfFuel.
Proof.
  unfold rx_pass, lift. intros H.
  destruct (regex_children rx tpl cs) eqn:E; [discriminate |].
  inversion H; subst. rewrite (regex_children_exn _ _ _ _ E). discriminate.
Qed.

Lemma numberToChinese_exn num e :
  numberToChinese num = Throw e -> e = RangeExn.
Proof.
  unfold numberToChinese.
  destruct (negb (isInteger num) || num_lt num 1 || num_gt num 99).
  - intros H. inversion H. reflexivity.
  - destruct (int_value num <? 10)%Z; discriminate.
Qed.

Lemma imgRegex_children_exn cs : forall st e,
  imgRegex_children cs st = Throw e -> e <> OutOfFuel.
Proof.
  induction cs as [|child cs IH]; intros st e H; [discriminate |].
  cbn [imgRegex_children] in H.
  destruct (negb (is_type "image" child)).
  - apply bind_throw_inv in H. destruct H as [H | (a & st' & _ & H)];
      [exact (IH _ _ H) | discriminate].
  - apply bind_throw_inv in H. destruct H as [H | (n & st1 & _ & H)];
      [discriminate |].
    apply bind_throw_inv in H. destruct H as [H | (cn & st2 & _ & H)].
    { unfold lift in H.
      destruct (numberToChinese (of_N n)) eqn:E; [discriminate |].
      inversion H; subst. rewrite (numberToChinese_exn _ _ E). discriminate. }
    apply bind_throw_inv in H. destruct H as [H | (u & st3 & _ & H)].
    { unfold lift in H. destruct (url child); [discriminate |].
      inversion H. discriminate. }
    apply bind_throw_inv in H. destruct H as [H | (a & st' & _ & H)];
      [exact (IH _ _ H) | discriminate].
Qed.

Lemma tblCaption_exn t st e : tblCaption t st = Throw e -> e <> OutOfFuel.
Proof.
  unfold tblCaption. intros H.
  apply bind_throw_inv in H. destruct H as [H | (n & st1 & _ & H)];
    [discriminate |].
  apply bind_throw_inv in H. destruct H as [H | (cn & st2 & _ & H)];
    [| discriminate].
  unfold lift in H.
  destruct (numberToChinese (of_N n)) eqn:E; [discriminate |].
  inversion H; subst. rewrite (numberToChinese_exn _ _ E). discriminate.
Qed.

Lemma tblRegex_children_exn cs : forall isInTbl isFirstRow t st e,
  tblRegex_children isInTbl isFirstRow t cs st = Throw e -> e <> OutOfFuel.
Proof.
  induction cs as [|child cs IH]; intros isInTbl isFirstRow t st e H.
  - cbn [tblRegex_children] in H. destruct isInTbl; [| discriminate].
    apply bind_throw_inv in H. destruct H as [H | (a & st' & _ & H)];
      [exact (tblCaption_exn _ _ _ H) | discriminate].
  - cbn [tblRegex_children] in H.
    destruct (negb (is_type "tableRow" child)).
    + destruct isInTbl.
      * apply bind_throw_inv in H. destruct H as [H | (a & st' & _ & H)];
          [exact (tblCaption_exn _ _ _ H) |].
        apply bind_throw_inv in H. destruct H as [H | (a' & st'' & _ & H)];
          [exact (IH _ _ _ _ _ H) | discriminate].
      * apply bind_throw_inv in H. destruct H as [H | (a & st' & _ & H)];
          [exact (IH _ _ _ _ _ H) | discriminate].
    + destruct (if isFirstRow then take_title child else None)
        as [[title child']|];
        apply bind_throw_inv in H; destruct H as [H | (a & st' & _ & H)];
        solve [exact (IH _ _ _ _ _ H) | discriminate].
Qed.

Lemma visitor_children_exn cs st e :
  visitor_children cs st = Throw e -> e <> OutOfFuel.
Proof.
  unfold visitor_children. intros H.
  apply bind_throw_inv in H. destruct H as [H | (a & st' & _ & H)].
  { unfold lift, transformCustomFootnotes_children in H.
    destruct (splice_loop _ _) eqn:E; cbn [rbind] in H; [discriminate |].
    inversion H; subst. intros ->.
    exact (splice_loop_no_fuel_error (length (map decode_spaces cs))
             _ _ (le_n _) (le_n _) E). }
  repeat (apply bind_throw_inv in H;
          destruct H as [H | (?a & ?st' & _ & H)];
          [ solve [ exact (rx_pass_exn _ _ _ _ _ H)
                  | exact (imgRegex_children_exn _ _ _ H)
                  | exact (tblRegex_children_exn _ _ _ _ _ _ H)
                  | match type of H with
                    | footnoteRegex_children ?l ?s = _ =>
                      destruct (footnoteRegex_children_spec l s) as (? & E);
                      rewrite E in H; discriminate
                    end ] | ]).
  exact (rx_pass_exn _ _ _ _ _ H).
Qed.

End WalkBound.

Section WalkBoundHeight.

Lemma height_pos n : 1 <= height n.
Proof. destruct n as [t v u a [cs|]]; simpl; lia. Qed.

Lemma height_children n cs c :
  children n = Some cs -> In c cs -> S (height c) <= height n.
Proof.
  destruct n as [t v u a cs0]. simpl. intros ->.
  induction cs as [|d cs IH]; intros Hin; [destruct Hin |].
  cbn [map fold_right]. destruct Hin as [<- | Hin].
  - lia.
  - specialize (IH Hin). cbn [height] in IH. lia.
Qed.

Lemma height_set_value n v : height (set_value n v) = height n.
Proof. destruct n; reflexivity. Qed.

Lemma take_title_height row t row' :
  take_title row = Some (t, row') -> height row' = height row.
Proof.
  unfold take_title.
  destruct row as [rt rv ru ra [[|firstCell cells]|]]; try discriminate.
  cbn [children].
  destruct firstCell as [ft fv fu fa [[|c0 cs0]|]]; cbn [children];
    intros H; inversion H; try reflexivity.
  unfold set_children. cbn [type value url alt children height map fold_right].
  rewrite height_set_value. reflexivity.
Qed.

Lemma visitor_children_nil st : visitor_children [] st = Ok ([], st).
Proof. reflexivity. Qed.

(** The visitor does not make the list of children deeper. *)
Lemma visitor_children_height h cs st out st' :
  1 <= h ->
  Forall (fun c => height c <= h) cs ->
  visitor_children cs st = Ok (out, st') ->
  Forall (fun c => height c <= h) out.
Proof.
  intros Hh. apply visitor_children_keeps.
  - intros v. exact Hh.
  - intros v. exact Hh.
  - intros n v H. rewrite height_set_value. exact H.
  - intros row t row' H E. rewrite (take_title_height _ _ _ E). exact H.
Qed.

Lemma mapM_no_fuel_error (f : node -> M node) l :
  (forall a st, In a l -> f a st <> Throw OutOfFuel) ->
  forall st, mapM f l st <> Throw OutOfFuel.
Proof.
  induction l as [|a l IH]; intros Hf st; [discriminate |].
  cbn [mapM]. intros H.
  apply bind_throw_inv in H. destruct H as [H | (b & st1 & _ & H)].
  - exact (Hf a st (or_introl eq_refl) H).
  - apply bind_throw_inv in H. destruct H as [H | (bs & st2 & _ & H)].
    + apply (IH (fun a' st' Hin => Hf a' st' (or_intror Hin)) st1 H).
    + discriminate.
Qed.

(** A bound of at least the height of the tree is never exhausted. *)
Lemma visit_no_fuel_error fuel : forall n st,
  height n <= fuel -> visit fuel n st <> Throw OutOfFuel.
Proof.
  induction fuel as [|fuel IH]; intros n st Hh.
  - pose proof (height_pos n). lia.
  - cbn [visit]. intros H.
    apply bind_throw_inv in H. destruct H as [H | (n1 & st1 & H1 & H)].
    + destruct (is_visited n); [| discriminate].
      unfold visitor in H. destruct (children n) as [cs|]; [| discriminate].
      apply bind_throw_inv in H. destruct H as [H | (a & st' & _ & H)];
        [exact (visitor_children_exn _ _ _ H eq_refl) | discriminate].
    + assert (Hkids : forall cs1, children n1 = Some cs1 ->
                Forall (fun c => height c <= fuel) cs1).
      { intros cs1 E1.
        assert (Hn : forall cs, children n = Some cs ->
                  Forall (fun c => height c <= fuel) cs).
        { intros cs E. apply Forall_forall. intros c Hin.
          pose proof (height_children n cs c E Hin). lia. }
        destruct (is_visited n).
        - unfold visitor in H1. destruct (children n) as [cs|] eqn:E.
          + run_inv H1. cbn [children] in E1. inversion E1; subst.
            destruct cs as [|c cs].
            * rewrite visitor_children_nil in Hstep. inversion Hstep.
              constructor.
            * apply (visitor_children_height fuel _ _ _ _) in Hstep;
                [exact Hstep | | exact (Hn _ eq_refl)].
              pose proof (Hn _ eq_refl) as F. inversion F; subst.
              pose proof (height_pos c). lia.
          + inversion H1; subst. congruence.
        - inversion H1; subst. exact (Hn _ E1). }
      destruct (children n1) as [cs1|]; [| discriminate].
      apply bind_throw_inv in H. destruct H as [H | (a & st' & _ & H)];
        [| discriminate].
      apply (mapM_no_fuel_error (visit fuel) cs1) in H; [exact H |].
      intros a st' Hin. apply IH.
      pose proof (Hkids cs1 eq_refl) as F. rewrite Forall_forall in F.
      exact (F a Hin).
Qed.

Lemma markdownReplace_run_no_fuel_error tree :
  markdownReplace_run tree <> Throw OutOfFuel.
Proof.
  unfold markdownReplace_run.
  destruct (visit (height tree) tree initial_state) as [[tree' st]|e] eqn:E.
  - unfold finalize. destruct (children tree'); cbn [rbind]; discriminate.
  - intros H. inversion H; subst.
    exact (visit_no_fuel_error _ _ _ (le_n _) E).
Qed.

End WalkBoundHeight.

(* ================================================================== *)
(** * Footnote numbers *)
(* ================================================================== *)

Section FootnoteNumbers.






Lemma run_final_state tree tree' st :
  markdownReplace_run tree = Ok (tree', st) ->
  extends initial_state st /\
  exists tree1 cs,
    visit (height tree) tree initial_state = Ok (tree1, st) /\
    children tree1 = Some cs /\
    tree' = set_children tree1
              (Some (trailing_mark cs ++ footnoteSection (collectedFootnotes st))).
Proof.
  unfold markdownReplace_run.
  destruct (visit (height tree) tree initial_state) as [[tree1 st1]|e] eqn:E;
    [| discriminate].
  intros H. apply rbind_inv in H. destruct H as (t & H1 & H2).
  inversion H2; subst. split; [exact (visit_extends _ _ _ _ _ E) |].
  unfold finalize in H1. destruct (children tree1) as [cs|] eqn:C;
    [| discriminate].
  inversion H1; subst. exists tree1, cs.
  split; [reflexivity |]. split; [exact C | reflexivity].
Qed.

End FootnoteNumbers.

Section FootnoteOrder.

Lemma split_footnote_parts (v : jsstring) st :
  exists out,
    footnote_parts 0 (split footnoteCaptureRegex v) st
      = Ok (out, add_footnotes st (markers v)) /\
    filter (is_type "html") out
      = map (fun f => html (footnoteReference (num f)))
            (numbered (footNoteNum st) (markers v)).
Proof.
  destruct v as [|c v].
  - exists []. change (markers []) with (@nil jsstring).
    rewrite add_footnotes_nil. split; reflexivity.
  - exact (footnote_parts_split (c :: v) 0 0 [] 0 st eq_refl).
Qed.

Lemma markers_from_content s : forall skip c,
  In c (markers_from skip s) -> reserved c = false /\ ~ In (chr "]") c.
Proof.
  induction s as [|d s IH]; intros skip c Hin.
  - destruct skip; destruct Hin.
  - destruct skip as [|n]; cbn [markers_from] in Hin; [| exact (IH _ _ Hin)].
    destruct (marker_at (d :: s)) as [[m post]|] eqn:E; [| exact (IH _ _ Hin)].
    destruct Hin as [<- | Hin]; [| exact (IH _ _ Hin)].
    apply marker_at_content in E. exact (proj2 E).
Qed.

Lemma run_footnote_section tree tree' st :
  markdownReplace_run tree = Ok (tree', st) ->
  exists ms body,
    collectedFootnotes st = numbered 0 ms /\
    footNoteNum st = N.of_nat (length ms) /\
    children tree' = Some (body ++ footnoteSection (numbered 0 ms)).
Proof.
  intros H. apply run_final_state in H.
  destruct H as ((ms & Hn & Hc) & tree1 & cs & _ & _ & ->).
  cbn [initial_state footNoteNum collectedFootnotes app] in Hn, Hc.
  exists ms, (trailing_mark cs). rewrite Hc.
  split; [reflexivity |]. split; [rewrite Hn; lia | reflexivity].
Qed.

End FootnoteOrder.

(** C1. The Footnote Collector numbers the markers in the order it meets
    them: in one text from left to right, in a sibling list child by child,
    and along the walk node by node, since every pass only appends to the
    store.  A marker is an open bracket and a caret followed by a content
    that runs to the first close bracket and does not begin with 图 or 表.
    Each marker gets the next number and one reference link, in that
    order; a paragraph with the markers of a and then b gives 1 to a and 2
    to b.  When the walk is over the footnote section is the separator
    followed by exactly one block per collected footnote, in collection
    order, each with the content as it was written. *)
Theorem footnote_collection_order :
  (forall (v : jsstring) st,
     exists out,
       footnote_parts 0 (split footnoteCaptureRegex v) st
         = Ok (out, add_footnotes st (markers v)) /\
       filter (is_type "html") out
         = map (fun f => html (footnoteReference (num f)))
               (numbered (footNoteNum st) (markers v))) /\
  (forall cs st,
     exists out,
       footnoteRegex_children cs st
       = Ok (out, add_footnotes st (flat_map child_markers cs))) /\
  (forall v c, In c (markers v) -> reserved c = false /\ ~ In (chr "]") c) /\
  (forall fuel n st n' st', visit fuel n st = Ok (n', st') -> extends st st') /\
  (forall tree tree' st,
     markdownReplace_run tree = Ok (tree', st) ->
     exists ms body,
       collectedFootnotes st = numbered 0 ms /\
       footNoteNum st = N.of_nat (length ms) /\
       children tree' = Some (body ++ footnoteSection (numbered 0 ms))) /\
  (forall tree, markdownReplace_run tree <> Throw OutOfFuel) /\
  (forall f fs,
     footnoteSection (f :: fs) = footnoteSeparator :: map footnoteBlock (f :: fs)) /\
  footnoteSection [] = [] /\
  (forall n m,
     footnoteBlock (Footnote n (Some m))
     = html (litq "<table class=`comment`><tr class=`comment`><td class=`comment`><a href=`#comment_forward_link_"
             ++ dec n ++ litq "` id=`comment_backward_link_" ++ dec n
             ++ litq "`>[" ++ dec n
             ++ litq "]</a></td><td class=`comment`>" ++ m
             ++ lit "</td></tr></table>")) /\
  markers (lit "x[^a] then [^b].") = [lit "a"; lit "b"] /\
  markers (lit "[^图1] [^表2] [^n]") = [lit "n"] /\
  markdownReplace_run two_markers
    = Ok (root [paragraph [text (lit "x"); html (footnoteReference 1);
                           text (lit " then "); html (footnoteReference 2);
                           text (lit ".¶")];
                footnoteSeparator;
                footnoteBlock (Footnote 1 (Some (lit "a")));
                footnoteBlock (Footnote 2 (Some (lit "b")))],
          State 0 0 2 [Footnote 1 (Some (lit "a")); Footnote 2 (Some (lit "b"))]) /\
  (exists tree',
     markdownReplace_run spread_markers
     = Ok (tree', State 0 1 3 [Footnote 1 (Some (lit "one"));
                               Footnote 2 (Some (lit "two"));
                               Footnote 3 (Some (lit "three"))])).
Proof.
  split; [exact split_footnote_parts |].
  split; [exact footnoteRegex_children_spec |].
  split; [intros v c; apply markers_from_content |].
  split; [exact visit_extends |].
  split; [exact run_footnote_section |].
  split; [exact markdownReplace_run_no_fuel_error |].
  split; [reflexivity |].
  split; [reflexivity |].
  split; [reflexivity |].
  split; [vm_compute; reflexivity |].
  split; [vm_compute; reflexivity |].
  split; [vm_compute; reflexivity |].
  eexists. vm_compute. reflexivity.
Qed.

Lemma footnote_collection_order_witness :
  exists ms body,
    collectedFootnotes
      (State 0 0 2 [Footnote 1 (Some (lit "a")); Footnote 2 (Some (lit "b"))])
      = numbered 0 ms /\
    footNoteNum
      (State 0 0 2 [Footnote 1 (Some (lit "a")); Footnote 2 (Some (lit "b"))])
      = N.of_nat (length ms) /\
    children
      (root [paragraph [text (lit "x"); html (footnoteReference 1);
                        text (lit " then "); html (footnoteReference 2);
                        text (lit ".¶")];
             footnoteSeparator;
             footnoteBlock (Footnote 1 (Some (lit "a")));
             footnoteBlock (Footnote 2 (Some (lit "b")))])
      = Some (body ++ footnoteSection (numbered 0 ms)).
Proof.
  apply (proj1 (proj2 (proj2 (proj2 (proj2 footnote_collection_order))))
           two_markers).
  vm_compute. reflexivity.
Defined.



(* ================================================================== *)
(** * A second run *)
(* ================================================================== *)

Section SecondRun.

Lemma image_free_eq n :
  image_free n <->
  match children n with
  | Some cs => (is_visited n = true -> Forall not_image cs)
               /\ Forall image_free cs
  | None => True
  end.
Proof.
  destruct n as [t v u a [cs|]]; cbn [image_free children]; [| tauto].
  assert (G : (fix all (l : list node) : Prop :=
                 match l with
                 | [] => True
                 | c :: l' => image_free c /\ all l'
                 end) cs <-> Forall image_free cs).
  { induction cs as [|c cs IH].
    - split; [constructor | trivial].
    - split.
      + intros [H1 H2]. constructor; [exact H1 | apply IH; exact H2].
      + intros H. inversion H; subst. split; [assumption | apply IH; assumption]. }
  rewrite G. tauto.
Qed.

Lemma image_free_leaf n : children n = None -> image_free n.
Proof. intros E. apply image_free_eq. rewrite E. exact I. Qed.

Lemma image_free_set_value n v : image_free n -> image_free (set_value n v).
Proof.
  intros H. apply image_free_eq in H. apply image_free_eq.
  destruct n as [t v0 u a cs]. exact H.
Qed.

Lemma image_free_set_children n cs :
  (is_visited n = true -> Forall not_image cs) ->
  Forall image_free cs ->
  image_free (set_children n (Some cs)).
Proof.
  intros H1 H2. apply image_free_eq.
  destruct n as [t v u a cs0]. split; assumption.
Qed.

Lemma not_image_same_type n m : type m = type n -> not_image n -> not_image m.
Proof. unfold not_image, is_type. intros ->. trivial. Qed.

Lemma image_free_take_title row t row' :
  image_free row -> take_title row = Some (t, row') -> image_free row'.
Proof.
  intros H E. unfold take_title in E. apply image_free_eq in H.
  destruct (children row) as [[|firstCell cells]|] eqn:C; try discriminate.
  destruct H as [Hv Hf]. inversion Hf as [|? ? Hfirst Hcells]; subst.
  destruct (children firstCell) as [[|c0 cs0]|] eqn:C1.
  - inversion E; subst. apply image_free_eq. rewrite C. split; assumption.
  - inversion E; subst. apply image_free_eq in Hfirst. rewrite C1 in Hfirst.
    destruct Hfirst as [Hv1 Hf1]. inversion Hf1 as [|? ? Hc0 Hcs0]; subst.
    apply image_free_set_children.
    + intros V. specialize (Hv V). inversion Hv; subst.
      constructor; [| assumption].
      destruct firstCell; assumption.
    + constructor; [| assumption].
      apply image_free_set_children.
      * intros V. specialize (Hv1 V). inversion Hv1; subst.
        constructor; [| assumption]. destruct c0; assumption.
      * constructor; [| assumption]. apply image_free_set_value. assumption.
  - inversion E; subst. apply image_free_eq. rewrite C. split; assumption.
Qed.

Lemma visitor_children_image_free cs st out st' :
  Forall image_free cs ->
  visitor_children cs st = Ok (out, st') -> Forall image_free out.
Proof.
  apply visitor_children_keeps.
  - intros v. apply image_free_leaf. reflexivity.
  - intros v. apply image_free_leaf. reflexivity.
  - exact image_free_set_value.
  - exact image_free_take_title.
Qed.

Lemma mapM_Forall2 (f : node -> M node) l : forall st bs st',
  mapM f l st = Ok (bs, st') ->
  Forall2 (fun a b => exists s s', f a s = Ok (b, s')) l bs.
Proof.
  induction l as [|a l IH]; intros st bs st' H.
  - inversion H. constructor.
  - cbn [mapM] in H. run_inv H. constructor.
    + eexists. eexists. exact Hstep.
    + exact (IH _ _ _ Hstep0).
Qed.

Lemma visitor_type n st n' st' : visitor n st = Ok (n', st') -> type n' = type n.
Proof.
  unfold visitor. destruct (children n).
  - intros H. run_inv H. destruct n; reflexivity.
  - intros H. inversion H. reflexivity.
Qed.

Lemma visit_type fuel n st n' st' :
  visit fuel n st = Ok (n', st') -> type n' = type n.
Proof.
  destruct fuel as [|fuel]; [discriminate |].
  cbn [visit]. intros H. apply bind_inv in H.
  destruct H as (n1 & st1 & H1 & H2).
  assert (T : type n1 = type n).
  { destruct (is_visited n); [exact (visitor_type _ _ _ _ H1) |].
    inversion H1. reflexivity. }
  destruct (children n1).
  - run_inv H2. rewrite <- T. destruct n1; reflexivity.
  - inversion H2; subst. exact T.
Qed.

(** After the walk no visited node has an image among its children. *)
Lemma visit_image_free fuel : forall n st n' st',
  visit fuel n st = Ok (n', st') -> image_free n'.
Proof.
  induction fuel as [|fuel IH]; intros n st n' st' H; [discriminate |].
  cbn [visit] in H. apply bind_inv in H.
  destruct H as (n1 & st1 & H1 & H2).
  destruct (children n1) as [cs1|] eqn:C1.
  - run_inv H2. pose proof (mapM_Forall2 _ _ _ _ _ Hstep) as F2.
    apply image_free_set_children.
    + intros V.
      assert (V0 : is_visited n = true).
      { destruct (is_visited n) eqn:Vn; [reflexivity |].
        inversion H1; subst. congruence. }
      rewrite V0 in H1. unfold visitor in H1.
      destruct (children n) as [cs|] eqn:C; [| inversion H1; subst; congruence].
      run_inv H1. cbn [children] in C1. inversion C1; subst.
      apply visitor_children_no_image in Hstep0.
      clear - F2 Hstep0.
      induction F2 as [|c c' l l' (s & s' & Hc) _ IHF]; [constructor |].
      inversion Hstep0; subst. constructor; [| apply IHF; assumption].
      apply (not_image_same_type c c' (visit_type _ _ _ _ _ Hc)). assumption.
    + clear - F2 IH.
      induction F2 as [|c c' l l' (s & s' & Hc) _ IHF]; constructor;
        [exact (IH _ _ _ _ Hc) | exact IHF].
  - inversion H2; subst. apply image_free_leaf. exact C1.
Qed.

Lemma mapM_imgNum (f : node -> M node) l :
  (forall a st b st', In a l -> f a st = Ok (b, st') -> imgNum st' = imgNum st) ->
  forall st bs st', mapM f l st = Ok (bs, st') -> imgNum st' = imgNum st.
Proof.
  induction l as [|a l IH]; intros Hf st bs st' H.
  - inversion H. reflexivity.
  - cbn [mapM] in H. run_inv H.
    rewrite (IH (fun a' s b s' Hin => Hf a' s b s' (or_intror Hin)) _ _ _ Hstep0).
    exact (Hf _ _ _ _ (or_introl eq_refl) Hstep).
Qed.

(** On a tree without images under its visited nodes the walk leaves the
    image counter alone. *)
Lemma visit_imgNum fuel : forall n st n' st',
  image_free n -> visit fuel n st = Ok (n', st') -> imgNum st' = imgNum st.
Proof.
  induction fuel as [|fuel IH]; intros n st n' st' Hn H; [discriminate |].
  cbn [visit] in H. apply bind_inv in H.
  destruct H as (n1 & st1 & H1 & H2).
  assert (G : imgNum st1 = imgNum st /\ image_free n1).
  { destruct (is_visited n) eqn:V.
    - unfold visitor in H1. apply image_free_eq in Hn.
      destruct (children n) as [cs|] eqn:C.
      + destruct Hn as [Hv Hf]. run_inv H1. split.
        * exact (visitor_children_imgNum _ _ _ _ (Hv V) Hstep).
        * apply image_free_set_children.
          -- intros _. exact (visitor_children_no_image _ _ _ _ Hstep).
          -- exact (visitor_children_image_free _ _ _ _ Hf Hstep).
      + inversion H1; subst. split; [reflexivity |].
        apply image_free_leaf. exact C.
    - inversion H1; subst. split; [reflexivity | exact Hn]. }
  destruct G as [G1 G2]. rewrite <- G1.
  apply image_free_eq in G2.
  destruct (children n1) as [cs1|].
  - destruct G2 as [_ Hf]. run_inv H2.
    apply (mapM_imgNum (visit fuel) cs1) in Hstep; [exact Hstep |].
    intros c s b s' Hin Hc. apply (IH c s b s'); [| exact Hc].
    rewrite Forall_forall in Hf. exact (Hf c Hin).
  - inversion H2. reflexivity.
Qed.

End SecondRun.

Section SecondRunResult.

Lemma Forall_update_nth {A} (Q : A -> Prop) (f : A -> A) l : forall i,
  (forall x, Q x -> Q (f x)) -> Forall Q l -> Forall Q (update_nth i f l).
Proof.
  induction l as [|x l IH]; intros i Hf H; [destruct i; constructor |].
  inversion H; subst. destruct i as [|i]; cbn [update_nth].
  - constructor; [apply Hf |]; assumption.
  - constructor; [| apply IH]; assumption.
Qed.

Lemma add_pilcrow_type n : type (add_pilcrow n) = type n.
Proof.
  unfold add_pilcrow.
  destruct (is_type "text" n || is_type "html" n); [| reflexivity].
  destruct (value n); destruct n; reflexivity.
Qed.

Lemma add_pilcrow_image_free n : image_free n -> image_free (add_pilcrow n).
Proof.
  intros H. unfold add_pilcrow.
  destruct (is_type "text" n || is_type "html" n); [| exact H].
  destruct (value n); [apply image_free_set_value |]; exact H.
Qed.

Lemma mark_paragraph_type p : type (mark_paragraph p) = type p.
Proof.
  unfold mark_paragraph. destruct (children p); destruct p; reflexivity.
Qed.

Lemma mark_paragraph_image_free p :
  image_free p -> image_free (mark_paragraph p).
Proof.
  intros H. unfold mark_paragraph.
  destruct (children p) as [cs|] eqn:C; [| exact H].
  apply image_free_eq in H. rewrite C in H. destruct H as [Hv Hf].
  apply image_free_set_children.
  - intros V. apply Forall_update_nth; [| exact (Hv V)].
    intros x. apply not_image_same_type. apply add_pilcrow_type.
  - apply Forall_update_nth; [exact add_pilcrow_image_free | exact Hf].
Qed.

Lemma trailing_mark_image_free cs :
  Forall image_free cs -> Forall image_free (trailing_mark cs).
Proof.
  intros H. unfold trailing_mark.
  destruct (lastParagraph (length cs) cs); [| exact H].
  apply Forall_update_nth; [exact mark_paragraph_image_free | exact H].
Qed.

Lemma trailing_mark_not_image cs :
  Forall not_image cs -> Forall not_image (trailing_mark cs).
Proof.
  intros H. unfold trailing_mark.
  destruct (lastParagraph (length cs) cs); [| exact H].
  apply Forall_update_nth; [| exact H].
  intros x. apply not_image_same_type. apply mark_paragraph_type.
Qed.

Lemma footnoteSection_leaves fs :
  Forall image_free (footnoteSection fs) /\
  Forall not_image (footnoteSection fs).
Proof.
  unfold footnoteSection. destruct fs as [|f fs]; [split; constructor |].
  split; constructor; try reflexivity;
    try (apply image_free_leaf; reflexivity);
    apply Forall_forall; intros x Hin; apply in_map_iff in Hin;
    destruct Hin as (g & <- & _);
    [apply image_free_leaf |]; reflexivity.
Qed.

(** The tree a run returns has no image under its visited nodes. *)
Lemma run_image_free tree tree' st :
  markdownReplace_run tree = Ok (tree', st) -> image_free tree'.
Proof.
  intros H. apply run_final_state in H.
  destruct H as (_ & tree1 & cs & Hv & C & ->).
  apply visit_image_free in Hv. apply image_free_eq in Hv.
  rewrite C in Hv. destruct Hv as [Hv Hf].
  destruct (footnoteSection_leaves (collectedFootnotes st)) as [S1 S2].
  apply image_free_set_children.
  - intros V. apply Forall_app. split; [| exact S2].
    apply trailing_mark_not_image. exact (Hv V).
  - apply Forall_app. split; [| exact S1].
    apply trailing_mark_image_free. exact Hf.
Qed.

Lemma rerun_inv tree t1 st1 t2 st2 :
  rerun tree = Ok ((t1, st1), (t2, st2)) ->
  markdownReplace_run tree = Ok (t1, st1) /\
  markdownReplace_run t1 = Ok (t2, st2).
Proof.
  unfold rerun.
  destruct (markdownReplace_run tree) as [[a sa]|e]; [| discriminate].
  destruct (markdownReplace_run a) as [[b sb]|e] eqn:E; [| discriminate].
  intros H. inversion H; subst. split; [reflexivity | exact E].
Qed.

End SecondRunResult.

(** C7, counterexample.  On a document with a figure whose alt text holds
    a footnote marker and with a table, the second run finds two footnotes
    in the raw markup of the figure and captions the table again: the
    second run has matched a table and two footnotes, and the document has
    two captions where it had one, two footnote references where it had
    none, and no figure block left where it had one. *)
Lemma rerun_rematches :
  ~ rerun_stable rerun_document /\
  exists t1 st1 t2 st2,
    rerun rerun_document = Ok ((t1, st1), (t2, st2)) /\
    (imgNum st1 = 1 /\ tblNum st1 = 1 /\ footNoteNum st1 = 0)%N /\
    (imgNum st2 = 0 /\ tblNum st2 = 1 /\ footNoteNum st2 = 2)%N /\
    count_nodes is_figure_block t1 = 1 /\
    count_nodes is_figure_block t2 = 0 /\
    count_nodes is_table_caption t1 = 1 /\
    count_nodes is_table_caption t2 = 2 /\
    count_nodes is_footnote_reference t1 = 0 /\
    count_nodes is_footnote_reference t2 = 2.
Proof.
  assert (E : exists t1 st1 t2 st2,
            rerun rerun_document = Ok ((t1, st1), (t2, st2)) /\
            (imgNum st1 = 1 /\ tblNum st1 = 1 /\ footNoteNum st1 = 0)%N /\
            (imgNum st2 = 0 /\ tblNum st2 = 1 /\ footNoteNum st2 = 2)%N /\
            count_nodes is_figure_block t1 = 1 /\
            count_nodes is_figure_block t2 = 0 /\
            count_nodes is_table_caption t1 = 1 /\
            count_nodes is_table_caption t2 = 2 /\
            count_nodes is_footnote_reference t1 = 0 /\
            count_nodes is_footnote_reference t2 = 2).
  { vm_compute. do 4 eexists. split; [reflexivity |].
    repeat split; reflexivity. }
  split; [| exact E].
  destruct E as (t1 & st1 & t2 & st2 & E & _ & (_ & _ & F) & _).
  intros H. destruct (H t1 st1 t2 st2 E) as ((_ & _ & Z) & _).
  rewrite F in Z. discriminate.
Qed.

(** C7, amended.  A second run, from fresh counters and an empty footnote
    store, on the tree of a first run matches no figure: the first run
    leaves no image node among the children of any node the walk visits, so
    the image counter of the second run stays at 0. *)
Theorem rerun_matches_no_figure :
  forall tree t1 st1 t2 st2,
    rerun tree = Ok ((t1, st1), (t2, st2)) ->
    image_free t1 /\ imgNum st2 = 0%N.
Proof.
  intros tree t1 st1 t2 st2 H. apply rerun_inv in H. destruct H as [H1 H2].
  pose proof (run_image_free _ _ _ H1) as F. split; [exact F |].
  apply run_final_state in H2. destruct H2 as (_ & tree1 & cs & Hv & _).
  exact (visit_imgNum _ _ _ _ _ F Hv).
Qed.

Lemma rerun_matches_no_figure_witness :
  image_free
    (root [paragraph
             [html (figureHtml (lit "float-right") (lit "a.png") (lit "x")
                               (lit "一") (Some (lit "x")) ++ lit "¶")]]) /\
  imgNum (State 0 0 0 []) = 0%N.
Proof.
  apply (rerun_matches_no_figure one_figure
           (root [paragraph
                    [html (figureHtml (lit "float-right") (lit "a.png") (lit "x")
                                      (lit "一") (Some (lit "x")) ++ lit "¶")]])
           (State 1 0 0 [])
           (root [paragraph
                    [html (figureHtml (lit "float-right") (lit "a.png") (lit "x")
                                      (lit "一") (Some (lit "x")) ++ lit "¶¶")]])
           (State 0 0 0 [])).
  vm_compute. reflexivity.
Defined.

(* ================================================================== *)
(** * The Pattern Rewriter and one table *)
(* ================================================================== *)

Section RewriterAndTable.

(** On siblings without quote-blocks, whose text and raw-markup nodes have
    string values, the rewriter returns a list of the same length: a text
    or raw-markup node becomes raw markup with the substituted value when
    the substitution changes the value, a raw-markup node is kept and a
    text node is rebuilt when it does not; every other node is kept. *)
Lemma regex_children_text_html rx tpl cs :
  (forall c, In c cs -> is_type "blockquote" c = false) ->
  (forall c, In c cs -> is_type "text" c = true \/ is_type "html" c = true ->
             value c <> None) ->
  exists out,
    regex_children rx tpl cs = Ok out /\
    length out = length cs /\
    forall i c, nth_error cs i = Some c ->
      nth_error out i =
      Some (if is_type "text" c || is_type "html" c
            then rewritten rx tpl c (or_empty (value c))
            else c).
Proof.
  induction cs as [|child cs IH]; intros Hb Hv.
  - exists []. split; [reflexivity |]. split; [reflexivity |].
    intros [|i] c H; discriminate.
  - destruct IH as (out & Hrun & Hlen & Hnth).
    { intros c Hin. apply Hb. right. exact Hin. }
    { intros c Hin. apply Hv. right. exact Hin. }
    cbn [regex_children]. rewrite (Hb child (or_introl eq_refl)), Hrun.
    cbn [negb andb rbind]. rewrite andb_true_r.
    destruct (is_type "text" child) eqn:T1; cbn [negb andb orb].
    + destruct (value child) as [v|] eqn:V;
        [| exfalso; exact (Hv child (or_introl eq_refl) (or_introl T1) V)].
      eexists. split; [reflexivity |]. split; [simpl; lia |].
      intros [|i] c H; cbn [nth_error] in *.
      * inversion H; subst c. rewrite T1, V. reflexivity.
      * exact (Hnth i c H).
    + destruct (is_type "html" child) eqn:T2; cbn [negb andb orb].
      * destruct (value child) as [v|] eqn:V;
          [| exfalso; exact (Hv child (or_introl eq_refl) (or_intror T2) V)].
        eexists. split; [reflexivity |]. split; [simpl; lia |].
        intros [|i] c H; cbn [nth_error] in *.
        -- inversion H; subst c. unfold rewritten. rewrite T1, T2, V.
           reflexivity.
        -- exact (Hnth i c H).
      * eexists. split; [reflexivity |]. split; [simpl; lia |].
        intros [|i] c H; cbn [nth_error] in *.
        -- inversion H; subst c. rewrite T1, T2. reflexivity.
        -- exact (Hnth i c H).
Qed.

Lemma tblCaption_run t st :
  (tblNum st + 1 <= 99)%N ->
  tblCaption t st
  = Ok (html (tblCaptionHtml (ordinal_spec (Z.of_N (tblNum st + 1))) t),
        with_tblNum st (tblNum st + 1)).
Proof.
  intros H. unfold tblCaption, bind, incr_tblNum, lift.
  rewrite numberToChinese_of_N by lia. reflexivity.
Qed.

(** The rows that follow the first row of a table, up to the end of the
    list: they are kept, and one caption follows them. *)
Lemma tblRegex_children_rows rows : forall t st,
  Forall (fun r => is_type "tableRow" r = true) rows ->
  (tblNum st + 1 <= 99)%N ->
  tblRegex_children true false t rows st
  = Ok (rows ++ [html (tblCaptionHtml (ordinal_spec (Z.of_N (tblNum st + 1))) t)],
        with_tblNum st (tblNum st + 1)).
Proof.
  induction rows as [|r rows IH]; intros t st Hr Hn.
  - cbn [tblRegex_children app]. unfold bind. rewrite tblCaption_run by exact Hn.
    reflexivity.
  - inversion Hr as [|? ? Hr1 Hr2]; subst.
    cbn [tblRegex_children]. rewrite Hr1. cbn [negb].
    unfold bind. rewrite (IH t st Hr2 Hn). reflexivity.
Qed.

(** One table: the title is the text of the first child of the first cell
    of the first row, that text is blanked, and the caption with the next
    ordinal comes once, after all the rows. *)
Lemma tblRegex_children_table row rows title row' st :
  is_type "tableRow" row = true ->
  Forall (fun r => is_type "tableRow" r = true) rows ->
  take_title row = Some (Some title, row') ->
  (tblNum st + 1 <= 99)%N ->
  tblRegex_children false true [] (row :: rows) st
  = Ok (row' :: rows
          ++ [html (tblCaptionHtml (ordinal_spec (Z.of_N (tblNum st + 1))) title)],
        with_tblNum st (tblNum st + 1)).
Proof.
  intros Hr Hrows Ht Hn.
  cbn [tblRegex_children]. rewrite Hr, Ht. cbn [negb].
  unfold bind. rewrite (tblRegex_children_rows rows title st Hrows Hn).
  reflexivity.
Qed.

End RewriterAndTable.

Section Engine.

Lemma replace_from_unmatched r tpl s : forall p,
  (forall i, i < length s -> match_at r (p + i) (skipn i s) = None) ->
  match_at r (p + length s) [] = None ->
  replace_from r tpl p 0 s = s.
Proof.
  induction s as [|c s IH]; intros p H He.
  - cbn [replace_from length] in *. rewrite Nat.add_0_r in He. rewrite He.
    reflexivity.
  - cbn [replace_from].
    pose proof (H 0 ltac:(simpl; lia)) as H0.
    rewrite Nat.add_0_r in H0. cbn [skipn] in H0. rewrite H0.
    f_equal. apply IH.
    + intros i Hi. specialize (H (S i) ltac:(simpl; lia)).
      cbn [skipn] in H. rewrite <- H. f_equal. lia.
    + rewrite <- He. f_equal. simpl. lia.
Qed.

Lemma replace_from_skip r tpl s : forall p,
  replace_from r tpl p (length s) s = replace_from r tpl (p + length s) 0 [].
Proof.
  induction s as [|c s IH]; intros p.
  - cbn [length]. rewrite Nat.add_0_r. reflexivity.
  - cbn [length]. replace (p + S (length s)) with (S p + length s) by lia.
    rewrite <- IH. reflexivity.
Qed.

Lemma matcher_RLit l : forall x cont,
  matcher (RLit l) x cont =
  if startsWith l (rest x)
  then cont (MState (pos x + length l) (skipn (length l) (rest x)) (caps x))
  else None.
Proof.
  induction l as [|c l IH]; intros x cont.
  - cbn [RLit matcher startsWith length skipn]. rewrite Nat.add_0_r.
    destruct x; reflexivity.
  - destruct l as [|c' l'].
    + cbn [RLit matcher]. destruct (rest x) as [|d s'] eqn:R.
      * reflexivity.
      * cbn [startsWith length skipn]. rewrite andb_true_r, (N.eqb_sym c d).
        replace (pos x + 1) with (S (pos x)) by lia. reflexivity.
    + change (RLit (c :: c' :: l')) with (RSeq (RChar c) (RLit (c' :: l'))).
      cbn [matcher]. destruct (rest x) as [|d s'] eqn:R.
      * reflexivity.
      * cbn [startsWith]. rewrite (N.eqb_sym c d).
        destruct (d =? c)%N; [| reflexivity].
        rewrite IH. cbn [rest pos caps andb length skipn].
        replace (S (pos x) + S (length l')) with (pos x + S (S (length l'))) by lia.
        reflexivity.
Qed.

Lemma startsWith_split a : forall b s,
  startsWith (a ++ b) s = startsWith a s && startsWith b (skipn (length a) s).
Proof.
  induction a as [|x a IH]; intros b s.
  - reflexivity.
  - destruct s as [|y s]; cbn [app startsWith length skipn].
    + reflexivity.
    + rewrite IH, andb_assoc. reflexivity.
Qed.

Lemma matcher_RLit_app l t p cs cont :
  matcher (RLit l) (MState p (l ++ t) cs) cont = cont (MState (p + length l) t cs).
Proof.
  rewrite matcher_RLit. cbn [rest pos caps]. rewrite startsWith_app.
  rewrite skipn_app, skipn_all, Nat.sub_diag. reflexivity.
Qed.

Lemma ngroups_RLit l : ngroups (RLit l) = 0.
Proof.
  induction l as [|c [|c' l] IH]; try reflexivity.
  change (RLit (c :: c' :: l)) with (RSeq (RChar c) (RLit (c' :: l))).
  cbn [ngroups]. rewrite IH. reflexivity.
Qed.

(** A greedy star over a run of units of the set, when the continuation
    fails at the end of the run and succeeds one unit before it. *)
Lemma star_greedy_last k cs cont c z : forall (body : jsstring) p,
  Forall (fun d => cset_mem k d = true) body ->
  cset_mem k c = true ->
  cont (MState (p + length body + 1) [] cs) = None ->
  cont (MState (p + length body) [c] cs) = Some z ->
  star true k cs cont p (body ++ [c]) = Some z.
Proof.
  induction body as [|b body IH]; intros p Hb Hc Hn Hs.
  - cbn [app star length] in *. rewrite Hc.
    rewrite Nat.add_0_r in *. replace (S p) with (p + 1) by lia.
    rewrite Hn. exact Hs.
  - inversion Hb as [|? ? Hb1 Hb2]; subst.
    cbn [app star]. rewrite Hb1.
    rewrite (IH (S p) Hb2 Hc).
    + reflexivity.
    + rewrite <- Hn. cbn [length]. do 2 f_equal. lia.
    + rewrite <- Hs. cbn [length]. do 2 f_equal. lia.
Qed.

(** The replacement text, when the template is a plain prefix, a reference
    to the first group and a plain suffix. *)
Lemma expand_plain m matched y pre : forall t,
  ~ In 36%N pre ->
  expand m matched y (pre ++ t) = pre ++ expand m matched y t.
Proof.
  induction pre as [|c pre IH]; intros t H.
  - reflexivity.
  - cbn [app expand]. destruct (c =? 36)%N eqn:E.
    + apply N.eqb_eq in E. exfalso. apply H. left. exact E.
    + rewrite IH; [reflexivity |]. intros Hin. apply H. right. exact Hin.
Qed.

Lemma expand_plain_end m matched y post :
  ~ In 36%N post -> expand m matched y post = post.
Proof.
  intros H. rewrite <- (List.app_nil_r post) at 1.
  rewrite expand_plain by exact H. cbn [expand]. apply List.app_nil_r.
Qed.

End Engine.

Section Directive.

Lemma directive_later name p s :
  p <> 0 -> match_at (Rx.directive name) p s = None.
Proof.
  intros H. unfold match_at, Rx.directive. cbn [RCat matcher pos].
  destruct (Nat.eqb_spec p 0) as [E|E]; [contradiction | reflexivity].
Qed.

Lemma directive_start_none name s :
  startsWith (lit "." ++ lit name ++ lit "{") s = false ->
  match_at (Rx.directive name) 0 s = None.
Proof.
  intros H. unfold match_at, Rx.directive. cbn [RCat matcher pos Nat.eqb].
  rewrite !startsWith_split in H.
  rewrite matcher_RLit. cbn [rest pos caps].
  destruct (startsWith (lit ".") s); [| reflexivity].
  rewrite matcher_RLit. cbn [rest pos caps].
  destruct (startsWith (lit name) (skipn (length (lit ".")) s));
    [| reflexivity].
  cbn [andb] in H.
  destruct (skipn (length (lit name)) (skipn (length (lit ".")) s))
    as [|d s']; [reflexivity |].
  change (lit "{") with [chr "{"] in H. cbn [startsWith] in H.
  rewrite andb_true_r, N.eqb_sym in H. rewrite H. reflexivity.
Qed.

End Directive.

(** X1. An alignment directive is read only at the very start of a value:
    a value that does not begin with the dot, the name and the opening
    brace is returned as it is by the replacement of that directive,
    wherever else the directive may occur in it. *)
Theorem directive_only_at_start name tpl s :
  startsWith (lit "." ++ lit name ++ lit "{") s = false ->
  replace (Rx.directive name) tpl s = s.
Proof.
  intros H. unfold replace. apply replace_from_unmatched.
  - intros [|i] Hi.
    + cbn [Nat.add skipn]. apply directive_start_none. exact H.
    + apply directive_later. discriminate.
  - destruct s as [|c s].
    + apply directive_start_none. exact H.
    + apply directive_later. discriminate.
Qed.

Lemma directive_only_at_start_witness :
  startsWith (lit "." ++ lit "Right" ++ lit "{") (lit "see .Right{x}") = false /\
  replace (Rx.directive "Right") (lit "<p>$1</p>") (lit "see .Right{x}")
  = lit "see .Right{x}".
Proof.
  split; [reflexivity |].
  apply (directive_only_at_start "Right" (lit "<p>$1</p>") (lit "see .Right{x}")).
  reflexivity.
Defined.

Lemma directive_match name (body : jsstring) :
  Forall (fun c => is_line_terminator c = false) body ->
  match_at (Rx.directive name) 0
           (lit "." ++ lit name ++ lit "{" ++ body ++ lit "}")
  = Some (MState (length (lit "." ++ lit name ++ lit "{" ++ body ++ lit "}"))
                 [] [(1, body)]).
Proof.
  intros Hb. unfold match_at, Rx.directive.
  change (RChar (chr "{")) with (RLit (lit "{")).
  cbn [RCat]. cbn [matcher pos Nat.eqb].
  rewrite matcher_RLit_app. cbn [matcher]. rewrite matcher_RLit_app.
  cbn [matcher]. rewrite matcher_RLit_app. cbn [matcher pos rest caps].
  change (lit "}") with [125%N].
  erewrite star_greedy_last.
  - reflexivity.
  - apply Forall_forall. intros d Hd. cbn [cset_mem].
    rewrite Forall_forall in Hb. rewrite (Hb d Hd). reflexivity.
  - reflexivity.
  - reflexivity.
  - cbn [rest pos caps]. change (chr "}") with 125%N.
    cbn [N.eqb Pos.eqb].
    f_equal. f_equal.
    + rewrite !length_app. cbn [length]. lia.
    + f_equal. f_equal.
      replace (_ - _) with (length body) by lia.
      rewrite firstn_app, firstn_all, Nat.sub_diag. cbn [firstn].
      apply List.app_nil_r.
Qed.

(** X2. A value that is exactly one alignment directive, whose body runs to
    the closing brace on one line, is replaced by the template with the
    body put where the template refers to the first group. *)
Theorem directive_wraps_body name pre post (body : jsstring) :
  ~ In 36%N pre -> ~ In 36%N post ->
  Forall (fun c => is_line_terminator c = false) body ->
  replace (Rx.directive name) (pre ++ lit "$1" ++ post)
          (lit "." ++ lit name ++ lit "{" ++ body ++ lit "}")
  = pre ++ body ++ post.
Proof.
  intros Hpre Hpost Hb. unfold replace.
  pose proof (directive_match name body Hb) as Hm.
  remember (lit "." ++ lit name ++ lit "{" ++ body ++ lit "}") as s eqn:Es.
  destruct s as [|c s'].
  { change (lit ".") with [46%N] in Es. discriminate. }
  cbn [replace_from]. rewrite Hm. cbn [pos]. rewrite Nat.sub_0_r.
  cbn [length Nat.eqb]. rewrite Nat.sub_succ, Nat.sub_0_r.
  rewrite replace_from_skip.
  cbn [replace_from]. rewrite directive_later by discriminate.
  rewrite List.app_nil_r.
  rewrite expand_plain by exact Hpre.
  assert (G : ngroups (Rx.directive name) = 1).
  { unfold Rx.directive. cbn [RCat ngroups]. rewrite !ngroups_RLit.
    reflexivity. }
  rewrite G. change (lit "$1") with [36%N; 49%N].
  cbn [app expand N.eqb Pos.eqb N.leb N.compare Pos.compare Pos.compare_cont
       andb N.sub Pos.sub Pos.sub_mask Pos.double_mask Pos.pred_double
       N.to_nat Pos.to_nat Pos.iter_op Nat.add Nat.leb capture caps find fst
       snd Nat.eqb or_empty].
  rewrite expand_plain_end by exact Hpost. reflexivity.
Qed.

Lemma directive_wraps_body_witness :
  replace (Rx.directive "Right")
          (litq " <p style=`text-align: right;  text-indent: 0;`>"
           ++ lit "$1" ++ lit "</p>")
          (lit "." ++ lit "Right" ++ lit "{" ++ lit "a}b" ++ lit "}")
  = litq " <p style=`text-align: right;  text-indent: 0;`>"
    ++ lit "a}b" ++ lit "</p>".
Proof.
  apply (directive_wraps_body "Right"
           (litq " <p style=`text-align: right;  text-indent: 0;`>")
           (lit "</p>") (lit "a}b")).
  - vm_compute. intuition discriminate.
  - vm_compute. intuition discriminate.
  - vm_compute. repeat constructor.
Defined.

(* ================================================================== *)
(** * The alt attribute and the address of a figure *)
(* ================================================================== *)

Section FigureAttributes.

Lemma replace_from_RChar c tpl (s : jsstring) : forall p,
  ~ In 36%N tpl ->
  replace_from (RChar c) tpl p 0 s
  = flat_map (fun d => if (d =? c)%N then tpl else [d]) s.
Proof.
  induction s as [|d s IH]; intros p H.
  - reflexivity.
  - cbn [replace_from flat_map]. unfold match_at. cbn [matcher rest pos caps].
    destruct (d =? c)%N.
    + cbn [pos]. rewrite Nat.sub_succ_l, Nat.sub_diag by lia.
      cbn [Nat.eqb Nat.sub]. rewrite expand_plain_end by exact H.
      rewrite IH by exact H. reflexivity.
    + rewrite IH by exact H. reflexivity.
Qed.

Lemma startsWith_attachments s :
  startsWith (lit "attachments/") (47%N :: s) = false.
Proof. reflexivity. Qed.

Lemma indexOf_from_here i p t : indexOf_from i p (p ++ t) = Some i.
Proof.
  destruct (p ++ t) eqn:E; cbn [indexOf_from]; rewrite <- E, startsWith_app;
    reflexivity.
Qed.

Lemma imageUrl_moved t :
  imageUrl (lit "/attachments/" ++ t) = lit "/attachments/" ++ t.
Proof.
  unfold imageUrl, indexOf.
  change (lit "/attachments/" ++ t) with (47%N :: (lit "attachments/" ++ t)).
  remember (lit "attachments/") as p eqn:Ep.
  cbn [indexOf_from]. rewrite Ep at 1. rewrite startsWith_attachments.
  rewrite indexOf_from_here.
  unfold substring. cbn [Nat.add skipn].
  rewrite skipn_app, skipn_all, Nat.sub_diag. subst p. reflexivity.
Qed.

End FigureAttributes.

(** X3. The alt attribute of a figure is the alt text of the image with
    every double quote written as the entity, and nothing else changed; it
    holds no double quote, so it cannot close the attribute it is put
    in. *)
Theorem altText_escapes_quotes child :
  altText child
  = flat_map (fun d => if (d =? 34)%N then lit "&quot;" else [d])
             (or_empty (alt child))
  /\ ~ In 34%N (altText child).
Proof.
  assert (E : altText child
              = flat_map (fun d => if (d =? 34)%N then lit "&quot;" else [d])
                         (or_empty (alt child))).
  { unfold altText. destruct (alt child) as [[|c a]|]; cbn [truthy or_empty];
      try reflexivity.
    unfold replace. apply replace_from_RChar.
    vm_compute. intuition discriminate. }
  split; [exact E |].
  rewrite E. intros H. apply in_flat_map in H. destruct H as (d & _ & H).
  destruct (d =? 34)%N eqn:D.
  - vm_compute in H. intuition discriminate.
  - destruct H as [H|[]]. subst d. discriminate.
Qed.

(** X4. Moving an address under the attachments directory is idempotent:
    the result is either the address itself or an address that begins with
    the attachments directory, and moving it again changes nothing. *)
Theorem imageUrl_idempotent u :
  imageUrl (imageUrl u) = imageUrl u /\
  (imageUrl u = u \/ startsWith (lit "/attachments/") (imageUrl u) = true).
Proof.
  assert (H : imageUrl u = u /\ indexOf (lit "attachments/") u = None
              \/ exists t, imageUrl u = lit "/attachments/" ++ t).
  { unfold imageUrl.
    destruct (indexOf (lit "attachments/") u) as [i|] eqn:E.
    - right. eexists. reflexivity.
    - left. split; reflexivity. }
  destruct H as [[H N]|[t H]].
  - split; [| left; exact H]. rewrite H. exact H.
  - rewrite H. split; [apply imageUrl_moved |]. right. apply startsWith_app.
Qed.

(* ================================================================== *)
(** * Spacing between CJK and Latin text *)
(* ================================================================== *)

Section Spacing.

Variables a b : cset.


Lemma match_at_pair p (s : jsstring) :
  match_at (unit_pair a b) p s =
  match s with
  | c :: d :: s' =>
    if cset_mem a c && cset_mem b d
    then Some (MState (S (S p)) s' [(2, [d]); (1, [c])])
    else None
  | _ => None
  end.
Proof.
  unfold match_at, unit_pair. cbn [matcher rest pos caps].
  destruct s as [|c [|d s']]; try reflexivity.
  - destruct (cset_mem a c); reflexivity.
  - destruct (cset_mem a c); [| reflexivity].
    destruct (cset_mem b d); [| reflexivity].
    cbn [andb]. replace (S p - p) with 1 by lia.
    replace (S (S p) - S p) with 1 by lia. reflexivity.
Qed.

Lemma adjacent_cons x y c (t : jsstring) :
  adjacent x y (c :: t)
  = match t with
    | d :: _ => cset_mem x c && cset_mem y d
    | [] => false
    end || adjacent x y t.
Proof. destruct t; reflexivity. Qed.

(** One step of the replacement: without a match the first unit is kept;
    with one, a space comes between the two units. *)
Lemma replace_pair_step p c (s : jsstring) :
  replace_from (unit_pair a b) (lit "$1 $2") p 0 (c :: s)
  = match s with
    | d :: s' =>
      if cset_mem a c && cset_mem b d
      then c :: 32%N :: d :: replace_from (unit_pair a b) (lit "$1 $2") (S (S p)) 0 s'
      else c :: replace_from (unit_pair a b) (lit "$1 $2") (S p) 0 s
    | [] => [c]
    end.
Proof.
  cbn [replace_from]. rewrite match_at_pair.
  destruct s as [|d s'].
  - cbn [replace_from]. rewrite match_at_pair. reflexivity.
  - destruct (cset_mem a c && cset_mem b d); [| reflexivity].
    cbn [pos]. replace (S (S p) - p) with 2 by lia. reflexivity.
Qed.

Hypothesis a_space : cset_mem a 32%N = false.
Hypothesis b_space : cset_mem b 32%N = false.
Hypothesis disjoint : forall c, cset_mem b c = true -> cset_mem a c = false.

(** The replacement starts with the unit the input starts with, and puts
    no unit of [x] before a unit of [y] where the input had none, for sets
    [x] and [y] that do not hold the space. *)
Lemma replace_pair_adjacent x y :
  cset_mem x 32%N = false -> cset_mem y 32%N = false ->
  forall n (s : jsstring) p, length s <= n ->
    hd_error (replace_from (unit_pair a b) (lit "$1 $2") p 0 s) = hd_error s /\
    (adjacent x y s = false ->
     adjacent x y (replace_from (unit_pair a b) (lit "$1 $2") p 0 s) = false).
Proof.
  intros Hx Hy. induction n as [|n IH]; intros s p Hn.
  - destruct s; [| simpl in Hn; lia]. cbn [replace_from].
    rewrite match_at_pair. split; [reflexivity | intros _; reflexivity].
  - destruct s as [|c s].
    { cbn [replace_from]. rewrite match_at_pair.
      split; [reflexivity | intros _; reflexivity]. }
    rewrite replace_pair_step. destruct s as [|d s'].
    { split; [reflexivity | intros _; reflexivity]. }
    cbn [length] in Hn.
    destruct (cset_mem a c && cset_mem b d) eqn:E.
    + split; [reflexivity |]. intros H.
      destruct (IH s' (S (S p)) ltac:(lia)) as [Hh Ha].
      rewrite adjacent_cons in H. apply orb_false_iff in H.
      destruct H as [_ H]. rewrite adjacent_cons in H.
      apply orb_false_iff in H. destruct H as [Hd H].
      rewrite !adjacent_cons. rewrite Hy, Hx, andb_false_r. cbn [andb orb].
      rewrite (Ha H), orb_false_r.
      destruct (replace_from (unit_pair a b) (lit "$1 $2") (S (S p)) 0 s')
        as [|e out] eqn:R; [reflexivity |].
      destruct s' as [|e' s'']; [discriminate |].
      cbn [hd_error] in Hh. inversion Hh; subst e'. exact Hd.
    + split; [reflexivity |]. intros H.
      destruct (IH (d :: s') (S p) ltac:(simpl; lia)) as [Hh Ha].
      rewrite adjacent_cons in H. apply orb_false_iff in H.
      destruct H as [Hc H].
      rewrite adjacent_cons. rewrite (Ha H), orb_false_r.
      destruct (replace_from (unit_pair a b) (lit "$1 $2") (S p) 0 (d :: s'))
        as [|e out] eqn:R; [reflexivity |].
      cbn [hd_error] in Hh. inversion Hh; subst e. exact Hc.
Qed.

(** After the replacement no unit of [a] is directly followed by a unit of
    [b]. *)
Lemma replace_pair_separates :
  forall n (s : jsstring) p, length s <= n ->
    adjacent a b (replace_from (unit_pair a b) (lit "$1 $2") p 0 s) = false.
Proof.
  induction n as [|n IH]; intros s p Hn.
  - destruct s; [| simpl in Hn; lia]. cbn [replace_from].
    rewrite match_at_pair. reflexivity.
  - destruct s as [|c s].
    { cbn [replace_from]. rewrite match_at_pair. reflexivity. }
    rewrite replace_pair_step. destruct s as [|d s']; [reflexivity |].
    cbn [length] in Hn.
    destruct (cset_mem a c && cset_mem b d) eqn:E.
    + apply andb_true_iff in E. destruct E as [Ec Ed].
      rewrite !adjacent_cons. rewrite b_space, a_space, andb_false_r.
      cbn [andb orb]. rewrite (IH s' (S (S p)) ltac:(lia)), orb_false_r.
      rewrite (disjoint d Ed). destruct (replace_from _ _ _ _ s'); reflexivity.
    + rewrite adjacent_cons.
      rewrite (IH (d :: s') (S p) ltac:(simpl; lia)), orb_false_r.
      destruct (replace_pair_adjacent a b a_space b_space (S n) (d :: s') (S p)
                  ltac:(simpl; lia)) as [Hh _].
      destruct (replace_from (unit_pair a b) (lit "$1 $2") (S p) 0 (d :: s'))
        as [|e out] eqn:R; [reflexivity |].
      cbn [hd_error] in Hh. inversion Hh; subst e. exact E.
Qed.

End Spacing.

Lemma cjk_not_alnum c : cset_mem alnum c = true -> cset_mem cjk c = false.
Proof.
  unfold alnum, cjk. cbn [cset_mem].
  change (chr "一") with 19968%N. change (chr "龥") with 40869%N.
  change (chr "a") with 97%N. change (chr "z") with 122%N.
  change (chr "A") with 65%N. change (chr "Z") with 90%N.
  change (chr "0") with 48%N. change (chr "9") with 57%N.
  intros H. apply andb_false_iff. left. apply N.leb_gt.
  repeat (apply orb_true_iff in H; destruct H as [H|H]);
    apply andb_true_iff in H; destruct H as [_ H]; apply N.leb_le in H; lia.
Qed.

Lemma alnum_not_cjk c : cset_mem cjk c = true -> cset_mem alnum c = false.
Proof.
  intros H. destruct (cset_mem alnum c) eqn:E; [| reflexivity].
  rewrite (cjk_not_alnum c E) in H. discriminate.
Qed.

(** X5. After the two spacing replacements of the visitor, applied in the
    order of the source, no CJK unit is directly followed by a Latin letter
    or digit and no Latin letter or digit is directly followed by a CJK
    unit. *)
Theorem cjk_latin_spacing (s : jsstring) :
  let spaced := replace Rx.latin_cjk (lit "$1 $2")
                        (replace Rx.cjk_latin (lit "$1 $2") s) in
  adjacent cjk alnum spaced = false /\ adjacent alnum cjk spaced = false.
Proof.
  cbv zeta. unfold replace.
  change Rx.latin_cjk with (unit_pair alnum cjk).
  change Rx.cjk_latin with (unit_pair cjk alnum). split.
  - eapply (replace_pair_adjacent alnum cjk cjk alnum eq_refl eq_refl);
      [apply Nat.le_refl |].
    apply (replace_pair_separates cjk alnum eq_refl eq_refl cjk_not_alnum
             (length s) s 0 (Nat.le_refl _)).
  - apply (replace_pair_separates alnum cjk eq_refl eq_refl alnum_not_cjk
             _ _ 0 (Nat.le_refl _)).
Qed.

(* ================================================================== *)
(** * Slugs *)
(* ================================================================== *)

Section Slugs.

(** A star whose continuation accepts every state always matches, and
    never moves backwards. *)
Lemma star_accepts g k cs : forall (s : jsstring) p,
  exists y, star g k cs (fun y => Some y) p s = Some y /\ p <= pos y.
Proof.
  induction s as [|c s IH]; intros p.
  - eexists. split; [reflexivity |]. cbn [pos]. lia.
  - cbn [star]. destruct (cset_mem k c).
    + destruct g.
      * destruct (IH (S p)) as (y & E & L). rewrite E.
        exists y. split; [reflexivity | lia].
      * eexists. split; [reflexivity |]. cbn [pos]. lia.
    + eexists. split; [reflexivity |]. cbn [pos]. lia.
Qed.

Lemma match_at_RPlus k p (s : jsstring) :
  match s with
  | c :: _ =>
    if cset_mem k c
    then exists y, match_at (RPlus k) p s = Some y /\ S p <= pos y
    else match_at (RPlus k) p s = None
  | [] => match_at (RPlus k) p s = None
  end.
Proof.
  unfold match_at, RPlus. cbn [matcher rest pos caps].
  destruct s as [|c s]; [reflexivity |].
  destruct (cset_mem k c); [| reflexivity].
  apply star_accepts.
Qed.

(** The units of a replacement of runs of [k] by a plain template: units
    of the template and units of the input that are not in [k]. *)
Lemma replace_from_RPlus_units k tpl c :
  ~ In 36%N tpl ->
  forall (s : jsstring) p skip,
    In c (replace_from (RPlus k) tpl p skip s) ->
    In c tpl \/ cset_mem k c = false.
Proof.
  intros Ht. induction s as [|d s IH]; intros p skip H.
  - destruct skip; cbn [replace_from] in H; [| destruct H].
    pose proof (match_at_RPlus k p []) as M. cbv beta iota in M.
    rewrite M in H. destruct H.
  - destruct skip as [|n]; cbn [replace_from] in H;
      [| exact (IH _ _ H)].
    pose proof (match_at_RPlus k p (d :: s)) as M. cbv beta iota in M.
    destruct (cset_mem k d) eqn:D.
    + destruct M as (y & E & L). rewrite E in H.
      rewrite expand_plain_end in H by exact Ht.
      apply in_app_or in H. destruct H as [H|H]; [left; exact H |].
      destruct (Nat.eqb_spec (pos y - p) 0) as [Z|Z]; [lia |].
      exact (IH _ _ H).
    + rewrite M in H. destruct H as [H|H].
      * subst d. right. exact D.
      * exact (IH _ _ H).
Qed.

(** A replacement by the empty string only removes units. *)
Lemma replace_from_erase_units r c : forall (s : jsstring) p skip,
  In c (replace_from r [] p skip s) -> In c s.
Proof.
  induction s as [|d s IH]; intros p skip H.
  - destruct skip; cbn [replace_from] in H; [| destruct H].
    destruct (match_at r p []); destruct H.
  - destruct skip as [|n]; cbn [replace_from] in H.
    + destruct (match_at r p (d :: s)) as [y|].
      * cbn [expand app] in H.
        destruct (Nat.eqb (pos y - p) 0).
        -- destruct H as [H|H]; [left; exact H | right; exact (IH _ _ H)].
        -- right. exact (IH _ _ H).
      * destruct H as [H|H]; [left; exact H | right; exact (IH _ _ H)].
    + right. exact (IH _ _ H).
Qed.

Lemma nth_error_skipn_cons (s : jsstring) : forall i,
  i < length s -> exists d t, skipn i s = d :: t /\ In d s.
Proof.
  induction s as [|c s IH]; intros i H; [simpl in H; lia |].
  destruct i as [|i].
  - exists c, s. split; [reflexivity | left; reflexivity].
  - destruct (IH i ltac:(simpl in H; lia)) as (d & t & E & Hin).
    exists d, t. split; [exact E | right; exact Hin].
Qed.

(** No run outside the slug units starts anywhere in a string of slug
    units. *)
Lemma unslug_run_unmatched (w : jsstring) :
  Forall (fun c => cset_mem slug_unit c = true) w ->
  replace unslug_run (lit "_") w = w.
Proof.
  intros Hw. unfold replace, unslug_run. apply replace_from_unmatched.
  - intros i Hi. destruct (nth_error_skipn_cons w i Hi) as (d & t & E & Hin).
    rewrite E. pose proof (match_at_RPlus (CNot slug_unit) (0 + i) (d :: t)) as M.
    cbv beta iota in M. rewrite Forall_forall in Hw.
    change (cset_mem (CNot slug_unit) d) with (negb (cset_mem slug_unit d)) in M.
    rewrite (Hw d Hin) in M. exact M.
  - exact (match_at_RPlus (CNot slug_unit) (0 + length w) []).
Qed.

Lemma any_unit_all c : cset_mem any_unit c = true.
Proof.
  unfold any_unit. cbn [cset_mem]. destruct (is_line_terminator c); reflexivity.
Qed.

Lemma edge_underscore_later p d e (t : jsstring) :
  p <> 0 -> match_at edge_underscore p (d :: e :: t) = None.
Proof.
  intros Hp. unfold match_at, edge_underscore. cbn [matcher rest pos caps].
  destruct (Nat.eqb_spec p 0) as [Z|Z]; [contradiction |].
  destruct (d =? chr "_")%N; [| reflexivity].
  rewrite any_unit_all. reflexivity.
Qed.

Lemma edge_underscore_other p d (t : jsstring) :
  d <> chr "_" -> match_at edge_underscore p (d :: t) = None.
Proof.
  intros Hd. unfold match_at, edge_underscore. cbn [matcher rest pos caps].
  apply N.eqb_neq in Hd. rewrite Hd. destruct (Nat.eqb p 0); reflexivity.
Qed.

Lemma edge_underscore_end p : match_at edge_underscore p [] = None.
Proof.
  unfold match_at, edge_underscore. cbn [matcher rest pos caps].
  destruct (Nat.eqb p 0); reflexivity.
Qed.

Lemma endsWith_last (w : jsstring) i d :
  skipn i w = [d] -> endsWith [d] w = true.
Proof.
  intros H. unfold endsWith.
  assert (L : length w = S i).
  { pose proof (f_equal (@length _) H) as L. rewrite length_skipn in L.
    cbn [length] in L.
    destruct (Nat.le_gt_cases (length w) i) as [G|G]; [lia | lia]. }
  cbn [length]. rewrite L. cbn [Nat.leb].
  replace (S i - 1) with i by lia. rewrite H. apply str_eqb_refl.
Qed.

(** No underscore stands at an edge of a string that neither starts nor
    ends with one. *)
Lemma edge_underscore_unmatched (w : jsstring) :
  startsWith (lit "_") w = false ->
  endsWith (lit "_") w = false ->
  replace edge_underscore [] w = w.
Proof.
  intros Hs He. unfold replace. apply replace_from_unmatched.
  - intros i Hi. destruct (skipn i w) as [|d [|e t]] eqn:E.
    + apply edge_underscore_end.
    + apply edge_underscore_other. intros D. subst d.
      change (lit "_") with [chr "_"] in He.
      rewrite (endsWith_last w i _ E) in He. discriminate.
    + destruct i as [|i].
      * cbn [skipn] in E. subst w. apply edge_underscore_other.
        intros D. subst d. change (lit "_") with [chr "_"] in Hs.
        cbn [startsWith] in Hs. rewrite N.eqb_refl in Hs. discriminate.
      * apply edge_underscore_later. discriminate.
  - apply edge_underscore_end.
Qed.

Lemma slugify_in_units pinyin toLowerCase text c :
  In c (slugify pinyin toLowerCase text) -> cset_mem slug_unit c = true.
Proof.
  intros H. unfold slugify in H.
  destruct text as [|t0 text]; [destruct H |].
  cbv zeta in H. unfold replace in H.
  apply replace_from_erase_units in H.
  apply (replace_from_RPlus_units (CNot slug_unit) (lit "_") c) in H.
  - destruct H as [H|H].
    + destruct H as [H|[]]. subst c. reflexivity.
    + cbn [cset_mem] in H. apply negb_false_iff in H. exact H.
  - vm_compute. intuition discriminate.
Qed.

End Slugs.

(** X6. Every unit of a slug is a lower-case Latin letter, a digit or an
    underscore, whatever the transliteration and the lower-casing return:
    a slug can be put in a path of the site as it is. *)
Theorem slugify_units pinyin toLowerCase text :
  Forall (fun c => cset_mem slug_unit c = true)
         (slugify pinyin toLowerCase text).
Proof.
  apply Forall_forall. intros c H.
  exact (slugify_in_units pinyin toLowerCase text c H).
Qed.

(** X7. A nonempty title whose lower-cased transliteration is made of slug
    units only, and neither starts nor ends with an underscore, has that
    transliteration as its slug: the two replacements change nothing. *)
Theorem slugify_clean pinyin toLowerCase (text w : jsstring) :
  text <> [] ->
  toLowerCase (pinyin text) = w ->
  Forall (fun c => cset_mem slug_unit c = true) w ->
  startsWith (lit "_") w = false ->
  endsWith (lit "_") w = false ->
  slugify pinyin toLowerCase text = w.
Proof.
  intros Ht Hw Hu Hs He. unfold slugify.
  destruct text as [|t0 text]; [contradiction |].
  cbv zeta. rewrite Hw, (unslug_run_unmatched w Hu).
  apply edge_underscore_unmatched; assumption.
Qed.

Lemma slugify_clean_witness :
  slugify (fun s => s) (fun s => s) (lit "post_1") = lit "post_1".
Proof.
  apply (slugify_clean (fun s => s) (fun s => s) (lit "post_1") (lit "post_1")).
  - discriminate.
  - reflexivity.
  - vm_compute. repeat constructor.
  - reflexivity.
  - reflexivity.
Defined.

(** X8. The items of the feed are those of the posts that are not hidden,
    in the order of the posts, and the link of each is the post directory,
    a slug of lower-case Latin letters, digits and underscores, and a
    slash. *)
Theorem feed_items_links pinyin toLowerCase posts :
  map Rss.item_title (Rss.items pinyin toLowerCase posts)
  = map Rss.title (filter (fun post => negb (Rss.hidden post)) posts) /\
  Forall (fun item =>
            exists slug,
              Rss.link item = lit "/post/" ++ slug ++ lit "/" /\
              Forall (fun c => cset_mem slug_unit c = true) slug)
         (Rss.items pinyin toLowerCase posts).
Proof.
  unfold Rss.items. cbv zeta. split.
  - rewrite map_map. reflexivity.
  - apply Forall_forall. intros item H. apply in_map_iff in H.
    destruct H as (post & <- & _). cbn [Rss.link].
    eexists. split; [reflexivity |].
    apply Forall_forall. intros c Hc.
    exact (slugify_in_units _ _ _ c Hc).
Qed.

(* ================================================================== *)
(** * Distinct ordinals *)
(* ================================================================== *)

Section OrdinalsDistinct.

Lemma ordinal_spec_distinct :
  forallb (fun n =>
    forallb (fun m =>
      implb (str_eqb (ordinal_spec n) (ordinal_spec m)) (n =? m)%Z)
      domain) domain = true.
Proof. vm_compute. reflexivity. Qed.

Lemma denotes_unique num n m : denotes num n -> denotes num m -> n = m.
Proof.
  intros Hn Hm. rewrite <- (denotes_int_value _ _ Hn).
  apply denotes_int_value. exact Hm.
Qed.

(** A numeral is returned only for an integer of the domain, and it is the
    worded numeral of that integer. *)
Lemma numberToChinese_ok num s :
  numberToChinese num = Ok s ->
  exists n, denotes num n /\ (1 <= n <= 99)%Z /\ s = ordinal_spec n.
Proof.
  intros H. destruct (isInteger num) eqn:I.
  - pose proof (isInteger_denotes _ I) as D.
    exists (int_value num). split; [exact D |].
    destruct (Z_lt_le_dec (int_value num) 1) as [L|L].
    { rewrite numberToChinese_throws in H; [discriminate |].
      intros n Dn. rewrite (denotes_unique _ _ _ Dn D). left. exact L. }
    destruct (Z_lt_le_dec 99 (int_value num)) as [G|G].
    { rewrite numberToChinese_throws in H; [discriminate |].
      intros n Dn. rewrite (denotes_unique _ _ _ Dn D). right. exact G. }
    split; [lia |].
    destruct (numberToChinese_in_range _ _ D (conj L G)) as [E _].
    congruence.
  - rewrite numberToChinese_throws in H; [discriminate |].
    intros n Dn. rewrite (denotes_isInteger _ _ Dn) in I. discriminate.
Qed.

End OrdinalsDistinct.

(** X9. The Ordinal Formatter gives different numerals to different
    integers: two numbers with the same numeral are the same integer.  The
    anchors of two figures, or of two tables, are therefore different. *)
Theorem numberToChinese_injective a b s :
  numberToChinese a = Ok s -> numberToChinese b = Ok s ->
  exists n, denotes a n /\ denotes b n.
Proof.
  intros Ha Hb.
  destruct (numberToChinese_ok _ _ Ha) as (n & Dn & Rn & En).
  destruct (numberToChinese_ok _ _ Hb) as (m & Dm & Rm & Em).
  exists n. split; [exact Dn |].
  pose proof ordinal_spec_distinct as A. rewrite forallb_forall in A.
  specialize (A n (domain_complete n Rn)). rewrite forallb_forall in A.
  specialize (A m (domain_complete m Rm)).
  assert (E : str_eqb (ordinal_spec n) (ordinal_spec m) = true).
  { apply str_eqb_eq. congruence. }
  rewrite E in A. cbn [implb] in A. apply Z.eqb_eq in A. subst m. exact Dm.
Qed.

Lemma numberToChinese_injective_witness :
  exists n, denotes (of_N 5) n /\ denotes (of_Z 5) n.
Proof.
  apply (numberToChinese_injective (of_N 5) (of_Z 5) (lit "五"));
    vm_compute; reflexivity.
Defined.

(* ================================================================== *)
(** * Lists the passes have nothing to do with *)
(* ================================================================== *)

Section NothingToDo.

Lemma imgRegex_children_none cs : forall st,
  Forall not_image cs -> imgRegex_children cs st = Ok (cs, st).
Proof.
  induction cs as [|c cs IH]; intros st H; [reflexivity |].
  inversion H as [|? ? Hc Hcs]; subst.
  rewrite (imgRegex_children_other c cs st Hc).
  unfold bind. rewrite (IH st Hcs). reflexivity.
Qed.

Lemma tblRegex_children_none cs : forall isFirstRow t st,
  Forall (fun c => is_type "tableRow" c = false) cs ->
  tblRegex_children false isFirstRow t cs st = Ok (cs, st).
Proof.
  induction cs as [|c cs IH]; intros f t st H; [reflexivity |].
  inversion H as [|? ? Hc Hcs]; subst.
  cbn [tblRegex_children]. rewrite Hc. cbn [negb].
  unfold bind. rewrite (IH f t st Hcs). reflexivity.
Qed.

Lemma footnoteRegex_children_none cs : forall st,
  Forall (fun c => child_markers c = []) cs ->
  footnoteRegex_children cs st = Ok (cs, st).
Proof.
  induction cs as [|c cs IH]; intros st H; [reflexivity |].
  inversion H as [|? ? Hc Hcs]; subst.
  cbn [footnoteRegex_children]. unfold child_markers in Hc.
  destruct (is_type "text" c) eqn:T1; [| destruct (is_type "html" c) eqn:T2];
    cbn [negb andb orb] in *;
    try (apply split_length_one in Hc; rewrite Hc; cbn [Nat.eqb]);
    unfold bind; rewrite (IH st Hcs); reflexivity.
Qed.

End NothingToDo.

(** X10. A sibling list with no image, no table row and no footnote marker
    is returned as it is by the figure pass, by the table pass and by the
    footnote pass, which leave the counters and the footnote store as they
    were. *)
Theorem numbering_passes_skip cs st :
  Forall not_image cs ->
  Forall (fun c => is_type "tableRow" c = false) cs ->
  Forall (fun c => child_markers c = []) cs ->
  imgRegex_children cs st = Ok (cs, st) /\
  tblRegex_children false true [] cs st = Ok (cs, st) /\
  footnoteRegex_children cs st = Ok (cs, st).
Proof.
  intros Hi Ht Hf. split; [| split].
  - apply imgRegex_children_none. exact Hi.
  - apply tblRegex_children_none. exact Ht.
  - apply footnoteRegex_children_none. exact Hf.
Qed.

Lemma numbering_passes_skip_witness :
  let cs := [text (lit "see [^图一] and [x]"); link (lit "/a") [text (lit "a")]] in
  let st := State 3 2 1 [Footnote 1 (Some (lit "n"))] in
  imgRegex_children cs st = Ok (cs, st) /\
  tblRegex_children false true [] cs st = Ok (cs, st) /\
  footnoteRegex_children cs st = Ok (cs, st).
Proof.
  apply (numbering_passes_skip
           [text (lit "see [^图一] and [x]"); link (lit "/a") [text (lit "a")]]
           (State 3 2 1 [Footnote 1 (Some (lit "n"))]));
    repeat constructor.
Defined.

(* ================================================================== *)
(** * What the walk leaves alone *)
(* ================================================================== *)

Section Unvisited.

Lemma unvisited_eq n :
  unvisited n <->
  is_visited n = false /\
  match children n with
  | Some cs => Forall unvisited cs
  | None => True
  end.
Proof.
  destruct n as [t v u a [cs|]]; cbn [unvisited children]; [| tauto].
  assert (G : (fix all (l : list node) : Prop :=
                 match l with
                 | [] => True
                 | c :: l' => unvisited c /\ all l'
                 end) cs <-> Forall unvisited cs).
  { induction cs as [|c cs IH].
    - split; [constructor | trivial].
    - split.
      + intros [H1 H2]. constructor; [exact H1 | apply IH; exact H2].
      + intros H. inversion H; subst. split; [assumption | apply IH; assumption]. }
  rewrite G. tauto.
Qed.

Lemma set_children_same n cs : children n = Some cs -> set_children n (Some cs) = n.
Proof. destruct n as [t v u a c0]. cbn [children]. intros ->. reflexivity. Qed.

Lemma mapM_same (f : node -> M node) l : forall st,
  (forall c, In c l -> forall s, f c s = Ok (c, s)) ->
  mapM f l st = Ok (l, st).
Proof.
  induction l as [|c l IH]; intros st H; [reflexivity |].
  cbn [mapM]. unfold bind. rewrite (H c (or_introl eq_refl)).
  rewrite (IH st (fun c' Hin => H c' (or_intror Hin))). reflexivity.
Qed.

(** The walk returns a subtree with no visited node as it is, and leaves
    the state alone. *)
Lemma visit_unvisited fuel : forall n st,
  height n <= fuel -> unvisited n -> visit fuel n st = Ok (n, st).
Proof.
  induction fuel as [|fuel IH]; intros n st Hh Hn.
  - pose proof (height_pos n). lia.
  - apply unvisited_eq in Hn. destruct Hn as [V Hc].
    cbn [visit]. rewrite V. unfold bind at 1. cbn [ret].
    destruct (children n) as [cs|] eqn:C; [| reflexivity].
    unfold bind. rewrite mapM_same.
    + cbn [ret]. rewrite (set_children_same n cs C). reflexivity.
    + intros c Hin s. apply IH.
      * pose proof (height_children n cs c C Hin). lia.
      * rewrite Forall_forall in Hc. exact (Hc c Hin).
Qed.

Lemma unvisited_no_content n : unvisited n -> has_content n = false.
Proof.
  intros H. apply unvisited_eq in H. destruct H as [V _].
  unfold is_visited in V. apply orb_false_iff in V. destruct V as [V _].
  apply orb_false_iff in V. destruct V as [V _].
  unfold has_content. rewrite V. reflexivity.
Qed.

Lemma lastParagraph_some cs : forall k i,
  lastParagraph k cs = Some i ->
  exists p, nth_error cs i = Some p /\ has_content p = true.
Proof.
  induction k as [|k IH]; intros i H; [discriminate |].
  cbn [lastParagraph] in H.
  destruct (nth_error cs k) as [n|] eqn:E; [| discriminate].
  destruct (has_content n) eqn:C.
  - inversion H; subst. exists n. split; assumption.
  - exact (IH i H).
Qed.

Lemma nth_error_update_nth_other {A} (f : A -> A) (l : list A) : forall i j,
  i <> j -> nth_error (update_nth i f l) j = nth_error l j.
Proof.
  induction l as [|x l IH]; intros i j H; [destruct i; reflexivity |].
  destruct i as [|i], j as [|j]; cbn [update_nth nth_error];
    try reflexivity; [contradiction |].
  apply IH. congruence.
Qed.

(** The trailing-mark step keeps a child of the root that is not a
    paragraph with children. *)
Lemma trailing_mark_other cs j c :
  nth_error cs j = Some c -> has_content c = false ->
  nth_error (trailing_mark cs) j = Some c.
Proof.
  intros E C. unfold trailing_mark.
  destruct (lastParagraph (length cs) cs) as [i|] eqn:L; [| exact E].
  destruct (lastParagraph_some _ _ _ L) as (p & Ep & Cp).
  rewrite nth_error_update_nth_other; [exact E |].
  intros ->. rewrite E in Ep. inversion Ep; subst. congruence.
Qed.

Lemma mapM_visit_frame fuel l : forall st out st',
  Forall (fun c => height c <= fuel) l ->
  mapM (visit fuel) l st = Ok (out, st') ->
  forall j c, nth_error l j = Some c -> unvisited c ->
    nth_error out j = Some c.
Proof.
  induction l as [|a l IH]; intros st out st' Hh H j c E U.
  - destruct j; discriminate.
  - inversion Hh as [|? ? Ha Hl]; subst.
    cbn [mapM] in H. run_inv H. destruct j as [|j]; cbn [nth_error] in *.
    + inversion E; subst a. rewrite (visit_unvisited fuel c st Ha U) in Hstep.
      inversion Hstep; subst. reflexivity.
    + exact (IH _ _ _ Hl Hstep0 j c E U).
Qed.

End Unvisited.

(** X11. The transformer touches nothing outside the nodes the walk visits:
    when the root is not itself a visited node, every child of the root
    that holds no paragraph, table or table cell at any depth is, at the
    same index, a child of the result, unchanged. *)
Theorem run_keeps_unvisited_blocks tree tree' cs :
  is_visited tree = false ->
  children tree = Some cs ->
  markdownReplace tree = Ok tree' ->
  exists cs',
    children tree' = Some cs' /\
    forall j c, nth_error cs j = Some c -> unvisited c ->
      nth_error cs' j = Some c.
Proof.
  intros V C H. unfold markdownReplace in H.
  apply rbind_inv in H. destruct H as ([t st] & H & E). inversion E; subst.
  cbn [fst]. apply run_final_state in H.
  destruct H as (_ & tree1 & cs1 & Hv & C1 & ->).
  eexists. split; [destruct tree1; reflexivity |].
  intros j c Ej U.
  assert (Hh : 1 <= height tree) by apply height_pos.
  destruct (height tree) as [|fuel] eqn:Hfuel; [lia |].
  cbn [visit] in Hv. rewrite V in Hv. unfold bind at 1 in Hv. cbn [ret] in Hv.
  rewrite C in Hv. run_inv Hv. cbn [children] in C1. inversion C1; subst.
  assert (Hk : Forall (fun c => height c <= fuel) cs).
  { apply Forall_forall. intros x Hin.
    pose proof (height_children tree cs x C Hin). lia. }
  pose proof (mapM_visit_frame fuel cs _ _ _ Hk Hstep j c Ej U) as E1.
  pose proof (trailing_mark_other _ _ _ E1 (unvisited_no_content c U)) as E2.
  rewrite nth_error_app1; [exact E2 |].
  apply nth_error_Some. rewrite E2. discriminate.
Qed.

Lemma run_keeps_unvisited_blocks_witness :
  exists cs',
    children (root [container "heading" [text (lit "[[a]]")];
                    paragraph [text (lit "b¶")]]) = Some cs' /\
    forall j c,
      nth_error [container "heading" [text (lit "[[a]]")];
                 paragraph [text (lit "b")]] j = Some c ->
      unvisited c -> nth_error cs' j = Some c.
Proof.
  apply (run_keeps_unvisited_blocks
           (root [container "heading" [text (lit "[[a]]")];
                  paragraph [text (lit "b")]])
           (root [container "heading" [text (lit "[[a]]")];
                  paragraph [text (lit "b¶")]])
           [container "heading" [text (lit "[[a]]")];
            paragraph [text (lit "b")]]).
  - reflexivity.
  - reflexivity.
  - vm_compute. reflexivity.
Defined.

(** X12. A document with no paragraph, table or table cell at any depth is
    returned exactly as it is when its root has a list of children: no
    pattern is rewritten, no mark and no footnote section is added.  When
    the root has no list of children the transformer throws a type
    error. *)
Theorem run_unvisited_tree tree :
  unvisited tree ->
  match children tree with
  | Some _ => markdownReplace tree = Ok tree
  | None => markdownReplace tree = Throw TypeError
  end.
Proof.
  intros U. unfold markdownReplace, markdownReplace_run.
  rewrite (visit_unvisited _ tree initial_state (le_n _) U).
  unfold finalize. destruct (children tree) as [cs|] eqn:C; [| reflexivity].
  cbn [collectedFootnotes initial_state footnoteSection rbind fst].
  rewrite List.app_nil_r, trailing_mark_none.
  - rewrite (set_children_same tree cs C). reflexivity.
  - intros q Hin. apply unvisited_no_content.
    apply unvisited_eq in U. rewrite C in U. destruct U as [_ U].
    rewrite Forall_forall in U. exact (U q Hin).
Qed.

Lemma run_unvisited_tree_witness :
  markdownReplace headings_only = Ok headings_only.
Proof.
  apply (run_unvisited_tree headings_only).
  vm_compute. tauto.
Defined.

(* ================================================================== *)
(** * The exceptions of a run on a well-formed tree *)
(* ================================================================== *)

Section Passable.

Lemma passable_text v : passable (text v).
Proof. split; [discriminate | discriminate]. Qed.

Lemma passable_html v : passable (html v).
Proof. split; [discriminate | discriminate]. Qed.

Lemma passable_same n m :
  type m = type n -> (value n <> None -> value m <> None) -> url m = url n ->
  passable n -> passable m.
Proof.
  intros T V U [H1 H2]. unfold passable, candidate, is_type in *.
  rewrite T, U. split; [intros C; apply V, H1, C | exact H2].
Qed.

Lemma passable_set_some n v : passable n -> passable (set_value n (Some v)).
Proof.
  apply passable_same; try reflexivity. intros _. discriminate.
Qed.

Lemma passable_set_children n cs : passable n -> passable (set_children n cs).
Proof. apply passable_same; try reflexivity. trivial. Qed.

Lemma passable_take_title row t row' :
  passable row -> take_title row = Some (t, row') -> passable row'.
Proof.
  intros H E. unfold take_title in E.
  destruct (children row) as [[|firstCell cells]|]; try discriminate.
  destruct (children firstCell) as [[|c0 cs0]|]; inversion E; subst;
    exact H.
Qed.

Lemma passable_value n :
  passable n -> candidate n = true -> exists v, value n = Some v.
Proof.
  intros [H _] C. destruct (value n) as [v|] eqn:V.
  - exists v. reflexivity.
  - exfalso. exact (H C eq_refl).
Qed.

Lemma candidate_text n : is_type "text" n = true -> candidate n = true.
Proof. unfold candidate. intros ->. reflexivity. Qed.

Lemma decode_spaces_passable n : passable n -> passable (decode_spaces n).
Proof.
  intros H. unfold decode_spaces.
  destruct ((is_type "text" n || is_type "html" n) && truthy (value n));
    [apply passable_set_some |]; exact H.
Qed.

Lemma merge_from_passable l : forall last,
  passable last -> Forall passable l -> Forall passable (merge_from last l).
Proof.
  induction l as [|cur l IH]; intros last Hl HP; cbn [merge_from].
  - constructor; [exact Hl | constructor].
  - inversion HP; subst.
    destruct (is_type "text" last && is_type "text" cur).
    + apply IH; [apply passable_set_some; exact Hl | assumption].
    + constructor; [exact Hl |]. apply IH; assumption.
Qed.

Lemma merge_text_passable l : Forall passable l -> Forall passable (merge_text l).
Proof.
  intros HP. destruct l as [|n l]; [constructor |].
  rewrite merge_text_cons. inversion HP; subst.
  apply merge_from_passable; assumption.
Qed.

(** The three-node test reads only values that are there. *)
Lemma custom_footnote_ok cs :
  Forall passable cs -> exists r, custom_footnote cs = Ok r.
Proof.
  intros HP. unfold custom_footnote.
  destruct cs as [|c1 rest1]; [eexists; reflexivity |].
  inversion HP as [|? ? H1 Hr]; subst.
  destruct (is_type "text" c1) eqn:T1; cbn [negb]; [| eexists; reflexivity].
  destruct (passable_value c1 H1 (candidate_text c1 T1)) as (v1 & V1).
  unfold value_endsWith. rewrite V1. cbn [rbind].
  destruct (endsWith (lit "^[") v1); cbn [negb]; [| eexists; reflexivity].
  destruct rest1 as [|c2 [|c3 rest3]]; try (eexists; reflexivity).
  destruct (is_type "link" c2); cbn [negb]; [| eexists; reflexivity].
  destruct (children c2) as [[|l0 ls]|]; try (eexists; reflexivity).
  destruct (is_type "text" c3) eqn:T3; cbn [negb]; [| eexists; reflexivity].
  inversion Hr as [|? ? _ Hr2]; subst. inversion Hr2 as [|? ? H3 _]; subst.
  destruct (passable_value c3 H3 (candidate_text c3 T3)) as (v3 & V3).
  unfold value_startsWith. rewrite V3. cbn [rbind].
  destruct (startsWith (lit "]") v3); eexists; reflexivity.
Qed.

Lemma splice_loop_ok fuel : forall cs,
  length cs <= fuel -> Forall passable cs ->
  exists out, splice_loop fuel cs = Ok out.
Proof.
  induction fuel as [|fuel IH]; intros cs Hl HP.
  - destruct cs; [eexists; reflexivity | simpl in Hl; lia].
  - destruct cs as [|c rest1]; [eexists; reflexivity |].
    rewrite splice_loop_S.
    destruct (custom_footnote_ok _ HP) as (r & E). rewrite E. cbn [rbind].
    destruct r as [[[linkText v1] v3]|].
    + pose proof (custom_footnote_length _ _ E) as L3.
      assert (Hs : Forall passable (skipn 3 (c :: rest1)))
        by (apply Forall_skipn; exact HP).
      assert (Ls : length (skipn 3 (c :: rest1)) + 3 = length (c :: rest1))
        by (rewrite length_skipn; lia).
      destruct (IH (match slice_from 1 v3 with
                    | [] => skipn 3 (c :: rest1)
                    | _ => text (slice_from 1 v3) :: skipn 3 (c :: rest1)
                    end)) as (out & Eo).
      * destruct (slice_from 1 v3); cbn [length]; cbn [length] in Hl, Ls; lia.
      * destruct (slice_from 1 v3); [exact Hs |].
        constructor; [apply passable_text | exact Hs].
      * rewrite Eo. eexists. reflexivity.
    + inversion HP; subst.
      destruct (IH rest1) as (out & Eo); [simpl in Hl; lia | assumption |].
      rewrite Eo. eexists. reflexivity.
Qed.

Lemma transformCustomFootnotes_children_ok cs :
  Forall passable cs ->
  exists out, transformCustomFootnotes_children cs = Ok out /\
              Forall passable out.
Proof.
  intros HP. unfold transformCustomFootnotes_children.
  destruct (splice_loop_ok (length cs) cs (le_n _) HP) as (out & E).
  rewrite E. cbn [rbind]. eexists. split; [reflexivity |].
  apply merge_text_passable.
  exact (splice_loop_keeps passable passable_text _ _ _ HP E).
Qed.

Lemma regex_children_ok rx tpl cs :
  Forall passable cs ->
  exists out, regex_children rx tpl cs = Ok out /\ Forall passable out.
Proof.
  intros HP.
  assert (E : exists out, regex_children rx tpl cs = Ok out).
  { induction cs as [|child cs IH]; [eexists; reflexivity |].
    inversion HP as [|? ? Hc Hcs]; subst.
    destruct (IH Hcs) as (out & E). cbn [regex_children]. rewrite E.
    destruct (negb (is_type "text" child) && negb (is_type "html" child)
              && negb (is_type "blockquote" child)) eqn:G.
    - eexists. reflexivity.
    - destruct (passable_value child Hc) as (v & V).
      + unfold candidate.
        destruct (is_type "text" child), (is_type "html" child),
          (is_type "blockquote" child); try reflexivity; discriminate.
      + rewrite V. eexists. reflexivity. }
  destruct E as (out & E). exists out. split; [exact E |].
  exact (regex_children_keeps passable passable_text passable_html _ _ _ _ HP E).
Qed.

Lemma rx_pass_ok rx tpl cs st :
  Forall passable cs ->
  exists out, rx_pass rx tpl cs st = Ok (out, st) /\ Forall passable out.
Proof.
  intros HP. destruct (regex_children_ok rx tpl cs HP) as (out & E & F).
  exists out. split; [| exact F]. unfold rx_pass, lift. rewrite E. reflexivity.
Qed.

Lemma imgRegex_children_range cs : forall st e,
  Forall passable cs -> imgRegex_children cs st = Throw e -> e = RangeExn.
Proof.
  induction cs as [|child cs IH]; intros st e HP H; [discriminate |].
  inversion HP as [|? ? Hc Hcs]; subst.
  cbn [imgRegex_children] in H.
  destruct (negb (is_type "image" child)) eqn:T.
  - apply bind_throw_inv in H. destruct H as [H | (a & st' & _ & H)];
      [exact (IH _ _ Hcs H) | discriminate].
  - apply bind_throw_inv in H. destruct H as [H | (n & st1 & _ & H)];
      [discriminate |].
    apply bind_throw_inv in H. destruct H as [H | (cn & st2 & _ & H)].
    { unfold lift in H.
      destruct (numberToChinese (of_N n)) eqn:E; [discriminate |].
      inversion H; subst. exact (numberToChinese_exn _ _ E). }
    apply bind_throw_inv in H. destruct H as [H | (u & st3 & _ & H)].
    { unfold lift in H. destruct (url child) eqn:U; [discriminate |].
      apply negb_false_iff in T. destruct Hc as [_ Hu].
      exfalso. exact (Hu T U). }
    apply bind_throw_inv in H. destruct H as [H | (a & st' & _ & H)];
      [exact (IH _ _ Hcs H) | discriminate].
Qed.

Lemma tblCaption_range t st e : tblCaption t st = Throw e -> e = RangeExn.
Proof.
  unfold tblCaption. intros H.
  apply bind_throw_inv in H. destruct H as [H | (n & st1 & _ & H)];
    [discriminate |].
  apply bind_throw_inv in H. destruct H as [H | (cn & st2 & _ & H)];
    [| discriminate].
  unfold lift in H.
  destruct (numberToChinese (of_N n)) eqn:E; [discriminate |].
  inversion H; subst. exact (numberToChinese_exn _ _ E).
Qed.

Lemma tblRegex_children_range cs : forall isInTbl isFirstRow t st e,
  tblRegex_children isInTbl isFirstRow t cs st = Throw e -> e = RangeExn.
Proof.
  induction cs as [|child cs IH]; intros isInTbl isFirstRow t st e H.
  - cbn [tblRegex_children] in H. destruct isInTbl; [| discriminate].
    apply bind_throw_inv in H. destruct H as [H | (a & st' & _ & H)];
      [exact (tblCaption_range _ _ _ H) | discriminate].
  - cbn [tblRegex_children] in H.
    destruct (negb (is_type "tableRow" child)).
    + destruct isInTbl.
      * apply bind_throw_inv in H. destruct H as [H | (a & st' & _ & H)];
          [exact (tblCaption_range _ _ _ H) |].
        apply bind_throw_inv in H. destruct H as [H | (a' & st'' & _ & H)];
          [exact (IH _ _ _ _ _ H) | discriminate].
      * apply bind_throw_inv in H. destruct H as [H | (a & st' & _ & H)];
          [exact (IH _ _ _ _ _ H) | discriminate].
    + destruct (if isFirstRow then take_title child else None)
        as [[title child']|];
        apply bind_throw_inv in H; destruct H as [H | (a & st' & _ & H)];
        solve [exact (IH _ _ _ _ _ H) | discriminate].
Qed.

(** One pass of the visitor after another: a pass that throws can only
    throw the range error, and a pass that returns gives passable nodes to
    the next. *)
Ltac pass_step H :=
  let a := fresh "a" in
  let st' := fresh "st'" in
  let Hok := fresh "Hok" in
  let E := fresh "E" in
  apply bind_throw_inv in H;
  destruct H as [H | (a & st' & Hok & H)];
  [ match type of H with
    | rx_pass ?rx ?tpl ?l ?s = Throw _ =>
      match goal with
      | HP : Forall passable l |- _ =>
        destruct (rx_pass_ok rx tpl l s HP) as (? & E & _);
        rewrite E in H; discriminate
      end
    | imgRegex_children ?l ?s = Throw _ =>
      match goal with
      | HP : Forall passable l |- _ => exact (imgRegex_children_range _ _ _ HP H)
      end
    | tblRegex_children _ _ _ ?l ?s = Throw _ =>
      exact (tblRegex_children_range _ _ _ _ _ _ H)
    | footnoteRegex_children ?l ?s = Throw _ =>
      destruct (footnoteRegex_children_spec l s) as (? & E);
      rewrite E in H; discriminate
    end
  | match type of Hok with
    | rx_pass ?rx ?tpl ?l ?s = Ok _ =>
      match goal with
      | HP : Forall passable l |- _ =>
        apply (rx_pass_keeps passable passable_text passable_html
                 _ _ _ _ _ _ HP) in Hok; destruct Hok as [Hok _]
      end
    | imgRegex_children ?l ?s = Ok _ =>
      match goal with
      | HP : Forall passable l |- _ =>
        apply (imgRegex_children_keeps passable passable_html _ _ _ _ HP) in Hok
      end
    | tblRegex_children _ _ _ ?l ?s = Ok _ =>
      match goal with
      | HP : Forall passable l |- _ =>
        apply (tblRegex_children_keeps passable passable_html
                 passable_take_title _ _ _ _ _ _ _ HP) in Hok
      end
    | footnoteRegex_children ?l ?s = Ok _ =>
      match goal with
      | HP : Forall passable l |- _ =>
        apply (footnoteRegex_children_keeps passable passable_text
                 passable_html _ _ _ _ HP) in Hok
      end
    end ].

Lemma visitor_children_range cs st e :
  Forall passable cs -> visitor_children cs st = Throw e -> e = RangeExn.
Proof.
  intros HP H. unfold visitor_children in H.
  assert (H0 : Forall passable (map decode_spaces cs)).
  { apply Forall_forall. intros n Hin. apply in_map_iff in Hin.
    destruct Hin as (m & <- & Hm). apply decode_spaces_passable.
    rewrite Forall_forall in HP. exact (HP m Hm). }
  revert H0 H. generalize (map decode_spaces cs). intros cs0 H0 H.
  destruct (transformCustomFootnotes_children_ok cs0 H0) as (cs1 & E1 & H1).
  unfold bind at 1 in H. unfold lift at 1 in H. rewrite E1 in H.
  cbv beta iota in H.
  do 22 pass_step H.
  match type of H with
  | rx_pass ?rx ?tpl ?l ?s = Throw _ =>
    match goal with
    | HP : Forall passable l |- _ =>
      let E := fresh "E" in
      destruct (rx_pass_ok rx tpl l s HP) as (? & E & _);
      rewrite E in H; discriminate
    end
  end.
Qed.

End Passable.

Section WellFormedWalk.

Lemma well_formed_eq n :
  well_formed n <->
  match children n with
  | Some cs => (is_visited n = true -> Forall passable cs)
               /\ Forall well_formed cs
  | None => True
  end.
Proof.
  destruct n as [t v u a [cs|]]; cbn [well_formed children]; [| tauto].
  assert (G : (fix all (l : list node) : Prop :=
                 match l with
                 | [] => True
                 | c :: l' => well_formed c /\ all l'
                 end) cs <-> Forall well_formed cs).
  { induction cs as [|c cs IH].
    - split; [constructor | trivial].
    - split.
      + intros [H1 H2]. constructor; [exact H1 | apply IH; exact H2].
      + intros H. inversion H; subst. split; [assumption | apply IH; assumption]. }
  rewrite G. tauto.
Qed.

Lemma well_formed_leaf n : children n = None -> well_formed n.
Proof. intros E. apply well_formed_eq. rewrite E. exact I. Qed.

Lemma well_formed_set_value n v : well_formed n -> well_formed (set_value n v).
Proof.
  intros H. apply well_formed_eq in H. apply well_formed_eq.
  destruct n as [t v0 u a cs]. exact H.
Qed.

Lemma well_formed_set_children n cs :
  (is_visited n = true -> Forall passable cs) ->
  Forall well_formed cs ->
  well_formed (set_children n (Some cs)).
Proof.
  intros H1 H2. apply well_formed_eq.
  destruct n as [t v u a cs0]. split; assumption.
Qed.

Lemma well_formed_take_title row t row' :
  well_formed row -> take_title row = Some (t, row') -> well_formed row'.
Proof.
  intros H E. unfold take_title in E. apply well_formed_eq in H.
  destruct (children row) as [[|firstCell cells]|] eqn:C; try discriminate.
  destruct H as [Hv Hf]. inversion Hf as [|? ? Hfirst Hcells]; subst.
  destruct (children firstCell) as [[|c0 cs0]|] eqn:C1.
  - inversion E; subst. apply well_formed_eq. rewrite C. split; assumption.
  - inversion E; subst. apply well_formed_eq in Hfirst. rewrite C1 in Hfirst.
    destruct Hfirst as [Hv1 Hf1]. inversion Hf1 as [|? ? Hc0 Hcs0]; subst.
    apply well_formed_set_children.
    + intros V. specialize (Hv V). inversion Hv; subst.
      constructor; [| assumption].
      apply passable_set_children. assumption.
    + constructor; [| assumption].
      apply well_formed_set_children.
      * intros V. specialize (Hv1 V). inversion Hv1; subst.
        constructor; [| assumption]. apply passable_set_some. assumption.
      * constructor; [| assumption]. apply well_formed_set_value. assumption.
  - inversion E; subst. apply well_formed_eq. rewrite C. split; assumption.
Qed.

Lemma visitor_children_well_formed cs st out st' :
  Forall well_formed cs ->
  visitor_children cs st = Ok (out, st') -> Forall well_formed out.
Proof.
  apply visitor_children_keeps.
  - intros v. apply well_formed_leaf. reflexivity.
  - intros v. apply well_formed_leaf. reflexivity.
  - exact well_formed_set_value.
  - exact well_formed_take_title.
Qed.

Lemma mapM_exn (Q : exn -> Prop) (f : node -> M node) l :
  (forall a st e, In a l -> f a st = Throw e -> Q e) ->
  forall st e, mapM f l st = Throw e -> Q e.
Proof.
  induction l as [|a l IH]; intros Hf st e H; [discriminate |].
  cbn [mapM] in H.
  apply bind_throw_inv in H. destruct H as [H | (b & st1 & _ & H)].
  - exact (Hf a st e (or_introl eq_refl) H).
  - apply bind_throw_inv in H. destruct H as [H | (bs & st2 & _ & H)].
    + exact (IH (fun a' st' e' Hin => Hf a' st' e' (or_intror Hin)) st1 e H).
    + discriminate.
Qed.

(** The walk of a well-formed tree throws no type error. *)
Lemma visit_no_type_error fuel : forall n st e,
  well_formed n -> visit fuel n st = Throw e -> e <> TypeError.
Proof.
  induction fuel as [|fuel IH]; intros n st e Hn H.
  - inversion H. discriminate.
  - cbn [visit] in H. apply well_formed_eq in Hn.
    apply bind_throw_inv in H. destruct H as [H | (n1 & st1 & H1 & H)].
    + destruct (is_visited n) eqn:V; [| discriminate].
      unfold visitor in H. destruct (children n) as [cs|]; [| discriminate].
      destruct Hn as [Hp _].
      apply bind_throw_inv in H. destruct H as [H | (a & st' & _ & H)];
        [| discriminate].
      rewrite (visitor_children_range _ _ _ (Hp eq_refl) H). discriminate.
    + assert (Hkids : forall cs1, children n1 = Some cs1 ->
                Forall well_formed cs1).
      { intros cs1 E1. destruct (is_visited n).
        - unfold visitor in H1. destruct (children n) as [cs|] eqn:E.
          + destruct Hn as [_ Hf]. run_inv H1.
            cbn [children] in E1. inversion E1; subst.
            exact (visitor_children_well_formed _ _ _ _ Hf Hstep).
          + inversion H1; subst. congruence.
        - inversion H1; subst. rewrite E1 in Hn. exact (proj2 Hn). }
      destruct (children n1) as [cs1|]; [| discriminate].
      apply bind_throw_inv in H. destruct H as [H | (a & st' & _ & H)];
        [| discriminate].
      apply (mapM_exn (fun e => e <> TypeError) (visit fuel) cs1) in H;
        [exact H |].
      intros a st' e' Hin. apply IH.
      pose proof (Hkids cs1 eq_refl) as F. rewrite Forall_forall in F.
      exact (F a Hin).
Qed.

(** A node that has a list of children has one after the walk. *)
Lemma visit_children fuel n st n' st' :
  visit fuel n st = Ok (n', st') -> children n <> None -> children n' <> None.
Proof.
  destruct fuel as [|fuel]; [discriminate |].
  cbn [visit]. intros H C. apply bind_inv in H.
  destruct H as (n1 & st1 & H1 & H2).
  assert (C1 : children n1 <> None).
  { destruct (is_visited n).
    - unfold visitor in H1. destruct (children n); [| contradiction].
      run_inv H1. discriminate.
    - inversion H1; subst. exact C. }
  destruct (children n1); [| contradiction].
  run_inv H2. discriminate.
Qed.

End WellFormedWalk.

(** X13. On a well-formed tree, one in which the text, raw-markup and
    quote-block children of every visited node have a value and the image
    children have an address, and whose root has a list of children, the
    only exception the transformer can throw is the range error of the
    Ordinal Formatter: no property of a missing value is ever read. *)
Theorem well_formed_run_throws_range tree e :
  well_formed tree ->
  children tree <> None ->
  markdownReplace tree = Throw e ->
  e = RangeExn.
Proof.
  intros W C H.
  assert (R : markdownReplace_run tree = Throw e).
  { unfold markdownReplace in H.
    destruct (markdownReplace_run tree) as [r|e0]; [discriminate |].
    cbn [rbind] in H. inversion H. reflexivity. }
  pose proof (markdownReplace_run_no_fuel_error tree) as F.
  assert (T : e <> TypeError).
  { unfold markdownReplace_run in R.
    destruct (visit (height tree) tree initial_state) as [[tree' st]|e'] eqn:V.
    - pose proof (visit_children _ _ _ _ _ V C) as C'.
      unfold finalize in R. destruct (children tree'); [| contradiction].
      discriminate.
    - inversion R; subst. exact (visit_no_type_error _ _ _ _ W V). }
  rewrite R in F.
  destruct e; [reflexivity | exfalso; apply T | exfalso; apply F]; reflexivity.
Qed.

Lemma well_formed_run_throws_range_witness : RangeExn = RangeExn.
Proof.
  apply (well_formed_run_throws_range hundred_images RangeExn).
  - apply well_formed_eq. split; [discriminate |].
    constructor; [| constructor].
    apply well_formed_eq. split; [intros _ |];
      apply Forall_forall; intros x Hin; apply repeat_spec in Hin; subst x.
    + split; [discriminate | intros _; discriminate].
    + exact I.
  - discriminate.
  - vm_compute. reflexivity.
Defined.

(* ================================================================== *)
(** * The Pattern Rewriter on a node *)
(* ================================================================== *)

Section RewriterErrors.

Lemma regex_children_throws rx tpl cs :
  (exists e, regex_children rx tpl cs = Throw e) <->
  exists c, In c cs /\ candidate c = true /\ value c = None.
Proof.
  induction cs as [|child cs IH].
  - split; [intros [e H]; discriminate | intros (c & [] & _)].
  - cbn [regex_children]. unfold candidate in *.
    destruct (is_type "text" child) eqn:T1;
      [| destruct (is_type "html" child) eqn:T2;
         [| destruct (is_type "blockquote" child) eqn:T3]];
      cbn [negb andb orb].
    4: { split.
         - intros [e H]. destruct (regex_children rx tpl cs) as [out|e'] eqn:E;
             [discriminate |].
           destruct (proj1 IH (ex_intro _ e' eq_refl)) as (c & Hin & Hc).
           exists c. split; [right; exact Hin | exact Hc].
         - intros (c & [Hin|Hin] & Hc & Hv).
           + subst c. rewrite T1, T2, T3 in Hc. discriminate.
           + destruct (proj2 IH (ex_intro _ c (conj Hin (conj Hc Hv)))) as [e E].
             exists e. rewrite E. reflexivity. }
    all: destruct (value child) as [v|] eqn:V.
    all: try (split;
              [ intros _; exists child; split; [left; reflexivity |];
                split; [rewrite ?T1, ?T2, ?T3; reflexivity | exact V]
              | intros _; exists TypeError; reflexivity ]).
    all: split;
      [ intros [e H]; destruct (regex_children rx tpl cs) as [out|e'] eqn:E;
          [discriminate |];
        destruct (proj1 IH (ex_intro _ e' eq_refl)) as (c & Hin & Hc);
        exists c; split; [right; exact Hin | exact Hc]
      | intros (c & [Hin|Hin] & Hc & Hv);
        [ subst c; congruence
        | destruct (proj2 IH (ex_intro _ c (conj Hin (conj Hc Hv)))) as [e E];
          exists e; rewrite E; reflexivity ] ].
Qed.

End RewriterErrors.

(** X14. The Pattern Rewriter throws nothing but a type error, and throws
    exactly when the node has no list of children or one of the children
    it reads, a text, raw-markup or quote-block node, has no value. *)
Theorem regex_throws n rx tpl :
  (forall e, regex n rx tpl = Throw e -> e = TypeError) /\
  ((exists e, regex n rx tpl = Throw e) <->
   match children n with
   | None => True
   | Some cs => exists c, In c cs /\ candidate c = true /\ value c = None
   end).
Proof.
  unfold regex, iter_children. destruct (children n) as [cs|]; cbn [rbind].
  - split; [| apply regex_children_throws].
    intros e H. exact (regex_children_exn _ _ _ _ H).
  - split; [intros e H; inversion H; reflexivity |].
    split; [trivial | intros _; eexists; reflexivity].
Qed.

(** X15. On a node whose children hold no quote-block and whose text and
    raw-markup children have a value, the Pattern Rewriter returns a list
    of the same length.  At each index a text or raw-markup child whose
    value the replacement changes has become a raw-markup node with the
    replaced value; one whose value it does not change is kept when it is
    raw markup and rebuilt as a text node with the same value when it is
    text; every other child is the same node. *)
Theorem regex_rewrites n rx tpl cs :
  children n = Some cs ->
  (forall c, In c cs -> is_type "blockquote" c = false) ->
  (forall c, In c cs -> is_type "text" c = true \/ is_type "html" c = true ->
             value c <> None) ->
  exists out,
    regex n rx tpl = Ok out /\
    length out = length cs /\
    forall i c, nth_error cs i = Some c ->
      nth_error out i =
      Some (if is_type "text" c || is_type "html" c
            then (if str_eqb (replace rx tpl (or_empty (value c)))
                             (or_empty (value c))
                  then (if is_type "html" c then c
                        else text (or_empty (value c)))
                  else html (replace rx tpl (or_empty (value c))))
            else c).
Proof.
  intros C Hb Hv. unfold regex, iter_children. rewrite C. cbn [rbind].
  exact (regex_children_text_html rx tpl cs Hb Hv).
Qed.

Lemma regex_rewrites_witness :
  exists out,
    regex (paragraph [text (lit "a「b」"); link (lit "/x") []; html (lit "<i>")])
          Rx.corner (lit "「<em>$1</em>」") = Ok out /\
    length out = 3 /\
    forall i c,
      nth_error [text (lit "a「b」"); link (lit "/x") []; html (lit "<i>")] i
        = Some c ->
      nth_error out i =
      Some (if is_type "text" c || is_type "html" c
            then (if str_eqb
                       (replace Rx.corner (lit "「<em>$1</em>」")
                                (or_empty (value c)))
                       (or_empty (value c))
                  then (if is_type "html" c then c
                        else text (or_empty (value c)))
                  else html (replace Rx.corner (lit "「<em>$1</em>」")
                                     (or_empty (value c))))
            else c).
Proof.
  apply (regex_rewrites
           (paragraph [text (lit "a「b」"); link (lit "/x") []; html (lit "<i>")])
           Rx.corner (lit "「<em>$1</em>」")
           [text (lit "a「b」"); link (lit "/x") []; html (lit "<i>")]).
  - reflexivity.
  - intros c [H|[H|[H|[]]]]; subst c; reflexivity.
  - intros c [H|[H|[H|[]]]] T; subst c; try discriminate;
      destruct T as [T|T]; discriminate T.
Defined.

(* ================================================================== *)
(** * One table *)
(* ================================================================== *)

(** X16. A table, that is a node whose children are table rows only, the
    first of which has a first cell with a first child: the title is the
    value of that child, or the empty string when it has none or an empty
    one; the child's value is blanked; all the rows are kept in order, and
    one caption with the next ordinal and the title follows the last
    row.  The table counter goes up by one. *)
Theorem tblRegex_one_table n row cell c0 cells kids rows st :
  children n = Some (row :: rows) ->
  is_type "tableRow" row = true ->
  Forall (fun r => is_type "tableRow" r = true) rows ->
  children row = Some (cell :: cells) ->
  children cell = Some (c0 :: kids) ->
  (tblNum st + 1 <= 99)%N ->
  tblRegex n st
  = Ok (set_children row
          (Some (set_children cell (Some (set_value c0 (Some []) :: kids))
                   :: cells))
          :: rows
          ++ [html (tblCaptionHtml (ordinal_spec (Z.of_N (tblNum st + 1)))
                                   (or_empty (value c0)))],
        with_tblNum st (tblNum st + 1)).
Proof.
  intros C Hr Hrows Crow Ccell Hn.
  unfold tblRegex, iter_children. rewrite C.
  unfold bind at 1. unfold lift. cbv beta iota.
  apply (tblRegex_children_table row rows (or_empty (value c0))); try assumption.
  unfold take_title. rewrite Crow, Ccell. reflexivity.
Qed.

Lemma tblRegex_one_table_witness :
  tblRegex (table [tableRow [tableCell [text (lit "Title"); text (lit "x")];
                             tableCell [text (lit "b")]];
                   tableRow [tableCell [text (lit "c")]]])
           (State 0 4 0 [])
  = Ok ([tableRow [tableCell [text []; text (lit "x")];
                   tableCell [text (lit "b")]];
         tableRow [tableCell [text (lit "c")]];
         html (tblCaptionHtml (lit "五") (lit "Title"))],
        State 0 5 0 []).
Proof.
  apply (tblRegex_one_table
           (table [tableRow [tableCell [text (lit "Title"); text (lit "x")];
                             tableCell [text (lit "b")]];
                   tableRow [tableCell [text (lit "c")]]])
           (tableRow [tableCell [text (lit "Title"); text (lit "x")];
                      tableCell [text (lit "b")]])
           (tableCell [text (lit "Title"); text (lit "x")])
           (text (lit "Title"))
           [tableCell [text (lit "b")]]
           [text (lit "x")]
           [tableRow [tableCell [text (lit "c")]]]
           (State 0 4 0 [])).
  - reflexivity.
  - reflexivity.
  - repeat constructor.
  - reflexivity.
  - reflexivity.
  - vm_compute. discriminate.
Defined.

(* ================================================================== *)
(** * The splicer on a list without links *)
(* ================================================================== *)

Section SplicerPlain.

Lemma custom_footnote_no_link cs :
  Forall (fun c => is_type "link" c = false) cs ->
  Forall (fun c => is_type "text" c = true -> value c <> None) cs ->
  custom_footnote cs = Ok None.
Proof.
  intros Hl Hv. unfold custom_footnote.
  destruct cs as [|c1 rest1]; [reflexivity |].
  destruct (is_type "text" c1) eqn:T1; cbn [negb]; [| reflexivity].
  inversion Hv as [|? ? H1 _]; subst.
  unfold value_endsWith. destruct (value c1) as [v1|] eqn:V1;
    [| exfalso; exact (H1 T1 eq_refl)].
  cbn [rbind]. destruct (endsWith (lit "^[") v1); cbn [negb]; [| reflexivity].
  destruct rest1 as [|c2 [|c3 rest3]]; try reflexivity.
  inversion Hl as [|? ? _ Hl2]; subst. inversion Hl2 as [|? ? L2 _]; subst.
  rewrite L2. reflexivity.
Qed.

Lemma splice_loop_no_link fuel : forall cs,
  length cs <= fuel ->
  Forall (fun c => is_type "link" c = false) cs ->
  Forall (fun c => is_type "text" c = true -> value c <> None) cs ->
  splice_loop fuel cs = Ok cs.
Proof.
  induction fuel as [|fuel IH]; intros cs Hn Hl Hv.
  - destruct cs; [reflexivity | simpl in Hn; lia].
  - destruct cs as [|c rest1]; [reflexivity |].
    rewrite splice_loop_S, (custom_footnote_no_link _ Hl Hv). cbn [rbind].
    inversion Hl; inversion Hv; subst.
    rewrite IH; [reflexivity | simpl in Hn; lia | assumption | assumption].
Qed.

Lemma merge_from_fixed l : forall last,
  no_adjacent_text (last :: l) -> merge_from last l = last :: l.
Proof.
  induction l as [|cur l IH]; intros last H; [reflexivity |].
  cbn [merge_from]. cbn [no_adjacent_text] in H. destruct H as [H1 H2].
  rewrite H1. rewrite (IH cur H2). reflexivity.
Qed.

Lemma merge_text_fixed l : no_adjacent_text l -> merge_text l = l.
Proof.
  intros H. destruct l as [|a [|b l]]; try reflexivity.
  rewrite merge_text_cons. apply merge_from_fixed. exact H.
Qed.

End SplicerPlain.

(** X17. The splicer needs a link to do anything but merge: on a list with
    no link node, whose text nodes have a value, it returns the list with
    the neighbouring text nodes merged; it returns the very list when no
    two text nodes are neighbours.  Merging a second time changes
    nothing. *)
Theorem transformCustomFootnotes_no_link cs :
  Forall (fun c => is_type "link" c = false) cs ->
  Forall (fun c => is_type "text" c = true -> value c <> None) cs ->
  transformCustomFootnotes_children cs = Ok (merge_text cs) /\
  merge_text (merge_text cs) = merge_text cs /\
  (no_adjacent_text cs -> transformCustomFootnotes_children cs = Ok cs).
Proof.
  intros Hl Hv.
  assert (E : transformCustomFootnotes_children cs = Ok (merge_text cs)).
  { unfold transformCustomFootnotes_children.
    rewrite (splice_loop_no_link _ cs (le_n _) Hl Hv). reflexivity. }
  split; [exact E |]. split.
  - apply merge_text_fixed. apply merge_text_no_adjacent.
  - intros H. rewrite E, (merge_text_fixed cs H). reflexivity.
Qed.

Lemma transformCustomFootnotes_no_link_witness :
  let cs := [text (lit "a^["); text (lit "]b"); html (lit "<i>"); text (lit "c")] in
  transformCustomFootnotes_children cs = Ok (merge_text cs) /\
  merge_text (merge_text cs) = merge_text cs /\
  (no_adjacent_text cs -> transformCustomFootnotes_children cs = Ok cs).
Proof.
  apply (transformCustomFootnotes_no_link
           [text (lit "a^["); text (lit "]b"); html (lit "<i>"); text (lit "c")]).
  - repeat constructor.
  - repeat constructor; discriminate.
Defined.

(* ================================================================== *)
(** * Wiki links *)
(* ================================================================== *)

Section WikiLinks.

(** A lazy star over a run of units of the set, when the continuation
    fails before the end of the run and succeeds at its end. *)
Lemma star_lazy_first k cs cont z (tail : jsstring) : forall (body : jsstring) p,
  Forall (fun d => cset_mem k d = true) body ->
  (forall i, i < length body ->
     cont (MState (p + i) (skipn i body ++ tail) cs) = None) ->
  cont (MState (p + length body) tail cs) = Some z ->
  star false k cs cont p (body ++ tail) = Some z.
Proof.
  induction body as [|b body IH]; intros p Hb Hn Hs.
  - cbn [app length] in *. rewrite Nat.add_0_r in Hs.
    destruct tail as [|c tail]; cbn [star]; rewrite Hs;
      [reflexivity | destruct (cset_mem k c); reflexivity].
  - inversion Hb as [|? ? Hb1 Hb2]; subst.
    cbn [app star]. rewrite Hb1.
    pose proof (Hn 0 ltac:(simpl; lia)) as H0.
    rewrite Nat.add_0_r in H0. cbn [skipn app] in H0. rewrite H0.
    apply IH.
    + exact Hb2.
    + intros i Hi. specialize (Hn (S i) ltac:(simpl; lia)).
      cbn [skipn] in Hn. rewrite <- Hn. do 2 f_equal. lia.
    + rewrite <- Hs. cbn [length]. do 2 f_equal. lia.
Qed.

Lemma target_not_closed (name : jsstring) i :
  Forall target_unit name -> i < length name ->
  startsWith (lit "]]") (skipn i name ++ lit "]]") = false.
Proof.
  intros H Hi. destruct (nth_error_skipn_cons name i Hi) as (d & t & E & Hin).
  rewrite E. rewrite Forall_forall in H. destruct (H d Hin) as [_ Hd].
  change (lit "]]") with [chr "]"; chr "]"]. cbn [app startsWith].
  apply N.eqb_neq in Hd. rewrite N.eqb_sym, Hd. reflexivity.
Qed.

Lemma target_dot (name : jsstring) :
  Forall target_unit name -> Forall (fun d => cset_mem CDot d = true) name.
Proof.
  apply Forall_impl. intros d [H _]. cbn [cset_mem]. rewrite H. reflexivity.
Qed.

Lemma match_at_post (name : jsstring) :
  Forall target_unit name ->
  startsWith (lit "#") name = false ->
  match_at Rx.post 0 (lit "[[" ++ name ++ lit "]]")
  = Some (MState (length (lit "[[" ++ name ++ lit "]]")) [] [(1, name)]).
Proof.
  intros Hn Hh. unfold match_at, Rx.post. cbn [RCat].
  cbn [matcher]. rewrite matcher_RLit_app. cbn [matcher pos rest caps].
  assert (A : match name ++ lit "]]" with
              | [] => None
              | d :: s' =>
                if (d =? chr "#")%N
                then Some (MState (S (0 + length (lit "[["))) s' [])
                else None
              end = None).
  { destruct name as [|d name]; [reflexivity |].
    change (lit "#") with [chr "#"] in Hh. cbn [startsWith] in Hh.
    rewrite andb_true_r, N.eqb_sym in Hh. cbn [app]. rewrite Hh. reflexivity. }
  rewrite A. clear A.
  erewrite (star_lazy_first CDot [] _ _ (lit "]]") name).
  - reflexivity.
  - apply target_dot. exact Hn.
  - intros i Hi. cbn [pos rest caps]. rewrite matcher_RLit.
    cbn [rest]. rewrite (target_not_closed name i Hn Hi). reflexivity.
  - cbn [pos rest caps].
    rewrite matcher_RLit. cbn [rest pos caps].
    change (startsWith (lit "]]") (lit "]]")) with true. cbv iota.
    change (skipn (length (lit "]]")) (lit "]]")) with (@nil char16).
    f_equal. f_equal.
    + rewrite ?length_app. cbn [length]. rewrite ?length_app. cbn [length]. lia.
    + f_equal. f_equal.
      replace (_ - _) with (length name) by lia.
      apply firstn_exact.
Qed.

Lemma match_at_anchor (name : jsstring) :
  Forall target_unit name ->
  match_at Rx.anchor 0 (lit "[[#" ++ name ++ lit "]]")
  = Some (MState (length (lit "[[#" ++ name ++ lit "]]")) []
                 [(1, chr "#" :: name)]).
Proof.
  intros Hn. unfold match_at, Rx.anchor. cbn [RCat].
  change (lit "[[#" ++ name ++ lit "]]")
    with (lit "[[" ++ chr "#" :: name ++ lit "]]").
  cbn [matcher]. rewrite matcher_RLit_app. cbn [matcher pos rest caps].
  rewrite N.eqb_refl.
  erewrite (star_lazy_first CDot [] _ _ (lit "]]") name).
  - reflexivity.
  - apply target_dot. exact Hn.
  - intros i Hi. cbn [pos rest caps]. rewrite matcher_RLit.
    cbn [rest]. rewrite (target_not_closed name i Hn Hi). reflexivity.
  - cbn [pos rest caps].
    rewrite matcher_RLit. cbn [rest pos caps].
    change (startsWith (lit "]]") (lit "]]")) with true. cbv iota.
    change (skipn (length (lit "]]")) (lit "]]")) with (@nil char16).
    f_equal. f_equal.
    + rewrite ?length_app. cbn [length]. rewrite ?length_app. cbn [length]. lia.
    + f_equal. f_equal.
      replace (_ - _) with (length (chr "#" :: name)) by (cbn [length]; lia).
      apply (firstn_exact (chr "#" :: name)).
Qed.

(** The replacement of a value that one match covers from its first unit
    to its last, when the pattern does not match the empty rest. *)
Lemma replace_whole r tpl (s : jsstring) y :
  s <> [] ->
  match_at r 0 s = Some y -> pos y = length s ->
  match_at r (length s) [] = None ->
  replace r tpl s = expand (ngroups r) s y tpl.
Proof.
  intros Hs Hm Hp He. unfold replace.
  destruct s as [|c s']; [contradiction |].
  cbn [replace_from]. rewrite Hm, Hp, Nat.sub_0_r, firstn_all.
  cbn [length Nat.eqb]. rewrite Nat.sub_succ, Nat.sub_0_r.
  rewrite replace_from_skip. cbn [replace_from].
  cbn [length] in He. cbn [Nat.add]. rewrite He. apply List.app_nil_r.
Qed.

Lemma expand_group1 m matched y (t : jsstring) :
  1 <= m ->
  expand m matched y (lit "$1" ++ t)
  = or_empty (capture 1 y) ++ expand m matched y t.
Proof.
  intros Hm. change (lit "$1") with [36%N; 49%N].
  cbn [app expand].
  change (36 =? 36)%N with true. change (49 =? 36)%N with false.
  change (49 =? 38)%N with false. change (49 <=? 49)%N with true.
  change (49 <=? 57)%N with true. change (N.to_nat (49 - 48)) with 1.
  cbv iota. cbn [andb].
  destruct (Nat.leb_spec 1 m) as [L|L]; [reflexivity | lia].
Qed.

Lemma expand_group2 m matched y (t : jsstring) :
  2 <= m ->
  expand m matched y (lit "$2" ++ t)
  = or_empty (capture 2 y) ++ expand m matched y t.
Proof.
  intros Hm. change (lit "$2") with [36%N; 50%N].
  cbn [app expand].
  change (36 =? 36)%N with true. change (50 =? 36)%N with false.
  change (50 =? 38)%N with false. change (49 <=? 50)%N with true.
  change (50 <=? 57)%N with true. change (N.to_nat (50 - 48)) with 2.
  cbv iota. cbn [andb].
  destruct (Nat.leb_spec 2 m) as [L|L]; [reflexivity | lia].
Qed.

Lemma wiki_nonempty c (a b d : jsstring) : (c :: a) ++ b ++ d <> [].
Proof. discriminate. Qed.

End WikiLinks.

(** X18. A value that is one wiki link to a post, whose target has no
    closing bracket and no line terminator and does not begin with the
    hash sign, is replaced by an anchor element to the post of that name,
    with the name as its text. *)
Theorem wiki_link_post (name : jsstring) :
  Forall target_unit name ->
  startsWith (lit "#") name = false ->
  replace Rx.post (litq "<a href=`/post/$1`>$1</a>")
          (lit "[[" ++ name ++ lit "]]")
  = litq "<a href=`/post/" ++ name ++ litq "`>" ++ name ++ lit "</a>".
Proof.
  intros Hn Hh.
  rewrite (replace_whole Rx.post _ _ _ (wiki_nonempty _ _ _ _)
             (match_at_post name Hn Hh) eq_refl eq_refl).
  change (litq "<a href=`/post/$1`>$1</a>")
    with (litq "<a href=`/post/" ++ lit "$1" ++ litq "`>" ++ lit "$1"
          ++ lit "</a>").
  change (ngroups Rx.post) with 1.
  rewrite expand_plain by (vm_compute; intuition discriminate).
  rewrite expand_group1 by lia.
  rewrite expand_plain by (vm_compute; intuition discriminate).
  rewrite expand_group1 by lia.
  rewrite expand_plain_end by (vm_compute; intuition discriminate).
  reflexivity.
Qed.

Lemma wiki_link_post_witness :
  replace Rx.post (litq "<a href=`/post/$1`>$1</a>")
          (lit "[[" ++ lit "my page" ++ lit "]]")
  = litq "<a href=`/post/" ++ lit "my page" ++ litq "`>" ++ lit "my page"
    ++ lit "</a>".
Proof.
  apply (wiki_link_post (lit "my page")).
  - vm_compute. repeat constructor; discriminate.
  - reflexivity.
Defined.

(** X19. A value that is one wiki link to a section, the hash sign and a
    name with no closing bracket and no line terminator, is replaced by an
    anchor element whose address and whose text are the hash sign and the
    name. *)
Theorem wiki_link_anchor (name : jsstring) :
  Forall target_unit name ->
  replace Rx.anchor (litq "<a href=`$1`>$1</a>")
          (lit "[[#" ++ name ++ lit "]]")
  = litq "<a href=`" ++ lit "#" ++ name ++ litq "`>" ++ lit "#" ++ name
    ++ lit "</a>".
Proof.
  intros Hn.
  rewrite (replace_whole Rx.anchor _ _ _ (wiki_nonempty _ _ _ _)
             (match_at_anchor name Hn) eq_refl eq_refl).
  change (litq "<a href=`$1`>$1</a>")
    with (litq "<a href=`" ++ lit "$1" ++ litq "`>" ++ lit "$1" ++ lit "</a>").
  change (ngroups Rx.anchor) with 1.
  rewrite expand_plain by (vm_compute; intuition discriminate).
  rewrite expand_group1 by lia.
  rewrite expand_plain by (vm_compute; intuition discriminate).
  rewrite expand_group1 by lia.
  rewrite expand_plain_end by (vm_compute; intuition discriminate).
  reflexivity.
Qed.

Lemma wiki_link_anchor_witness :
  replace Rx.anchor (litq "<a href=`$1`>$1</a>")
          (lit "[[#" ++ lit "part 2" ++ lit "]]")
  = litq "<a href=`" ++ lit "#" ++ lit "part 2" ++ litq "`>" ++ lit "#"
    ++ lit "part 2" ++ lit "</a>".
Proof.
  apply (wiki_link_anchor (lit "part 2")).
  vm_compute. repeat constructor; discriminate.
Defined.

Section DescribedLinks.

Variables (target text : jsstring).

Hypothesis target_units : Forall target_unit target.
Hypothesis target_bar : ~ In (chr "|") target.
Hypothesis text_units : Forall target_unit text.

Lemma target_not_bar i :
  i < length target ->
  exists d t, skipn i target = d :: t /\ (d =? chr "|")%N = false.
Proof.
  intros Hi. destruct (nth_error_skipn_cons target i Hi) as (d & t & E & Hin).
  exists d, t. split; [exact E |]. apply N.eqb_neq. intros ->.
  exact (target_bar Hin).
Qed.

(** The rest of a described link, from the bar on. *)
Lemma described_tail cs p :
  star false CDot cs
    (fun y => matcher (RLit (lit "]]"))
                (MState (pos y) (rest y)
                        ((2, firstn (pos y - p) (text ++ lit "]]")) :: caps y))
                (fun y => Some y))
    p (text ++ lit "]]")
  = Some (MState (p + length text + 2) [] ((2, text) :: cs)).
Proof.
  erewrite (star_lazy_first CDot cs _ _ (lit "]]") text).
  - reflexivity.
  - apply target_dot. exact text_units.
  - intros i Hi. cbn [pos rest caps]. rewrite matcher_RLit.
    cbn [rest]. rewrite (target_not_closed text i text_units Hi). reflexivity.
  - cbn [pos rest caps]. rewrite matcher_RLit. cbn [rest pos caps].
    change (startsWith (lit "]]") (lit "]]")) with true. cbv iota.
    change (skipn (length (lit "]]")) (lit "]]")) with (@nil char16).
    change (length (lit "]]")) with 2.
    replace (p + length text - p) with (length text) by lia.
    rewrite firstn_exact. reflexivity.
Qed.

Lemma match_at_post_desc :
  startsWith (lit "#") target = false ->
  match_at Rx.post_desc 0 (lit "[[" ++ target ++ lit "|" ++ text ++ lit "]]")
  = Some (MState (length (lit "[[" ++ target ++ lit "|" ++ text ++ lit "]]"))
                 [] [(2, text); (1, target)]).
Proof.
  intros Hh. unfold match_at, Rx.post_desc. cbn [RCat].
  cbn [matcher]. rewrite matcher_RLit_app. cbn [matcher pos rest caps].
  assert (A : match target ++ lit "|" ++ text ++ lit "]]" with
              | [] => None
              | d :: s' =>
                if (d =? chr "#")%N
                then Some (MState (S (0 + length (lit "[["))) s' [])
                else None
              end = None).
  { destruct target as [|d tg]; [reflexivity |].
    change (lit "#") with [chr "#"] in Hh. cbn [startsWith] in Hh.
    rewrite andb_true_r, N.eqb_sym in Hh. cbn [app]. rewrite Hh. reflexivity. }
  rewrite A. clear A.
  erewrite (star_lazy_first CDot [] _ _ (lit "|" ++ text ++ lit "]]") target).
  - reflexivity.
  - apply target_dot. exact target_units.
  - intros i Hi. cbn [pos rest caps].
    destruct (target_not_bar i Hi) as (d & t & E & D). rewrite E.
    cbn [app]. rewrite D. reflexivity.
  - cbn [pos rest caps]. change (lit "|") with [chr "|"]. cbn [app].
    rewrite N.eqb_refl.
    replace (0 + length (lit "[[") + length target - (0 + length (lit "[[")))
      with (length target) by lia.
    rewrite firstn_exact.
    etransitivity; [apply (described_tail [(1, target)]) |].
    f_equal. f_equal.
    repeat first [rewrite length_app | progress cbn [length]].
    change (length (lit "]]")) with 2. lia.
Qed.

Lemma match_at_anchor_desc :
  match_at Rx.anchor_desc 0
           (lit "[[#" ++ target ++ lit "|" ++ text ++ lit "]]")
  = Some (MState (length (lit "[[#" ++ target ++ lit "|" ++ text ++ lit "]]"))
                 [] [(2, text); (1, chr "#" :: target)]).
Proof.
  unfold match_at, Rx.anchor_desc. cbn [RCat].
  change (lit "[[#" ++ target ++ lit "|" ++ text ++ lit "]]")
    with (lit "[[" ++ chr "#" :: target ++ lit "|" ++ text ++ lit "]]").
  cbn [matcher]. rewrite matcher_RLit_app. cbn [matcher pos rest caps].
  rewrite N.eqb_refl.
  erewrite (star_lazy_first CDot [] _ _ (lit "|" ++ text ++ lit "]]") target).
  - reflexivity.
  - apply target_dot. exact target_units.
  - intros i Hi. cbn [pos rest caps].
    destruct (target_not_bar i Hi) as (d & t & E & D). rewrite E.
    cbn [app]. rewrite D. reflexivity.
  - cbn [pos rest caps]. change (lit "|") with [chr "|"]. cbn [app].
    rewrite N.eqb_refl.
    replace (S (0 + length (lit "[[")) + length target - (0 + length (lit "[[")))
      with (S (length target)) by lia.
    cbn [firstn]. rewrite firstn_exact.
    etransitivity; [apply (described_tail [(1, chr "#" :: target)]) |].
    f_equal. f_equal.
    repeat first [rewrite length_app | progress cbn [length]].
    change (length (lit "]]")) with 2. lia.
Qed.

End DescribedLinks.

(** X20. A value that is one described wiki link, a target without bar,
    closing bracket or line terminator, a bar, and a text without closing
    bracket or line terminator: a link to a post becomes an anchor element
    to the post of the target with the text as its text, and a link to a
    section becomes an anchor element to the hash sign and the target,
    with the text as its text. *)
Theorem wiki_link_described (target text : jsstring) :
  Forall target_unit target ->
  ~ In (chr "|") target ->
  Forall target_unit text ->
  (startsWith (lit "#") target = false ->
   replace Rx.post_desc (litq "<a href=`/post/$1`>$2</a>")
           (lit "[[" ++ target ++ lit "|" ++ text ++ lit "]]")
   = litq "<a href=`/post/" ++ target ++ litq "`>" ++ text ++ lit "</a>") /\
  replace Rx.anchor_desc (litq "<a href=`$1`>$2</a>")
          (lit "[[#" ++ target ++ lit "|" ++ text ++ lit "]]")
  = litq "<a href=`" ++ lit "#" ++ target ++ litq "`>" ++ text ++ lit "</a>".
Proof.
  intros Ht Hb Hx. split.
  - intros Hh.
    rewrite (replace_whole Rx.post_desc _ _ _ (wiki_nonempty _ _ _ _)
               (match_at_post_desc target text Ht Hb Hx Hh) eq_refl eq_refl).
    change (litq "<a href=`/post/$1`>$2</a>")
      with (litq "<a href=`/post/" ++ lit "$1" ++ litq "`>" ++ lit "$2"
            ++ lit "</a>").
    change (ngroups Rx.post_desc) with 2.
    rewrite expand_plain by (vm_compute; intuition discriminate).
    rewrite expand_group1 by lia.
    rewrite expand_plain by (vm_compute; intuition discriminate).
    rewrite expand_group2 by lia.
    rewrite expand_plain_end by (vm_compute; intuition discriminate).
    reflexivity.
  - rewrite (replace_whole Rx.anchor_desc _ _ _ (wiki_nonempty _ _ _ _)
               (match_at_anchor_desc target text Ht Hb Hx) eq_refl eq_refl).
    change (litq "<a href=`$1`>$2</a>")
      with (litq "<a href=`" ++ lit "$1" ++ litq "`>" ++ lit "$2"
            ++ lit "</a>").
    change (ngroups Rx.anchor_desc) with 2.
    rewrite expand_plain by (vm_compute; intuition discriminate).
    rewrite expand_group1 by lia.
    rewrite expand_plain by (vm_compute; intuition discriminate).
    rewrite expand_group2 by lia.
    rewrite expand_plain_end by (vm_compute; intuition discriminate).
    reflexivity.
Qed.

Lemma wiki_link_described_witness :
  (startsWith (lit "#") (lit "page") = false ->
   replace Rx.post_desc (litq "<a href=`/post/$1`>$2</a>")
           (lit "[[" ++ lit "page" ++ lit "|" ++ lit "a|b" ++ lit "]]")
   = litq "<a href=`/post/" ++ lit "page" ++ litq "`>" ++ lit "a|b"
     ++ lit "</a>") /\
  replace Rx.anchor_desc (litq "<a href=`$1`>$2</a>")
          (lit "[[#" ++ lit "page" ++ lit "|" ++ lit "a|b" ++ lit "]]")
  = litq "<a href=`" ++ lit "#" ++ lit "page" ++ litq "`>" ++ lit "a|b"
    ++ lit "</a>".
Proof.
  apply (wiki_link_described (lit "page") (lit "a|b")).
  - vm_compute. repeat constructor; discriminate.
  - vm_compute. intuition discriminate.
  - vm_compute. repeat constructor; discriminate.
Defined.

(* ================================================================== *)
(** * Plain prose *)
(* ================================================================== *)

Section FailingMatches.









End FailingMatches.

Section VisitorPatterns.





End VisitorPatterns.

Section PlainChildren.

















End PlainChildren.




Section PlainDocument.


End PlainDocument.



(* ================================================================== *)
(** * References to figures and tables, and corner quotes *)
(* ================================================================== *)

Section References.

Variable lead : char16.
Variable name : jsstring.
Hypothesis name_units : Forall target_unit name.

Lemma match_at_reference :
  match_at (reference lead) 0 (lit "[^" ++ lead :: name ++ lit "]")
  = Some (MState (length (lit "[^" ++ lead :: name ++ lit "]")) []
                 [(1, lead :: name)]).
Proof.
  unfold match_at, reference. cbn [RCat].
  cbn [matcher]. rewrite matcher_RLit_app. cbn [matcher pos rest caps].
  rewrite N.eqb_refl.
  erewrite (star_lazy_first CDot [] _ _ (lit "]") name).
  - reflexivity.
  - apply target_dot. exact name_units.
  - intros i Hi. cbn [pos rest caps].
    destruct (nth_error_skipn_cons name i Hi) as (d & t & E & Hin).
    rewrite E. cbn [app]. rewrite Forall_forall in name_units.
    destruct (name_units d Hin) as [_ Hd]. apply N.eqb_neq in Hd.
    rewrite Hd. reflexivity.
  - cbn [pos rest caps]. change (lit "]") with [chr "]"]. cbv beta iota.
    rewrite N.eqb_refl. f_equal. f_equal.
    + repeat first [rewrite length_app | progress cbn [length]]. lia.
    + f_equal. f_equal.
      replace (_ - _) with (S (length name)) by lia.
      cbn [firstn]. rewrite firstn_exact. reflexivity.
Qed.

Lemma reference_nonempty : lit "[^" ++ lead :: name ++ lit "]" <> [].
Proof. change (lit "[^") with [91%N; 94%N]. discriminate. Qed.

Lemma reference_end p : match_at (reference lead) p [] = None.
Proof. reflexivity. Qed.

Lemma replace_reference pre mid1 mid2 post :
  ~ In 36%N pre -> ~ In 36%N mid1 -> ~ In 36%N mid2 -> ~ In 36%N post ->
  replace (reference lead)
          (pre ++ lit "$1" ++ mid1 ++ lit "$1" ++ mid2 ++ lit "$1" ++ post)
          (lit "[^" ++ lead :: name ++ lit "]")
  = pre ++ (lead :: name) ++ mid1 ++ (lead :: name) ++ mid2
    ++ (lead :: name) ++ post.
Proof.
  intros H1 H2 H3 H4.
  rewrite (replace_whole (reference lead) _ _ _ reference_nonempty
             match_at_reference eq_refl (reference_end _)).
  change (ngroups (reference lead)) with 1.
  rewrite expand_plain by exact H1. rewrite expand_group1 by lia.
  rewrite expand_plain by exact H2. rewrite expand_group1 by lia.
  rewrite expand_plain by exact H3. rewrite expand_group1 by lia.
  rewrite expand_plain_end by exact H4. reflexivity.
Qed.

End References.

Ltac opaque_literals :=
  repeat match goal with
  | |- context [litq ?s] => let x := fresh "q" in generalize (litq s); intros x
  | |- context [lit ?s] => let x := fresh "l" in generalize (lit s); intros x
  end.

(** X23. A value that is exactly a reference to a figure, or to a table (an
    opening bracket, a caret, the figure or table character and a name
    with no closing bracket and no line terminator, a closing bracket), is
    replaced by an anchor element whose address is the backward anchor of
    that name, whose id is the forward anchor, and whose text is the
    character and the name.  The figure block and the table caption of a
    numeral carry the backward anchor of the numeral as their id and link
    to its forward anchor: a reference by numeral and the figure or table
    of that numeral link to each other. *)
Theorem reference_links (name : jsstring) :
  Forall target_unit name ->
  (forall floatClass imageUrl altText alt,
     exists pre post,
       figureHtml floatClass imageUrl altText name alt
       = pre ++ litq "<a href=`#img_forward_link_图" ++ name
         ++ litq "` id=`img_backward_link_图" ++ name ++ litq "`>" ++ post) /\
  (forall title,
     exists pre post,
       tblCaptionHtml name title
       = pre ++ litq "<a href=`#tbl_forward_link_表" ++ name
         ++ litq "` id=`tbl_backward_link_表" ++ name ++ litq "`>" ++ post) /\
  replace Rx.img_ref
    (litq "<a href=`#img_backward_link_$1` id=`img_forward_link_$1`>$1</a>")
    (lit "[^图" ++ name ++ lit "]")
  = litq "<a href=`#img_backward_link_图" ++ name
    ++ litq "` id=`img_forward_link_图" ++ name
    ++ litq "`>图" ++ name ++ lit "</a>" /\
  replace Rx.tbl_ref
    (litq "<a href=`#tbl_backward_link_$1` id=`tbl_forward_link_$1`>$1</a>")
    (lit "[^表" ++ name ++ lit "]")
  = litq "<a href=`#tbl_backward_link_表" ++ name
    ++ litq "` id=`tbl_forward_link_表" ++ name
    ++ litq "`>表" ++ name ++ lit "</a>".
Proof.
  intros Hn. split; [| split; [| split]].
  - intros fc iu at0 a. unfold figureHtml.
    replace (litq "    <a href=`#img_forward_link_图")
      with (litq "    " ++ litq "<a href=`#img_forward_link_图")
      by (vm_compute; reflexivity).
    replace (litq "`>图") with (litq "`>" ++ [chr "图"])
      by (vm_compute; reflexivity).
    exists (nl ++ litq "<figure class=`image-wrap " ++ fc ++ litq "`>" ++ nl
            ++ litq "  <img src=`" ++ iu ++ litq "` alt=`" ++ at0
            ++ litq "`>" ++ nl ++ lit "  <figcaption>" ++ nl ++ litq "    ").
    exists ([chr "图"] ++ name ++ lit "</a>：" ++ interp a ++ nl
            ++ lit "  </figcaption>" ++ nl ++ lit "</figure>").
    opaque_literals. rewrite <- !app_assoc. reflexivity.
  - intros t. unfold tblCaptionHtml.
    replace (litq "<p class=`tbl_title`><a href=`#tbl_forward_link_表")
      with (litq "<p class=`tbl_title`>" ++ litq "<a href=`#tbl_forward_link_表")
      by (vm_compute; reflexivity).
    replace (litq "`>表") with (litq "`>" ++ [chr "表"])
      by (vm_compute; reflexivity).
    exists (litq "<p class=`tbl_title`>").
    exists ([chr "表"] ++ name ++ lit "</a>：" ++ t ++ lit "</p>").
    opaque_literals. rewrite <- !app_assoc. reflexivity.
  - change Rx.img_ref with (reference (chr "图")).
    replace (lit "[^图") with (lit "[^" ++ [chr "图"])
      by (vm_compute; reflexivity).
    rewrite <- app_assoc. cbn [app].
    replace (litq "<a href=`#img_backward_link_$1` id=`img_forward_link_$1`>$1</a>")
      with (litq "<a href=`#img_backward_link_" ++ lit "$1"
            ++ litq "` id=`img_forward_link_" ++ lit "$1"
            ++ litq "`>" ++ lit "$1" ++ lit "</a>")
      by (vm_compute; reflexivity).
    rewrite (replace_reference (chr "图") name Hn)
      by (vm_compute; intuition discriminate).
    replace (litq "<a href=`#img_backward_link_图")
      with (litq "<a href=`#img_backward_link_" ++ [chr "图"])
      by (vm_compute; reflexivity).
    replace (litq "` id=`img_forward_link_图")
      with (litq "` id=`img_forward_link_" ++ [chr "图"])
      by (vm_compute; reflexivity).
    replace (litq "`>图") with (litq "`>" ++ [chr "图"])
      by (vm_compute; reflexivity).
    opaque_literals. rewrite <- !app_assoc. reflexivity.
  - change Rx.tbl_ref with (reference (chr "表")).
    replace (lit "[^表") with (lit "[^" ++ [chr "表"])
      by (vm_compute; reflexivity).
    rewrite <- app_assoc. cbn [app].
    replace (litq "<a href=`#tbl_backward_link_$1` id=`tbl_forward_link_$1`>$1</a>")
      with (litq "<a href=`#tbl_backward_link_" ++ lit "$1"
            ++ litq "` id=`tbl_forward_link_" ++ lit "$1"
            ++ litq "`>" ++ lit "$1" ++ lit "</a>")
      by (vm_compute; reflexivity).
    rewrite (replace_reference (chr "表") name Hn)
      by (vm_compute; intuition discriminate).
    replace (litq "<a href=`#tbl_backward_link_表")
      with (litq "<a href=`#tbl_backward_link_" ++ [chr "表"])
      by (vm_compute; reflexivity).
    replace (litq "` id=`tbl_forward_link_表")
      with (litq "` id=`tbl_forward_link_" ++ [chr "表"])
      by (vm_compute; reflexivity).
    replace (litq "`>表") with (litq "`>" ++ [chr "表"])
      by (vm_compute; reflexivity).
    opaque_literals. rewrite <- !app_assoc. reflexivity.
Qed.

Lemma reference_links_witness :
  (forall floatClass imageUrl altText alt,
     exists pre post,
       figureHtml floatClass imageUrl altText (lit "一") alt
       = pre ++ litq "<a href=`#img_forward_link_图" ++ lit "一"
         ++ litq "` id=`img_backward_link_图" ++ lit "一" ++ litq "`>" ++ post) /\
  (forall title,
     exists pre post,
       tblCaptionHtml (lit "一") title
       = pre ++ litq "<a href=`#tbl_forward_link_表" ++ lit "一"
         ++ litq "` id=`tbl_backward_link_表" ++ lit "一" ++ litq "`>" ++ post) /\
  replace Rx.img_ref
    (litq "<a href=`#img_backward_link_$1` id=`img_forward_link_$1`>$1</a>")
    (lit "[^图" ++ lit "一" ++ lit "]")
  = litq "<a href=`#img_backward_link_图" ++ lit "一"
    ++ litq "` id=`img_forward_link_图" ++ lit "一"
    ++ litq "`>图" ++ lit "一" ++ lit "</a>" /\
  replace Rx.tbl_ref
    (litq "<a href=`#tbl_backward_link_$1` id=`tbl_forward_link_$1`>$1</a>")
    (lit "[^表" ++ lit "一" ++ lit "]")
  = litq "<a href=`#tbl_backward_link_表" ++ lit "一"
    ++ litq "` id=`tbl_forward_link_表" ++ lit "一"
    ++ litq "`>表" ++ lit "一" ++ lit "</a>".
Proof.
  apply (reference_links (lit "一")).
  vm_compute. repeat constructor; discriminate.
Defined.
